(** * roombase-chat-app: message store, user registry, command parser and
    moderation rules, embedded in Rocq.

    The TypeScript sources are translated function by function:
    - [JS]: string built-ins that several sources call ([toLowerCase],
      [trim], [includes], [startsWith]) and truthiness of strings;
    - [CommandParser]: src/utils/commandParser.ts;
    - [MessageRepository]: src/utils/messageRepository.ts;
    - [UserRepository]: src/utils/users.ts;
    - [ModerationDSL]: src/utils/moderationDSL.ts, the parsing of one
      condition and the evaluation of conditions and rules;
    - [PerformanceMonitor]: the class of that name in src/utils/logger.ts;
    - [Server]: the handlers of the mute and ban commands in src/server.ts.

    Conventions.  A JavaScript string is a [string] of ASCII characters (code
    units above 127 are left alone by the case and white-space functions).  A
    thrown [Error] is the [Throw] outcome carrying the message of the source;
    an error raised by a [checkRep] carries the message of the first violation
    the embedding meets, which iterates a [Map] in the order of [gmap].
    Objects that the source shares by reference live in a heap of records
    addressed by [loc]; arrays are values held by their owner; a [Set] of
    strings iterated in insertion order is a duplicate-free list.  Each call
    runs alone, from its first statement to its return, which is what the
    lock of the message store arranges for the bodies of its mutators.
    Recursion over replies takes [fuel], one more than the number of objects,
    and [None] stands for a recursion that does not return. *)

From Stdlib Require Import ZArith List Ascii String QArith.
From stdpp Require Import gmap strings list fin_maps pretty.

Open Scope Z_scope.

(** Outcome of a call: a returned value or a thrown [Error(msg)]. *)
Inductive Result (A : Type) : Type :=
| Ok (a : A)
| Throw (msg : string).
Arguments Ok {A} a.
Arguments Throw {A} msg.

(** ** JavaScript string built-ins *)
Module JS.

Definition code (c : ascii) : nat := nat_of_ascii c.

Definition isUpper (c : ascii) : bool := Nat.leb 65 (code c) && Nat.leb (code c) 90.

Definition lowerChar (c : ascii) : ascii :=
  if isUpper c then ascii_of_nat (code c + 32) else c.

(** [s.toLowerCase()] *)
Fixpoint toLowerCase (s : string) : string :=
  match s with
  | EmptyString => EmptyString
  | String c s' => String (lowerChar c) (toLowerCase s')
  end.

(** White space in the sense of [trim] and of the regular expression class
    [\s]: tab, line feed, vertical tab, form feed, carriage return, space. *)
Definition isWhiteSpace (c : ascii) : bool :=
  (Nat.leb 9 (code c) && Nat.leb (code c) 13) || Nat.eqb (code c) 32.

Fixpoint trimStart (s : string) : string :=
  match s with
  | EmptyString => EmptyString
  | String c s' => if isWhiteSpace c then trimStart s' else s
  end.

Definition trimEnd (s : string) : string := String.rev (trimStart (String.rev s)).

(** [s.trim()] *)
Definition trim (s : string) : string := trimEnd (trimStart s).

(** [s.startsWith(p)] *)
Definition startsWith (s p : string) : bool := String.prefix p s.

(** [s.includes(k)]: [k] occurs in [s] at some position. *)
Fixpoint includes (s k : string) : bool :=
  String.prefix k s ||
  match s with
  | EmptyString => false
  | String _ s' => includes s' k
  end.

(** The double quote character, and a string wrapped in double quotes. *)
Definition dquote : ascii := "034".
Definition quoted (s : string) : string := String dquote (s +:+ String dquote EmptyString).

(** Truthiness of a string: only the empty string is falsy. *)
Definition truthy (s : string) : bool :=
  match s with EmptyString => false | _ => true end.

(** Truthiness of an optional string ([undefined] is falsy). *)
Definition truthyOpt (o : option string) : bool :=
  match o with Some s => truthy s | None => false end.

End JS.

(** ** Command parser (src/utils/commandParser.ts) *)
Module CommandParser.

Inductive TokenType := COMMAND | ARGUMENT | STRING | NUMBER | EOF.

(** The string value of the enum member, as stored in an AST node. *)
Definition TokenType_value (t : TokenType) : string :=
  match t with
  | COMMAND => "COMMAND" | ARGUMENT => "ARGUMENT" | STRING => "STRING"
  | NUMBER => "NUMBER" | EOF => "EOF"
  end.

Definition TokenType_eqb (a b : TokenType) : bool :=
  match a, b with
  | COMMAND, COMMAND | ARGUMENT, ARGUMENT | STRING, STRING
  | NUMBER, NUMBER | EOF, EOF => true
  | _, _ => false
  end.

Record Token := mkToken { tokenType : TokenType; tokenValue : string }.

(** [ASTNode]: [type], optional [value], optional [children]. *)
#[warnings="-register-all"]
Inductive ASTNode :=
| mkNode (type : string) (value : option string) (children : option (list ASTNode)).

Definition nodeType (n : ASTNode) : string := let 'mkNode t _ _ := n in t.
Definition nodeValue (n : ASTNode) : option string := let 'mkNode _ v _ := n in v.
Definition nodeChildren (n : ASTNode) : option (list ASTNode) := let 'mkNode _ _ c := n in c.

Inductive CommandType := edit | delete | mute | ban | reply | unknown.

Record ParsedCommand := mkParsed { type : CommandType; args : list string; raw : string }.

Definition isBlank (c : ascii) : bool :=
  Ascii.eqb c " " || Ascii.eqb c "009".

Definition isDigit (c : ascii) : bool :=
  Nat.leb 48 (JS.code c) && Nat.leb (JS.code c) 57.

(** The inner loops of [tokenize]:
    [while (i < input.length && p(input[i])) { acc += input[i]; i++; }].
    The loop runs at most [input.length - i] times, which [fuel] bounds. *)
Fixpoint scan (p : ascii → bool) (input : string) (fuel i : nat) (acc : string)
  : string * nat :=
  match fuel with
  | O => (acc, i)
  | S fuel' =>
    match String.get i input with
    | Some c => if p c then scan p input fuel' (S i) (acc +:+ String c "") else (acc, i)
    | None => (acc, i)
    end
  end.

Definition scanFrom (p : ascii → bool) (input : string) (i : nat) : string * nat :=
  scan p input (String.length input) i "".

(** The outer loop of [tokenize], [while (i < input.length) { ... }]; [None]
    when [fuel] iterations were not enough. *)
Fixpoint tokenizeLoop (input : string) (fuel i : nat) (tokens : list Token)
  : option (list Token) :=
  match String.get i input with
  | None => Some tokens
  | Some char =>
    match fuel with
    | O => None
    | S fuel' =>
      if isBlank char then tokenizeLoop input fuel' (S i) tokens
      else if Ascii.eqb char "/" && Nat.eqb i 0 then
        let '(command, j) := scanFrom (fun c => negb (isBlank c)) input (S i) in
        tokenizeLoop input fuel' j (tokens ++ [mkToken COMMAND command])
      else if Ascii.eqb char JS.dquote || Ascii.eqb char "'" then
        let quote := char in
        let '(str, j) := scanFrom (fun c => negb (Ascii.eqb c quote)) input (S i) in
        tokenizeLoop input fuel' (S j) (tokens ++ [mkToken STRING str])
      else if isDigit char then
        let '(num, j) := scanFrom isDigit input i in
        tokenizeLoop input fuel' j (tokens ++ [mkToken NUMBER num])
      else
        let '(arg, j) := scanFrom (fun c => negb (isBlank c)) input i in
        tokenizeLoop input fuel' j
          (if Nat.ltb 0 (String.length arg) then tokens ++ [mkToken ARGUMENT arg] else tokens)
    end
  end.

(** Every iteration consumes a character, so [input.length] iterations do. *)
Definition tokenize (input : string) : option (list Token) :=
  match tokenizeLoop input (String.length input) 0 [] with
  | Some tokens => Some (tokens ++ [mkToken EOF ""])
  | None => None
  end.

(** The argument loop of [buildAST]:
    [for (i = 1; i < tokens.length && tokens[i].type !== EOF; i++)]. *)
Fixpoint buildChildren (tokens : list Token) : list ASTNode :=
  match tokens with
  | [] => []
  | token :: rest =>
    if TokenType_eqb (tokenType token) EOF then []
    else mkNode (TokenType_value (tokenType token)) (Some (tokenValue token)) None
         :: buildChildren rest
  end.

Definition buildAST (tokens : list Token) : ASTNode :=
  match tokens with
  | [] => mkNode "INVALID_COMMAND" None None
  | t0 :: rest =>
    if TokenType_eqb (tokenType t0) COMMAND
    then mkNode "COMMAND_NODE" (Some (tokenValue t0)) (Some (buildChildren rest))
    else mkNode "INVALID_COMMAND" None None
  end.

(** [checkRep] of the parser, on the fields [parse] has just assigned;
    [Some msg] when it throws.  ([position] is never negative.) *)
Definition checkRep (input : string) (position : nat) (currentChar : option ascii)
  : option string :=
  if Nat.ltb (String.length input) position
  then Some "Invariant violation: position out of bounds"
  else if Nat.leb (String.length input) position && bool_decide (currentChar ≠ None)
  then Some "Invariant violation: currentChar should be null at end"
  else None.

Definition commandOfName (name : string) : CommandType :=
  if String.eqb name "edit" then edit
  else if String.eqb name "delete" then delete
  else if String.eqb name "mute" then mute
  else if String.eqb name "ban" then ban
  else if String.eqb name "reply" then reply
  else unknown.

Definition unknownCommand (input : string) : ParsedCommand :=
  mkParsed unknown [] input.

(** [parse(input)]; the argument [None] stands for [null] or [undefined].
    The result is [None] only if the tokenizer ran out of fuel, which
    [parse_total] below excludes.  (The final postcondition test of the
    source cannot fire: [type] is never empty and [args] is an array.) *)
Definition parse (input : option string) : option (Result ParsedCommand) :=
  match input with
  | None => Some (Throw "Precondition violated: input cannot be null or undefined")
  | Some input =>
    let this_input := JS.trim input in
    let position := O in
    let currentChar := String.get 0 this_input in
    match checkRep this_input position currentChar with
    | Some msg => Some (Throw msg)
    | None =>
      if negb (JS.startsWith this_input "/")
      then Some (Ok (unknownCommand input))
      else
        match tokenize this_input with
        | None => None
        | Some tokens =>
          let ast := buildAST tokens in
          if String.eqb (nodeType ast) "INVALID_COMMAND" || negb (JS.truthyOpt (nodeValue ast))
          then Some (Ok (unknownCommand input))
          else
            let commandType := JS.toLowerCase (default "" (nodeValue ast)) in
            let type := commandOfName commandType in
            let args := omap nodeValue (default [] (nodeChildren ast)) in
            Some (Ok (mkParsed type args input))
        end
    end
  end.

(** [validate(command)]: arity check per command type. *)
Definition validate (command : ParsedCommand) : bool :=
  match type command with
  | edit => Nat.leb 2 (length (args command))
  | delete => Nat.eqb (length (args command)) 1
  | mute | ban => Nat.eqb (length (args command)) 1
  | reply => Nat.leb 2 (length (args command))
  | unknown => false
  end.

(** The loop of [parseTerm]:
    [while (pos < expr.length && expr[pos] >= '0' && expr[pos] <= '9') pos++]. *)
Fixpoint skipDigits (expr : string) (fuel pos : nat) : nat :=
  match fuel with
  | O => pos
  | S fuel' =>
    match String.get pos expr with
    | Some c => if isDigit c then skipDigits expr fuel' (S pos) else pos
    | None => pos
    end
  end.

(** [parseTerm()] with [pos] as it is at the call: the result, and [pos]
    after the call. *)
Definition parseTerm (expr : string) (pos : nat) : bool * nat :=
  match String.get pos expr with
  | Some c =>
    if isDigit c then (true, skipDigits expr (String.length expr) pos) else (false, pos)
  | None => (false, pos)
  end.

(** The loop of [parseExpression],
    [while (pos < expr.length && expr[pos] === '+') { pos++; if (!parseTerm()) return false; }]
    followed by [return true]; [None] when [fuel] iterations were not enough. *)
Fixpoint parseTerms (expr : string) (fuel pos : nat) : option (bool * nat) :=
  match String.get pos expr with
  | Some c =>
    if Ascii.eqb c "+" then
      match fuel with
      | O => None
      | S fuel' =>
        let '(ok, pos1) := parseTerm expr (S pos) in
        if ok then parseTerms expr fuel' pos1 else Some (false, pos1)
      end
    else Some (true, pos)
  | None => Some (true, pos)
  end.

Definition parseExpression (expr : string) : option (bool * nat) :=
  let '(ok, pos) := parseTerm expr 0 in
  if ok then parseTerms expr (String.length expr) pos else Some (false, pos).

(** [validateExpression(expr)]: [parseExpression() && pos === expr.length]. *)
Definition validateExpression (expr : string) : option bool :=
  match parseExpression expr with
  | Some (ok, pos) => Some (ok && Nat.eqb pos (String.length expr))
  | None => None
  end.

(** The grammar in the comment of [validateExpression]:
    [Expression -> Term ('+' Term)*], [Term -> Number]. *)
Inductive Number : string → Prop :=
| number_digit c : isDigit c = true → Number (String c EmptyString)
| number_more c s : isDigit c = true → Number s → Number (String c s).

Inductive PlusTerms : string → Prop :=
| plusTerms_none : PlusTerms EmptyString
| plusTerms_more t rest :
    Number t → PlusTerms rest → PlusTerms (String "+" (t +:+ rest)).

Definition Expression (expr : string) : Prop :=
  ∃ t rest, expr = t +:+ rest ∧ Number t ∧ PlusTerms rest.

(** [s] does not begin with a digit. *)
Definition noDigitAhead (s : string) : Prop :=
  match s with
  | String c _ => isDigit c = false
  | EmptyString => True
  end.

End CommandParser.


(** ** Message store (src/utils/messageRepository.ts)

    The read-receipt counters, which no other part of the store reads, are
    kept beside the repository record and passed to the two functions that
    use them. *)
Module MessageRepository.

(** A reference to a message object. *)
Abbreviation loc := nat.

Record MessageEdit := mkEdit {
  edit_text : string;
  edit_timestamp : Z;
  edit_time : string }.

(** [replies] holds references: the reply objects are the very objects that
    the index [messages] holds. *)
Record Message := mkMessage {
  id : string;
  username : string;
  text : string;
  time : string;
  timestamp : Z;
  room : string;
  edited : bool;
  editHistory : list MessageEdit;
  deleted : bool;
  parentId : option string;
  replies : list loc }.

Definition setReplies (rs : list loc) (m : Message) : Message :=
  mkMessage (id m) (username m) (text m) (time m) (timestamp m) (room m)
            (edited m) (editHistory m) (deleted m) (parentId m) rs.

(** [parent.replies.push(message)] *)
Definition pushReply (l : loc) (m : Message) : Message :=
  setReplies (replies m ++ [l]) m.

(** The assignments of a successful [editMessage]. *)
Definition applyEdit (newText newTime : string) (newStamp : Z) (m : Message) : Message :=
  mkMessage (id m) (username m) newText newTime newStamp (room m) true
            (editHistory m ++ [mkEdit (text m) (timestamp m) (time m)])
            (deleted m) (parentId m) (replies m).

Definition placeholder : string := "[Message deleted]".

(** The assignments of a successful [deleteMessage]. *)
Definition applyDelete (m : Message) : Message :=
  mkMessage (id m) (username m) placeholder (time m) (timestamp m) (room m)
            (edited m) (editHistory m) true (parentId m) (replies m).

(** The repository: the objects allocated so far, the index [messages]
    (id to object), the room index and the lock flag. *)
Record Repo := mkRepo {
  heap : list Message;
  messages : gmap string loc;
  messagesByRoom : gmap string (list string);
  lock : bool }.

Definition newRepo : Repo := mkRepo [] ∅ ∅ false.

(** What [addMessage] reads from its environment, in the order of the
    source: [Date.now()] for the timestamp, [Date.now()] and the random
    suffix inside [generateId], and the formatted wall-clock time. *)
Record AddEnv := mkAddEnv {
  add_now : Z;
  add_idNow : Z;
  add_idRandom : string;
  add_time : string }.

(** What a successful [editMessage] reads: the formatted time, then [Date.now()]. *)
Record EditEnv := mkEditEnv {
  edit_newTime : string;
  edit_now : Z }.

Definition generateId (idNow : Z) (random : string) : string :=
  pretty idNow +:+ "-" +:+ random.

(** [this.messages.get(id)], with the object it refers to. *)
Definition lookupMsg (s : Repo) (messageId : string) : option (loc * Message) :=
  match messages s !! messageId with
  | Some l => match heap s !! l with Some m => Some (l, m) | None => None end
  | None => None
  end.

Definition has (s : Repo) (messageId : string) : bool :=
  bool_decide (is_Some (messages s !! messageId)).

(** The loop over [editHistory] in [checkRep]: no entry is older than its
    predecessor. *)
Fixpoint historyOrdered (h : list MessageEdit) : bool :=
  match h with
  | a :: (b :: _) as rest =>
    negb (edit_timestamp b <? edit_timestamp a) && historyOrdered rest
  | _ => true
  end.

(** The body of the loop of [checkRep] for one message; [Some msg] when it
    throws.  (The duplicate-id test of the source cannot fire on a [Map].) *)
Definition checkMessage (s : Repo) (message : Message) : option string :=
  if timestamp message <=? 0 then Some "Invariant violation: invalid timestamp"
  else if negb (historyOrdered (editHistory message))
  then Some "Invariant violation: edit history not chronologically ordered"
  else if JS.truthyOpt (parentId message) && negb (has s (default "" (parentId message)))
  then Some "Invariant violation: parent message does not exist"
  else None.

Definition violations (s : Repo) : list string :=
  omap (fun entry : string * loc =>
          match heap s !! entry.2 with
          | Some message => checkMessage s message
          | None => None
          end)
       (map_to_list (messages s)).

Definition checkRep (s : Repo) : option string := head (violations s).

(** [Set.prototype.add] on a set kept in insertion order. *)
Definition setAdd (x : string) (set : list string) : list string :=
  if bool_decide (x ∈ set) then set else set ++ [x].

(** A call returns [None] when it never completes (it waits for the lock
    for ever); otherwise an outcome and the repository after the call. *)
Definition Call (A : Type) : Type := option (Result A * Repo).

Definition releaseLock (s : Repo) : Repo :=
  mkRepo (heap s) (messages s) (messagesByRoom s) false.

(** The [try] block of a mutator ends with [checkRep()], and [finally]
    releases the lock on both exits. *)
Definition finish {A : Type} (s : Repo) (a : A) : Call A :=
  match checkRep s with
  | Some msg => Some (Throw msg, releaseLock s)
  | None => Some (Ok a, releaseLock s)
  end.

Definition addMessage (s : Repo) (username text room : string)
  (parentId : option string) (e : AddEnv) : Call loc :=
  if negb (JS.truthy username)
  then Some (Throw "Precondition violated: username must be non-empty", s)
  else if negb (JS.truthy text)
  then Some (Throw "Precondition violated: text must be non-empty", s)
  else if negb (JS.truthy room)
  then Some (Throw "Precondition violated: room must be non-empty", s)
  else if JS.truthyOpt parentId && negb (has s (default "" parentId))
  then Some (Throw "Precondition violated: parent message does not exist", s)
  else if lock s then None
  else
    let now := add_now e in
    let message :=
      mkMessage (generateId (add_idNow e) (add_idRandom e)) username text
                (add_time e) now room false [] false parentId [] in
    let l := length (heap s) in
    let heap1 := heap s ++ [message] in
    let messages1 := <[id message := l]> (messages s) in
    let byRoom1 :=
      <[room := setAdd (id message) (default [] (messagesByRoom s !! room))]>
        (messagesByRoom s) in
    let heap2 :=
      if JS.truthyOpt parentId then
        match messages1 !! default "" parentId with
        | Some parent => alter (pushReply l) parent heap1
        | None => heap1
        end
      else heap1 in
    finish (mkRepo heap2 messages1 byRoom1 true) l.

(** Returns the edited message, or [None] for the [null] of a refused edit. *)
Definition editMessage (s : Repo) (messageId newText username : string)
  (e : EditEnv) : Call (option loc) :=
  if negb (JS.truthy messageId)
  then Some (Throw "Precondition violated: messageId cannot be null", s)
  else if negb (JS.truthy newText)
  then Some (Throw "Precondition violated: newText must be non-empty", s)
  else if lock s then None
  else
    match lookupMsg s messageId with
    | None => Some (Throw "Precondition violated: message does not exist", releaseLock s)
    | Some (l, message) =>
      if deleted message
      then Some (Throw "Precondition violated: cannot edit deleted message", releaseLock s)
      else if negb (String.eqb (MessageRepository.username message) username)
      then Some (Ok None, releaseLock s)
      else
        let heap1 :=
          <[l := applyEdit newText (edit_newTime e) (edit_now e) message]> (heap s) in
        finish (mkRepo heap1 (messages s) (messagesByRoom s) true) (Some l)
    end.

Definition deleteMessage (s : Repo) (messageId username : string) : Call bool :=
  if negb (JS.truthy messageId)
  then Some (Throw "Precondition violated: messageId cannot be null", s)
  else if lock s then None
  else
    match lookupMsg s messageId with
    | None => Some (Throw "Precondition violated: message does not exist", releaseLock s)
    | Some (l, message) =>
      if negb (String.eqb (MessageRepository.username message) username)
      then Some (Ok false, releaseLock s)
      else
        let heap1 := <[l := applyDelete message]> (heap s) in
        finish (mkRepo heap1 (messages s) (messagesByRoom s) true) true
    end.

Definition getMessage (s : Repo) (messageId : string) : option Message :=
  snd <$> lookupMsg s messageId.

(** [reply.deleted] read through a reference. *)
Definition isDeleted (h : list Message) (l : loc) : bool :=
  match h !! l with Some m => deleted m | None => false end.

Definition stamp (h : list Message) (l : loc) : Z :=
  match h !! l with Some m => timestamp m | None => 0 end.

(** [Array.prototype.sort] with the comparator [a.timestamp - b.timestamp]:
    ascending and stable, here by insertion. *)
Fixpoint insertBy (key : loc → Z) (x : loc) (l : list loc) : list loc :=
  match l with
  | [] => [x]
  | y :: l' => if key x <=? key y then x :: l else y :: insertBy key x l'
  end.

Definition sortBy (key : loc → Z) (l : list loc) : list loc :=
  foldr (insertBy key) [] l.

(** The messages of a room that are not deleted, as references. *)
Definition getMessagesForRoom (s : Repo) (room : string) : list loc :=
  match messagesByRoom s !! room with
  | None => []
  | Some messageIds =>
    sortBy (stamp (heap s))
      (omap (fun messageId =>
               match lookupMsg s messageId with
               | Some (l, message) => if deleted message then None else Some l
               | None => None
               end)
            messageIds)
  end.

(** Left-to-right loop over an array whose body may fail to return. *)
Fixpoint foldlM {A B : Type} (f : A → B → option A) (a : A) (l : list B) : option A :=
  match l with
  | [] => Some a
  | b :: l' => match f a b with Some a' => foldlM f a' l' | None => None end
  end.

(** [populateReplies(msg)] on the object at [l]: the reply list is replaced
    by its non-deleted members, after the same was done to each of them.
    [fuel] bounds the recursion depth. *)
Fixpoint populateReplies (fuel : nat) (h : list Message) (l : loc) : option (list Message) :=
  match fuel with
  | O => None
  | S fuel' =>
    match h !! l with
    | None => None
    | Some msg =>
      match replies msg with
      | [] => Some h
      | _ =>
        let kept := List.filter (fun reply => negb (isDeleted h reply)) (replies msg) in
        match foldlM (populateReplies fuel') h kept with
        | Some h' => Some (alter (setReplies kept) l h')
        | None => None
        end
      end
    end
  end.

(** [getMessageThread]: the spread [{ ...message }] allocates a copy of
    the root only; the recursion then runs on that copy and, below it, on
    the stored reply objects.  Returns the reference to the copy. *)
Definition getMessageThread (s : Repo) (messageId : string) : option (option loc * Repo) :=
  match lookupMsg s messageId with
  | None => Some (None, s)
  | Some (_, message) =>
    let copy := length (heap s) in
    let heap1 := heap s ++ [message] in
    match populateReplies (S (length heap1)) heap1 copy with
    | Some heap2 => Some (Some copy, mkRepo heap2 (messages s) (messagesByRoom s) (lock s))
    | None => None
    end
  end.

(** [searchRecursive(msg)], with [results] passed along. *)
Fixpoint searchRecursive (fuel : nat) (h : list Message) (lowerKeyword : string)
  (results : list loc) (l : loc) : option (list loc) :=
  match fuel with
  | O => None
  | S fuel' =>
    match h !! l with
    | None => None
    | Some msg =>
      let matchesThisMessage := JS.includes (JS.toLowerCase (text msg)) lowerKeyword in
      let results1 := if matchesThisMessage then results ++ [l] else results in
      foldlM (fun res reply =>
                if negb (isDeleted h reply)
                then searchRecursive fuel' h lowerKeyword res reply
                else Some res)
             results1 (replies msg)
    end
  end.

Definition searchMessages (s : Repo) (keyword room : string) : option (list loc) :=
  let lowerKeyword := JS.toLowerCase keyword in
  let roomMessages := getMessagesForRoom s room in
  foldlM (searchRecursive (S (length (heap s))) (heap s) lowerKeyword) [] roomMessages.

(** [calculateDepth(msg)] *)
Fixpoint calculateDepth (fuel : nat) (h : list Message) (l : loc) : option Z :=
  match fuel with
  | O => None
  | S fuel' =>
    match h !! l with
    | None => None
    | Some msg =>
      match replies msg with
      | [] => Some 0
      | _ =>
        match foldlM (fun maxDepth reply =>
                        if negb (isDeleted h reply) then
                          match calculateDepth fuel' h reply with
                          | Some depth => Some (Z.max maxDepth depth)
                          | None => None
                          end
                        else Some maxDepth)
                     0 (replies msg) with
        | Some maxDepth => Some (1 + maxDepth)
        | None => None
        end
      end
    end
  end.

Definition getThreadDepth (s : Repo) (messageId : string) : option Z :=
  match lookupMsg s messageId with
  | None => Some (-1)
  | Some (l, _) => calculateDepth (S (length (heap s))) (heap s) l
  end.

(** [clear()]: both indices are emptied; [checkRep] then has nothing to check. *)
Definition clear (s : Repo) : Repo := mkRepo (heap s) ∅ ∅ (lock s).

(** The calls that change the repository. *)
Inductive Op :=
| OpAdd (username text room : string) (parentId : option string) (e : AddEnv)
| OpEdit (messageId newText username : string) (e : EditEnv)
| OpDelete (messageId username : string)
| OpThread (messageId : string)
| OpClear.

(** The repository after a call, whatever its outcome; [None] if the call
    does not return. *)
Definition step (s : Repo) (o : Op) : option Repo :=
  match o with
  | OpAdd u t r p e => snd <$> addMessage s u t r p e
  | OpEdit i t u e => snd <$> editMessage s i t u e
  | OpDelete i u => snd <$> deleteMessage s i u
  | OpThread i => snd <$> getMessageThread s i
  | OpClear => Some (clear s)
  end.

Definition run (s : Repo) (ops : list Op) : option Repo := foldlM step s ops.

(** The repositories that calls can produce from a new one. *)
Inductive reachable : Repo → Prop :=
| reachable_new : reachable newRepo
| reachable_step s o s' : reachable s → step s o = Some s' → reachable s'.

(** The state that [addMessage] hands to [checkRep], spelled out. *)
Definition added (s : Repo) (username text room : string) (parentId : option string)
  (e : AddEnv) : Repo :=
  let message :=
    mkMessage (generateId (add_idNow e) (add_idRandom e)) username text
              (add_time e) (add_now e) room false [] false parentId [] in
  let l := length (heap s) in
  let heap1 := heap s ++ [message] in
  let messages1 := <[id message := l]> (messages s) in
  mkRepo (if JS.truthyOpt parentId then
            match messages1 !! default EmptyString parentId with
            | Some parent => alter (pushReply l) parent heap1
            | None => heap1
            end
          else heap1)
         messages1
         (<[room := setAdd (id message) (default [] (messagesByRoom s !! room))]>
            (messagesByRoom s))
         true.

(** The repository is well formed: the lock is free, and every entry of
    the index refers to an object that carries the entry's id, a non-empty
    one, and is listed under its room. *)
Definition wf (s : Repo) : Prop :=
  lock s = false ∧
  ∀ i l, messages s !! i = Some l →
    ∃ m, heap s !! l = Some m ∧ id m = i ∧ i ≠ EmptyString ∧
         i ∈ default [] (messagesByRoom s !! room m).

(** [h'] holds the objects of [h], each with all its fields but [replies]. *)
Definition frame (h h' : list Message) : Prop :=
  length h' = length h ∧
  ∀ l m', h' !! l = Some m' → ∃ m, h !! l = Some m ∧ m' = setReplies (replies m') m.

(** [l[i] <= l[i+1]] for every valid [i]. *)
Definition nondecreasing (l : list Z) : Prop :=
  ∀ i a b, l !! i = Some a → l !! S i = Some b → a ≤ b.

Fixpoint ordered (l : list Z) : Prop :=
  match l with
  | a :: (b :: _) as rest => a ≤ b ∧ ordered rest
  | _ => True
  end.

(** The timestamps of the edit history, followed by the current one. *)
Definition stamps (m : Message) : list Z :=
  (edit_timestamp <$> editHistory m) ++ [timestamp m].

(** A sequence of edits of one message by one user, each of which returns
    the message. *)
Fixpoint editAll (s : Repo) (messageId username : string)
  (edits : list (string * EditEnv)) : option Repo :=
  match edits with
  | [] => Some s
  | (newText, e) :: rest =>
    match editMessage s messageId newText username e with
    | Some (Ok (Some _), s') => editAll s' messageId username rest
    | _ => None
    end
  end.

(** The history records that a sequence of edits pushes, [cur] being the
    state of the message before the first of them. *)
Fixpoint pushed (cur : MessageEdit) (edits : list (string * EditEnv)) : list MessageEdit :=
  match edits with
  | [] => []
  | (newText, e) :: rest =>
    cur :: pushed (mkEdit newText (edit_now e) (edit_newTime e)) rest
  end.

Definition current (m : Message) : MessageEdit :=
  mkEdit (text m) (timestamp m) (time m).

(** The clock that a call reads when it stamps a message. *)
Definition clockOf (o : Op) : option Z :=
  match o with
  | OpAdd _ _ _ _ e => Some (add_now e)
  | OpEdit _ _ _ e => Some (edit_now e)
  | _ => None
  end.

(** The clock readings of a sequence of calls never decrease, [t] being
    the last reading before it. *)
Fixpoint clockMonotone (t : Z) (ops : list Op) : Prop :=
  match ops with
  | [] => True
  | o :: rest =>
    match clockOf o with
    | Some t' => t ≤ t' ∧ clockMonotone t' rest
    | None => clockMonotone t rest
    end
  end.

(** Every object carries non-decreasing timestamps, none later than [t]. *)
Definition chronological (t : Z) (h : list Message) : Prop :=
  ∀ l m, h !! l = Some m → ordered (stamps m) ∧ timestamp m ≤ t.

(** [incrementReadReceipt(messageId)], on the counters [readReceiptCounts]
    of the store: [get(messageId) || 0], plus one, under the lock.  Returns
    the new count with the repository and the counters after the call. *)
Definition incrementReadReceipt (s : Repo) (readReceiptCounts : gmap string Z)
  (messageId : string) : option (Z * (Repo * gmap string Z)) :=
  if lock s then None
  else
    let currentCount := default 0 (readReceiptCounts !! messageId) in
    let newCount := currentCount + 1 in
    Some (newCount, (releaseLock s, <[messageId := newCount]> readReceiptCounts)).

(** [getReadReceiptCount(messageId)] *)
Definition getReadReceiptCount (readReceiptCounts : gmap string Z) (messageId : string) : Z :=
  default 0 (readReceiptCounts !! messageId).

(** A sequence of [incrementReadReceipt] calls, one per element of [ids]. *)
Fixpoint incrementAll (s : Repo) (readReceiptCounts : gmap string Z) (ids : list string)
  : option (Repo * gmap string Z) :=
  match ids with
  | [] => Some (s, readReceiptCounts)
  | messageId :: rest =>
    match incrementReadReceipt s readReceiptCounts messageId with
    | Some (_, (s', counts')) => incrementAll s' counts' rest
    | None => None
    end
  end.

(** The number of times [x] occurs in [l]. *)
Definition occurrences (x : string) (l : list string) : Z :=
  Z.of_nat (length (List.filter (String.eqb x) l)).

(** Whether a message matches a keyword in [searchMessages]. *)
Definition matchesKeyword (keyword : string) (m : Message) : bool :=
  JS.includes (JS.toLowerCase (text m)) (JS.toLowerCase keyword).

(** Further facts that hold of every repository that calls can produce:
    no id is listed twice under a room, and the parent id of every stored
    message is in the index. *)
Definition linked (s : Repo) : Prop :=
  (∀ r ids, messagesByRoom s !! r = Some ids → NoDup ids) ∧
  (∀ i l m, lookupMsg s i = Some (l, m) → JS.truthyOpt (parentId m) = true →
            has s (default EmptyString (parentId m)) = true).

(** Every object carries a positive timestamp. *)
Definition positive (h : list Message) : Prop :=
  ∀ l m, h !! l = Some m → 0 < timestamp m.

(** Every reference in a reply list points to an object. *)
Definition closed (h : list Message) : Prop :=
  ∀ l m, h !! l = Some m → ∀ x, x ∈ replies m → (x < length h)%nat.

(** [h'] holds the objects of [h], each with all its fields but [replies],
    and with no reply that it did not have. *)
Definition narrows (h h' : list Message) : Prop :=
  length h' = length h ∧
  ∀ l m', h' !! l = Some m' →
    ∃ m, h !! l = Some m ∧ m' = setReplies (replies m') m ∧ replies m' ⊆ replies m.

(** [searchRecursive] appends to the results; what it appends are messages
    that contain the keyword, each the starting one or not deleted. *)
Definition appendsHits (fuel : nat) (h : list Message) (kw : string) : Prop :=
  ∀ results l results',
    searchRecursive fuel h kw results l = Some results' →
    ∃ new, results' = results ++ new ∧
           ∀ x, x ∈ new →
             ∃ mx, h !! x = Some mx ∧ JS.includes (JS.toLowerCase (text mx)) kw = true ∧
                   (x = l ∨ deleted mx = false).

(** The repositories that calls produce from a new one while the clock
    they read is positive and never runs backwards; [t] is a reading that
    the next call may get. *)
Inductive timed : Z → Repo → Prop :=
| timed_new t : 0 < t → timed t newRepo
| timed_step t s o s' :
    timed t s → step s o = Some s' → (∀ t', clockOf o = Some t' → t ≤ t') →
    timed (default t (clockOf o)) s'.

(** The id that a call generates is not in the index. *)
Definition freshId (s : Repo) (o : Op) : Prop :=
  match o with
  | OpAdd _ _ _ _ e => has s (generateId (add_idNow e) (add_idRandom e)) = false
  | _ => True
  end.

(** The repositories that calls produce from a new one when no generated
    id repeats one of the index. *)
Inductive built : Repo → Prop :=
| built_new : built newRepo
| built_step s o s' : built s → freshId s o → step s o = Some s' → built s'.

(** No call of the sequence generates an id that is in the index when the
    call is made, and every call returns. *)
Fixpoint freshRun (s : Repo) (ops : list Op) : Prop :=
  match ops with
  | [] => True
  | o :: rest =>
    freshId s o ∧ match step s o with Some s' => freshRun s' rest | None => False end
  end.

(** The object at [x] refers only to objects allocated after it. *)
Definition up (h : list Message) (x : loc) : Prop :=
  ∃ mx, h !! x = Some mx ∧ ∀ y, y ∈ replies mx → (x < y)%nat.

(** Every reply reference leads to an object that refers only to later ones. *)
Definition forest (h : list Message) : Prop :=
  ∀ l m, h !! l = Some m → ∀ x, x ∈ replies m → up h x.

End MessageRepository.

(** ** User registry (src/utils/users.ts) *)
Module UserRepository.

Inductive Role := role_admin | role_moderator | role_user.

Record User := mkUser {
  id : string;
  username : string;
  room : string;
  role : Role;
  muted : bool;
  banned : bool }.

(** [UserJoinResult]: [{ error }] or [{ user }]. *)
Record UserJoinResult := mkJoinResult {
  error : option string;
  user : option User }.

(** [users] maps a socket id to its user, [usernameIndex] a lower-cased
    username to the socket id. *)
Record Registry := mkRegistry {
  users : gmap string User;
  usernameIndex : gmap string string }.

Definition newRegistry : Registry := mkRegistry ∅ ∅.

Definition setMuted (b : bool) (u : User) : User :=
  mkUser (id u) (username u) (room u) (role u) b (banned u).

Definition setBanned (b : bool) (u : User) : User :=
  mkUser (id u) (username u) (room u) (role u) (muted u) b.

Definition lowerNames (r : Registry) : list string :=
  (fun entry : string * User => JS.toLowerCase (username entry.2)) <$> map_to_list (users r).

(** [checkRep]; [Some msg] when it throws.  (The duplicate socket id test
    of the source cannot fire on a [Map].) *)
Definition checkRep (r : Registry) : option string :=
  if negb (bool_decide (NoDup (lowerNames r)))
  then Some "Invariant violation: duplicate username"
  else if existsb (fun entry : string * User => negb (JS.truthy (room entry.2)))
                  (map_to_list (users r))
  then Some "Invariant violation: room must be non-empty"
  else if negb (Nat.eqb (size (usernameIndex r)) (size (users r)))
  then Some "Invariant violation: username index size mismatch"
  else None.

Definition finish {A : Type} (r : Registry) (a : A) : Result A * Registry :=
  match checkRep r with
  | Some msg => (Throw msg, r)
  | None => (Ok a, r)
  end.

(** [userJoin(id, username, room, role = 'user')] *)
Definition userJoin (r : Registry) (id username room : string) (role : option Role)
  : Result UserJoinResult * Registry :=
  if negb (JS.truthy id)
  then (Throw "Precondition violated: id must be non-empty", r)
  else if negb (JS.truthy username)
  then (Throw "Precondition violated: username must be non-empty", r)
  else if negb (JS.truthy room)
  then (Throw "Precondition violated: room must be non-empty", r)
  else if bool_decide (is_Some (users r !! id))
  then (Throw "Precondition violated: socket ID already in use", r)
  else
    let lowerUsername := JS.toLowerCase username in
    if bool_decide (is_Some (usernameIndex r !! lowerUsername))
    then (Ok (mkJoinResult (Some "Username is already taken") None), r)
    else
      let user := mkUser id username room (default role_user role) false false in
      finish (mkRegistry (<[id := user]> (users r))
                         (<[lowerUsername := id]> (usernameIndex r)))
             (mkJoinResult None (Some user)).

Definition getCurrentUser (r : Registry) (id : string) : option User :=
  users r !! id.

Definition getUserByUsername (r : Registry) (username : string) : option User :=
  match usernameIndex r !! JS.toLowerCase username with
  | Some socketId => if JS.truthy socketId then users r !! socketId else None
  | None => None
  end.

(** [user.muted = b] and [user.banned = b] on the stored object. *)
Definition update (f : User → User) (r : Registry) (username : string) : bool * Registry :=
  match usernameIndex r !! JS.toLowerCase username, getUserByUsername r username with
  | Some socketId, Some user =>
    (true, mkRegistry (<[socketId := f user]> (users r)) (usernameIndex r))
  | _, _ => (false, r)
  end.

Definition muteUser := update (setMuted true).
Definition unmuteUser := update (setMuted false).
Definition banUser := update (setBanned true).

Definition userLeave (r : Registry) (id : string) : Result (option User) * Registry :=
  match users r !! id with
  | Some user =>
    finish (mkRegistry (delete id (users r))
                       (delete (JS.toLowerCase (username user)) (usernameIndex r)))
           (Some user)
  | None => (Ok None, r)
  end.

Definition getRoomUsers (r : Registry) (room : string) : list User :=
  List.filter (fun u => String.eqb (UserRepository.room u) room)
              (snd <$> map_to_list (users r)).

Definition clear (r : Registry) : Registry := newRegistry.

Inductive Op :=
| OpJoin (id username room : string) (role : option Role)
| OpLeave (id : string)
| OpMute (username : string)
| OpUnmute (username : string)
| OpBan (username : string)
| OpClear.

(** The registry after a call, whatever its outcome. *)
Definition step (r : Registry) (o : Op) : Registry :=
  match o with
  | OpJoin i u rm rl => (userJoin r i u rm rl).2
  | OpLeave i => (userLeave r i).2
  | OpMute u => (muteUser r u).2
  | OpUnmute u => (unmuteUser r u).2
  | OpBan u => (banUser r u).2
  | OpClear => clear r
  end.

Inductive reachable : Registry → Prop :=
| reachable_new : reachable newRegistry
| reachable_step r o : reachable r → reachable (step r o).

(** The two indices agree: they have the same number of entries, and the
    lower-cased name of every user leads back to the user's socket id. *)
Definition consistent (r : Registry) : Prop :=
  size (usernameIndex r) = size (users r) ∧
  ∀ i u, users r !! i = Some u → usernameIndex r !! JS.toLowerCase (username u) = Some i.

(** Every entry of the username index leads to a user with that name in
    lower case; every user is stored under its own socket id, a non-empty
    one, and has a non-empty room. *)
Definition sound (r : Registry) : Prop :=
  (∀ k socketId, usernameIndex r !! k = Some socketId →
     ∃ u, users r !! socketId = Some u ∧ JS.toLowerCase (username u) = k) ∧
  (∀ i u, users r !! i = Some u → id u = i ∧ i ≠ EmptyString ∧ room u ≠ EmptyString).

End UserRepository.

(** ** Moderation rules (src/utils/moderationDSL.ts) *)
Module ModerationDSL.

(** A JavaScript number that a rule can hold: a finite value, kept exact as
    a rational, or an infinity.  ([NaN] is the [None] of [parseFloat]; the
    rounding of a decimal literal to a double is not represented.) *)
Inductive number :=
| Finite (q : Q)
| Infinite (negative : bool).

(** [string | number] *)
Inductive Value :=
| Str (s : string)
| Num (n : number).

Record RuleCondition := mkCondition {
  field : string;
  operator : string;
  value : Value }.

Inductive Logic := and | or.

Record ParsedRule := mkRule {
  conditions : list RuleCondition;
  action : string;
  logic : Logic }.

Definition isDigit (c : ascii) : bool :=
  Nat.leb 48 (JS.code c) && Nat.leb (JS.code c) 57.

(** The longest run of decimal digits at the head of [s], and the rest. *)
Fixpoint digitsPrefix (s : string) : list Z * string :=
  match s with
  | String c s' =>
    if isDigit c
    then let '(ds, rest) := digitsPrefix s' in (Z.of_nat (JS.code c) - 48 :: ds, rest)
    else ([], s)
  | EmptyString => ([], s)
  end.

Definition decimal (ds : list Z) : Z := fold_left (fun a d => 10 * a + d) ds 0.

(** An optional sign at the head of [s]. *)
Definition signPrefix (s : string) : bool * string :=
  match s with
  | String "-" rest => (true, rest)
  | String "+" rest => (false, rest)
  | _ => (false, s)
  end.

(** The exponent part [e[+-]digits] at the head of [s], 0 when there is none. *)
Definition exponentPrefix (s : string) : Z :=
  match s with
  | String c rest =>
    if Ascii.eqb c "e" || Ascii.eqb c "E" then
      let '(neg, rest1) := signPrefix rest in
      match digitsPrefix rest1 with
      | ([], _) => 0
      | (ds, _) => if neg then - decimal ds else decimal ds
      end
    else 0
  | EmptyString => 0
  end.

(** [mantissa * 10^exponent] *)
Definition scale (mantissa exponent : Z) : Q :=
  if 0 <=? exponent
  then inject_Z (mantissa * 10 ^ exponent)
  else Qmake mantissa (Z.to_pos (10 ^ (- exponent))).

(** [parseFloat(s)]: the value of the longest decimal literal at the head
    of [s] after leading white space; [None] for [NaN]. *)
Definition parseFloat (s : string) : option number :=
  let '(neg, body) := signPrefix (JS.trimStart s) in
  if String.prefix "Infinity" body then Some (Infinite neg)
  else
    let '(intDigits, rest1) := digitsPrefix body in
    let '(fracDigits, rest2) :=
      match rest1 with
      | String "." rest => digitsPrefix rest
      | _ => ([], rest1)
      end in
    match intDigits ++ fracDigits with
    | [] => None
    | ds =>
      let mantissa := if neg then - decimal ds else decimal ds in
      Some (Finite (scale mantissa (exponentPrefix rest2 - Z.of_nat (length fracDigits))))
    end.

(** [s.split(sep)] for a separator of at least one character: [skip] counts
    the characters of a separator still to be passed over, [cur] is the
    piece being collected. *)
Fixpoint splitGo (sep s : string) (skip : nat) (cur : string) : list string :=
  match s with
  | EmptyString => [cur]
  | String c s' =>
    match skip with
    | S k => splitGo sep s' k cur
    | O =>
      if String.prefix sep s
      then cur :: splitGo sep s' (String.length sep - 1) EmptyString
      else splitGo sep s' O (cur +:+ String c EmptyString)
    end
  end.

Definition split (s sep : string) : list string := splitGo sep s O EmptyString.

(** [s.replace] with the global pattern of the two quote characters and an
    empty replacement: every single or double quote is dropped. *)
Fixpoint stripQuotes (s : string) : string :=
  match s with
  | EmptyString => EmptyString
  | String c s' =>
    if Ascii.eqb c "'" || Ascii.eqb c JS.dquote then stripQuotes s'
    else String c (stripQuotes s')
  end.

(** [message.split(/\s+/).length]: one more than the number of maximal
    runs of white space. *)
Fixpoint spaceRuns (s : string) (inRun : bool) : nat :=
  match s with
  | EmptyString => O
  | String c s' =>
    if JS.isWhiteSpace c
    then (if inRun then O else 1%nat) + spaceRuns s' true
    else spaceRuns s' false
  end%nat.

Definition wordCount (message : string) : nat := S (spaceRuns message false).

Definition operators : list string :=
  ["contains"; "equals"; "matches"; ">="; "<="; ">"; "<"].

(** The body of the loop of [parseCondition] for one operator. *)
Definition tryOperator (condStr op : string) : option RuleCondition :=
  match split condStr (" " +:+ op +:+ " ") with
  | [part0; part1] =>
    let field := JS.trim part0 in
    let value := stripQuotes (JS.trim part1) in
    match parseFloat value with
    | Some numValue => Some (mkCondition field op (Num numValue))
    | None => Some (mkCondition field op (Str value))
    end
  | _ => None
  end.

Fixpoint firstOperator (condStr : string) (ops : list string) : option RuleCondition :=
  match ops with
  | [] => None
  | op :: rest =>
    match tryOperator condStr op with
    | Some c => Some c
    | None => firstOperator condStr rest
    end
  end.

Definition parseCondition (condStr : string) : option RuleCondition :=
  firstOperator condStr operators.

Definition includesStr (l : list string) (x : string) : bool :=
  existsb (String.eqb x) l.

Definition validate (rule : ParsedRule) : bool :=
  let validFields := ["message"; "user"; "username"; "word_count"; "length"] in
  let validOperators := ["contains"; "equals"; "matches"; ">"; "<"; ">="; "<="] in
  let validActions := ["mute"; "ban"; "delete"; "warn"; "flag"] in
  if negb (includesStr validActions (action rule)) then false
  else forallb (fun condition =>
                  includesStr validFields (field condition) &&
                  includesStr validOperators (operator condition))
               (conditions rule).

(** Order of two numbers. *)
Definition compareNumber (a b : number) : comparison :=
  match a, b with
  | Finite x, Finite y => Qcompare x y
  | Finite _, Infinite neg => if neg then Gt else Lt
  | Infinite neg, Finite _ => if neg then Lt else Gt
  | Infinite n1, Infinite n2 =>
    match n1, n2 with
    | true, false => Lt
    | false, true => Gt
    | _, _ => Eq
    end
  end.

(** [a === b] on [string | number]: values of different types are never
    equal. *)
Definition strictEquals (a b : Value) : bool :=
  match a, b with
  | Str x, Str y => String.eqb x y
  | Num x, Num y => match compareNumber x y with Eq => true | _ => false end
  | _, _ => false
  end.

Definition isString (v : Value) : bool := match v with Str _ => true | Num _ => false end.
Definition isNumber (v : Value) : bool := match v with Num _ => true | Str _ => false end.

(** The [switch] on [condition.field]; [None] for the [default] branch. *)
Definition resolveField (fieldName message username : string) : option Value :=
  if String.eqb fieldName "message" then Some (Str (JS.toLowerCase message))
  else if String.eqb fieldName "user" || String.eqb fieldName "username"
  then Some (Str (JS.toLowerCase username))
  else if String.eqb fieldName "word_count"
  then Some (Num (Finite (inject_Z (Z.of_nat (wordCount message)))))
  else if String.eqb fieldName "length"
  then Some (Num (Finite (inject_Z (Z.of_nat (String.length message)))))
  else None.

Section Evaluation.

(** Built-ins of the host that the rules call and that stay abstract:
    [regExpTest p s] is [new RegExp(p).test(s)], [None] when the constructor
    throws; [toNumber] is the conversion that [<] and [>] apply to a string
    operand, [None] for [NaN]; [numberToString] is the conversion that
    [includes] and [RegExp] apply to a number. *)
Variable regExpTest : string → string → option bool.
Variable toNumber : string → option number.
Variable numberToString : number → string.

Definition asString (v : Value) : string :=
  match v with Str s => s | Num n => numberToString n end.

Definition asNumber (v : Value) : option number :=
  match v with Str s => toNumber s | Num n => Some n end.

(** [fieldValue op condValue] for a numeric [fieldValue]; a [NaN] operand
    makes every comparison false. *)
Definition relation (test : comparison → bool) (fieldValue : number) (condValue : Value) : bool :=
  match asNumber condValue with
  | Some n => test (compareNumber fieldValue n)
  | None => false
  end.

Definition evaluateCondition (condition : RuleCondition) (message username : string) : bool :=
  match resolveField (field condition) message username with
  | None => false
  | Some fieldValue =>
    let condValue :=
      match value condition with
      | Str s => Str (JS.toLowerCase s)
      | Num n => Num n
      end in
    let op := operator condition in
    if String.eqb op "contains" then
      match fieldValue with
      | Str f => JS.includes f (asString condValue)
      | Num _ => false
      end
    else if String.eqb op "equals" then strictEquals fieldValue condValue
    else if String.eqb op "matches" then
      match fieldValue with
      | Str f => default false (regExpTest (asString condValue) f)
      | Num _ => false
      end
    else if String.eqb op ">" then
      match fieldValue with
      | Num f => relation (fun c => match c with Gt => true | _ => false end) f condValue
      | Str _ => false
      end
    else if String.eqb op "<" then
      match fieldValue with
      | Num f => relation (fun c => match c with Lt => true | _ => false end) f condValue
      | Str _ => false
      end
    else if String.eqb op ">=" then
      match fieldValue with
      | Num f => relation (fun c => match c with Lt => false | _ => true end) f condValue
      | Str _ => false
      end
    else if String.eqb op "<=" then
      match fieldValue with
      | Num f => relation (fun c => match c with Gt => false | _ => true end) f condValue
      | Str _ => false
      end
    else false
  end.

Definition evaluateRule (rule : ParsedRule) (message username : string) : bool :=
  let results := List.map (fun condition => evaluateCondition condition message username)
                          (conditions rule) in
  match logic rule with
  | and => forallb (fun r => r) results
  | or => existsb (fun r => r) results
  end.

End Evaluation.

End ModerationDSL.

(** ** Performance monitor (src/utils/logger.ts) *)

Module PerformanceMonitor.

(** [record(operationName, duration)] on the map [operations]: the
    duration is pushed on the array of the operation, created when absent,
    and the oldest one is shifted out when the array has more than 100. *)
Definition record (operations : gmap string (list Z)) (operationName : string)
  (duration : Z) : gmap string (list Z) :=
  let durations := default [] (operations !! operationName) ++ [duration] in
  <[operationName := if Nat.ltb 100 (length durations) then tail durations else durations]>
    operations.

(** The function that [start(operationName)] returns, called when
    [Date.now()] reads [now]; [startTime] is the reading at [start]. *)
Definition stop (operations : gmap string (list Z)) (operationName : string)
  (startTime now : Z) : gmap string (list Z) :=
  record operations operationName (now - startTime).

(** The result of [getStats]; [avg] is the exact quotient, which the
    source rounds to a double. *)
Record Stats := mkStats { count : nat; avg : Q; min : Z; max : Z }.

Definition getStats (operations : gmap string (list Z)) (operationName : string)
  : option Stats :=
  match operations !! operationName with
  | None | Some [] => None
  | Some ((d :: ds) as durations) =>
    let count := length durations in
    let sum := foldl Z.add 0 durations in
    Some (mkStats count (inject_Z sum / inject_Z (Z.of_nat count))
                  (foldl Z.min d ds) (foldl Z.max d ds))
  end.

(** A sequence of [record] calls. *)
Definition recordAll (operations : gmap string (list Z)) (calls : list (string * Z))
  : gmap string (list Z) :=
  foldl (fun o call => record o call.1 call.2) operations calls.

(** The durations that a sequence of calls records for one operation. *)
Definition measurements (operationName : string) (calls : list (string * Z)) : list Z :=
  omap (fun call : string * Z =>
          if String.eqb call.1 operationName then Some call.2 else None) calls.

(** The last [n] elements of a list. *)
Definition lastN {A} (n : nat) (l : list A) : list A := drop (length l - n) l.

End PerformanceMonitor.

(** ** Command handlers of the server (src/server.ts) *)

Module Server.

Record FormattedMessage := mkFormatted {
  username : string;
  text : string;
  time : string }.

Definition BOT_NAME : string := "XeroxChat Bot".

(** [formatMessage(username, text)]; [time] is the formatted reading of
    the clock. *)
Definition formatMessage (username text time : string) : FormattedMessage :=
  mkFormatted username text time.

(** What a handler sends: [socket.emit(event, payload)] to the sender, or
    [io.to(room).emit(event, payload)] to a room. *)
Inductive Emit :=
| socketEmit (event payload : string)
| roomEmit (room event : string) (payload : FormattedMessage).

(** The exported wrapper [userJoin(id, username, room)], which passes no
    role on. *)
Definition userJoin (r : UserRepository.Registry) (id username room : string)
  : Result UserRepository.UserJoinResult * UserRepository.Registry :=
  UserRepository.userJoin r id username room None.

Definition isRole (a b : UserRepository.Role) : bool :=
  match a, b with
  | UserRepository.role_admin, UserRepository.role_admin
  | UserRepository.role_moderator, UserRepository.role_moderator
  | UserRepository.role_user, UserRepository.role_user => true
  | _, _ => false
  end.

(** [handleMuteCommand(socket, args, user)]: admins and moderators only.
    [args[0]] is the target; with no argument the call on the registry
    throws a [TypeError] at [username.toLowerCase()].  (Logging is left
    out.) *)
Definition handleMuteCommand (r : UserRepository.Registry) (args : list string)
  (user : UserRepository.User) (time : string)
  : Result (list Emit) * UserRepository.Registry :=
  if negb (isRole (UserRepository.role user) UserRepository.role_admin) &&
     negb (isRole (UserRepository.role user) UserRepository.role_moderator)
  then (Ok [socketEmit "error" "You don't have permission to mute users"], r)
  else
    match head args with
    | None => (Throw "TypeError", r)
    | Some targetUsername =>
      let '(success, r') := UserRepository.muteUser r targetUsername in
      if negb success
      then (Ok [socketEmit "error" ("User " +:+ targetUsername +:+ " not found")], r')
      else (Ok [roomEmit (UserRepository.room user) "message"
                         (formatMessage BOT_NAME (targetUsername +:+ " has been muted") time)],
            r')
    end.

(** [handleBanCommand(socket, args, user)]: admins only. *)
Definition handleBanCommand (r : UserRepository.Registry) (args : list string)
  (user : UserRepository.User) (time : string)
  : Result (list Emit) * UserRepository.Registry :=
  if negb (isRole (UserRepository.role user) UserRepository.role_admin)
  then (Ok [socketEmit "error" "You don't have permission to ban users"], r)
  else
    match head args with
    | None => (Throw "TypeError", r)
    | Some targetUsername =>
      let '(success, r') := UserRepository.banUser r targetUsername in
      if negb success
      then (Ok [socketEmit "error" ("User " +:+ targetUsername +:+ " not found")], r')
      else (Ok [roomEmit (UserRepository.room user) "message"
                         (formatMessage BOT_NAME (targetUsername +:+ " has been banned") time)],
            r')
    end.

(** The registries that the socket handlers can produce: [joinRoom] calls
    the wrapper [userJoin], [disconnect] calls [userLeave], and
    [chatMessage] hands the stored user of the connection to the command
    handlers.  (The handlers make these calls under further conditions,
    which are not needed here.) *)
Inductive served : UserRepository.Registry → Prop :=
| served_new : served UserRepository.newRegistry
| served_joinRoom r id username room :
    served r → served (userJoin r id username room).2
| served_disconnect r id :
    served r → served (UserRepository.userLeave r id).2
| served_mute r id user args time :
    served r → UserRepository.getCurrentUser r id = Some user →
    served (handleMuteCommand r args user time).2
| served_ban r id user args time :
    served r → UserRepository.getCurrentUser r id = Some user →
    served (handleBanCommand r args user time).2.

End Server.

(** ** Scenarios used by the statements below *)
Module Scenarios.
Import MessageRepository.

(** An [addMessage] in room1 at clock [k]; the message gets the id [k-x]. *)
Definition add (k : Z) (username text : string) (parentId : option string) : Op :=
  OpAdd username text "room1" parentId (mkAddEnv k k "x" "1:00 pm").

Definition idOf (k : Z) : string := generateId k "x".

(** The thread of the test "should efficiently search without revisiting
    nodes": a root, five replies to it, three replies to each of those. *)
Definition searchThread : list Op :=
  add 1 "user1" "Root" None ::
  flat_map (fun i : Z =>
              add (10 * (i + 1)) ("user" +:+ pretty i) ("Reply " +:+ pretty i) (Some (idOf 1)) ::
              List.map (fun j : Z =>
                          add (10 * (i + 1) + j + 1) ("user" +:+ pretty i +:+ "-" +:+ pretty j)
                              ("Nested " +:+ pretty j) (Some (idOf (10 * (i + 1)))))
                       [0; 1; 2])
           [0; 1; 2; 3; 4].

(** Root, a reply, a reply to the reply; the innermost is then deleted by
    its author. *)
Definition nestedDeleted : list Op :=
  [add 1 "alice" "Root" None;
   add 2 "bob" "Reply" (Some (idOf 1));
   add 3 "carol" "Nested" (Some (idOf 2));
   OpDelete (idOf 3) "carol"].

(** Root and one reply, which its author deletes. *)
Definition onlyReplyDeleted : list Op :=
  [add 1 "alice" "Root" None;
   add 2 "bob" "Reply" (Some (idOf 1));
   OpDelete (idOf 2) "bob"].

(** One message, deleted by its author. *)
Definition deletedMessage : list Op :=
  [add 1 "alice" "Hello" None;
   OpDelete (idOf 1) "alice"].

(** A message and two edits of it by its author. *)
Definition oneMessage : list Op := [add 1 "alice" "Version 1" None].

Definition twoEdits : list (string * EditEnv) :=
  [("Version 2", mkEditEnv "1:01 pm" 11); ("Version 3", mkEditEnv "1:02 pm" 21)].

(** The same message and edits as a sequence of calls. *)
Definition editedTwice : list Op :=
  oneMessage ++
  [OpEdit (idOf 1) "Version 2" "alice" (mkEditEnv "1:01 pm" 11);
   OpEdit (idOf 1) "Version 3" "alice" (mkEditEnv "1:02 pm" 21)].

(** A root and one reply to it. *)
Definition rootOnly : list Op := [add 1 "alice" "Root" None].
Definition rootAndReply : list Op := rootOnly ++ [add 2 "bob" "Reply" (Some (idOf 1))].

(** The repository after a sequence of calls on a new one. *)
Definition after (ops : list Op) : Repo := default newRepo (run newRepo ops).

(** The texts of the messages that a list of references points to. *)
Definition texts (s : Repo) (ls : list loc) : list string :=
  omap (fun l => text <$> heap s !! l) ls.

(** Host built-ins that answer nothing, for evaluating rules that do not
    reach them. *)
Definition noRegExp (pattern subject : string) : option bool := None.
Definition noNumber (s : string) : option ModerationDSL.number := None.
Definition noString (n : ModerationDSL.number) : string := EmptyString.

End Scenarios.

(** * Properties *)

(** ** Command parser *)
Section CommandParserFacts.
Import CommandParser.

(** C7: [parse] of [/edit 123 "multi word text"] is an [edit] command with
    the arguments [123] and [multi word text]; [parse] of the empty string
    and of [/] are [unknown] commands without arguments; [parse(null)]
    throws instead of returning a value. *)
Theorem parse_examples :
  parse (Some ("/edit 123 " +:+ JS.quoted "multi word text"))
  = Some (Ok (mkParsed edit ["123"; "multi word text"]
                       ("/edit 123 " +:+ JS.quoted "multi word text")))
  ∧ parse (Some EmptyString) = Some (Ok (mkParsed unknown [] EmptyString))
  ∧ parse (Some "/") = Some (Ok (mkParsed unknown [] "/"))
  ∧ parse None = Some (Throw "Precondition violated: input cannot be null or undefined").
Proof. repeat split; vm_compute; reflexivity. Qed.

(** *** The tokenizer always returns *)

Lemma get_Some_lt s : ∀ i c, String.get i s = Some c → (i < String.length s)%nat.
Proof.
  induction s as [|a s IH]; intros [|i] c; simpl; try discriminate; [lia|].
  intros H. apply IH in H. lia.
Qed.

Lemma scan_index p input fuel : ∀ i acc, (i ≤ (scan p input fuel i acc).2)%nat.
Proof.
  induction fuel as [|fuel IH]; intros i acc; simpl; [lia|].
  destruct (String.get i input) as [c|]; simpl; [|lia].
  destruct (p c); simpl; [|lia].
  specialize (IH (S i) (acc +:+ String c EmptyString)). lia.
Qed.

(** A scan that starts on a character it accepts moves on. *)
Lemma scanFrom_step p input i c :
  String.get i input = Some c → p c = true → (S i ≤ (scanFrom p input i).2)%nat.
Proof.
  intros Hget Hp. unfold scanFrom.
  pose proof (get_Some_lt _ _ _ Hget) as Hlt.
  destruct (String.length input) as [|n]; [lia|].
  simpl. rewrite Hget, Hp. apply scan_index.
Qed.

Lemma scanFrom_index p input i : (i ≤ (scanFrom p input i).2)%nat.
Proof. apply scan_index. Qed.

Lemma tokenizeLoop_total input fuel :
  ∀ i tokens, (String.length input ≤ i + fuel)%nat →
              is_Some (tokenizeLoop input fuel i tokens).
Proof.
  induction fuel as [|fuel IH]; intros i tokens Hlen.
  - simpl. destruct (String.get i input) as [c|] eqn:Hget; [|eauto].
    apply get_Some_lt in Hget. lia.
  - simpl. destruct (String.get i input) as [char|] eqn:Hget; [|eauto].
    destruct (isBlank char) eqn:Hblank; [apply IH; lia|].
    destruct (Ascii.eqb char "/" && Nat.eqb i 0).
    { pose proof (scanFrom_index (fun c => negb (isBlank c)) input (S i)).
      destruct (scanFrom _ input (S i)) as [command j]. apply IH. simpl in *. lia. }
    destruct (Ascii.eqb char JS.dquote || Ascii.eqb char "'").
    { pose proof (scanFrom_index (fun c => negb (Ascii.eqb c char)) input (S i)).
      destruct (scanFrom _ input (S i)) as [str j]. apply IH. simpl in *. lia. }
    destruct (isDigit char) eqn:Hdigit.
    { pose proof (scanFrom_step isDigit input i char Hget Hdigit).
      destruct (scanFrom isDigit input i) as [num j]. apply IH. simpl in *. lia. }
    assert (Hstep : (S i ≤ (scanFrom (fun c => negb (isBlank c)) input i).2)%nat).
    { eapply scanFrom_step; [exact Hget|]. by rewrite Hblank. }
    destruct (scanFrom _ input i) as [arg j]. apply IH. simpl in *. lia.
Qed.

Lemma tokenize_total input : is_Some (tokenize input).
Proof.
  unfold tokenize.
  destruct (tokenizeLoop_total input (String.length input) 0 []) as [tokens ->]; [lia|].
  eauto.
Qed.

(** X2: [parse] returns or throws on every argument: every iteration of
    the tokenizer consumes a character, so the fuel is enough. *)
Lemma parse_total input : is_Some (parse input).
Proof.
  destruct input as [input|]; simpl; [|eauto].
  destruct (checkRep _ _ _); [eauto|].
  destruct (negb _); [eauto|].
  destruct (tokenize_total (JS.trim input)) as [tokens ->].
  destruct (_ || _); eauto.
Qed.

End CommandParserFacts.

(** ** Message store *)
Section MessageRepositoryFacts.
Import MessageRepository.

(** *** Records and the lock *)

Lemma releaseLock_free s : lock s = false → releaseLock s = s.
Proof. destruct s as [h ms rs lk]; simpl; intros ->; reflexivity. Qed.

Lemma truthy_nonempty x : JS.truthy x = true ↔ x ≠ EmptyString.
Proof. destruct x; simpl; split; congruence. Qed.

Lemma finish_inv {A} s (a : A) r s' :
  finish s a = Some (r, s') →
  s' = releaseLock s ∧ (r = Ok a ∧ checkRep s = None ∨ ∃ msg, r = Throw msg).
Proof.
  unfold finish. destruct (checkRep s) as [msg|]; intros [= <- <-]; eauto.
Qed.

Lemma lookupMsg_Some s i l m :
  lookupMsg s i = Some (l, m) ↔ messages s !! i = Some l ∧ heap s !! l = Some m.
Proof.
  unfold lookupMsg. split.
  - destruct (messages s !! i) as [l'|]; [|discriminate].
    destruct (heap s !! l') as [m'|] eqn:E; [|discriminate].
    intros [= <- <-]. auto.
  - intros [-> ->]. reflexivity.
Qed.

Lemma generateId_nonempty k random : generateId k random ≠ EmptyString.
Proof.
  unfold generateId. destruct (pretty k) as [|c p]; cbv [append]; discriminate.
Qed.

(** An exit before any assignment: outcome and repository are those of the
    hypothesis, and the goal is about the repository as it was. *)
Ltac unchanged := intros [= <- <-]; done.

(** *** Objects keep their identity *)

Lemma frame_refl h : frame h h.
Proof.
  split; [reflexivity|]. intros l m' H. exists m'. split; [done|]. by destruct m'.
Qed.

Lemma frame_trans h1 h2 h3 : frame h1 h2 → frame h2 h3 → frame h1 h3.
Proof.
  intros [L1 F1] [L2 F2]. split; [congruence|].
  intros l m3 H3. destruct (F2 _ _ H3) as (m2 & H2 & E3).
  destruct (F1 _ _ H2) as (m1 & H1 & E2). exists m1. split; [done|].
  rewrite E3, E2. reflexivity.
Qed.

Lemma frame_alter h l rs : frame h (alter (setReplies rs) l h).
Proof.
  split; [apply length_alter|]. intros j m' H.
  destruct (decide (l = j)) as [->|Hne].
  - rewrite list_lookup_alter_eq in H. destruct (h !! j) as [m|]; [|discriminate].
    injection H as <-. exists m. done.
  - rewrite list_lookup_alter_ne in H by done. exists m'. split; [done|]. by destruct m'.
Qed.

Lemma foldlM_frame {B} (f : list Message → B → option (list Message)) ls :
  (∀ h b h', f h b = Some h' → frame h h') →
  ∀ h h', foldlM f h ls = Some h' → frame h h'.
Proof.
  intros Hf. induction ls as [|b ls IH]; simpl; intros h h'.
  - intros [= <-]. apply frame_refl.
  - destruct (f h b) as [h1|] eqn:E; [|discriminate]. intros H.
    eapply frame_trans; [eapply Hf, E | eapply IH, H].
Qed.

Lemma populateReplies_frame fuel :
  ∀ h l h', populateReplies fuel h l = Some h' → frame h h'.
Proof.
  induction fuel as [|fuel IH]; simpl; intros h l h'; [discriminate|].
  destruct (h !! l) as [msg|]; [|discriminate].
  destruct (replies msg) as [|r rs]; [intros [= <-]; apply frame_refl|].
  set (kept := List.filter _ _).
  destruct (foldlM (populateReplies fuel) h kept) as [h1|] eqn:E; [|discriminate].
  intros [= <-]. eapply frame_trans; [|apply frame_alter].
  eapply foldlM_frame; [|exact E]. intros; eapply IH; eauto.
Qed.

Lemma frame_entry h h' l m' :
  frame h h' → h' !! l = Some m' →
  ∃ m, h !! l = Some m ∧ id m' = id m ∧ room m' = room m ∧ deleted m' = deleted m.
Proof.
  intros [_ F] H. destruct (F _ _ H) as (m & Hm & E). exists m.
  rewrite E. auto.
Qed.

(** *** Well-formedness is an invariant *)

Lemma wf_new : wf newRepo.
Proof. split; [reflexivity|]. intros i l H. simpl in H. by rewrite lookup_empty in H. Qed.

Lemma setAdd_elem x y set : x ∈ setAdd y set ↔ x = y ∨ x ∈ set.
Proof.
  unfold setAdd. case_bool_decide as Hin.
  - split; [auto|]. intros [->|]; auto.
  - rewrite elem_of_app, list_elem_of_singleton. tauto.
Qed.

(** After any change of the heap that keeps ids and rooms, and any growth
    of the room index, the entries of an unchanged index stay well formed. *)
Lemma wf_heap_update s h' rs' :
  wf s →
  (∀ l m, heap s !! l = Some m →
     ∃ m', h' !! l = Some m' ∧ id m' = id m ∧ room m' = room m) →
  (∀ r i, i ∈ default [] (messagesByRoom s !! r) → i ∈ default [] (rs' !! r)) →
  wf (mkRepo h' (messages s) rs' false).
Proof.
  intros [_ W] Hh Hr. split; [reflexivity|]. simpl. intros i l Hi.
  destruct (W _ _ Hi) as (m & Hm & Hid & Hne & Hin).
  destruct (Hh _ _ Hm) as (m' & Hm' & Hid' & Hroom').
  exists m'. rewrite Hroom'. repeat split; auto; congruence.
Qed.

Lemma insert_keeps (h : list Message) l m0 m1 :
  h !! l = Some m0 → id m1 = id m0 → room m1 = room m0 →
  ∀ j m, h !! j = Some m →
    ∃ m', <[l := m1]> h !! j = Some m' ∧ id m' = id m ∧ room m' = room m.
Proof.
  intros H0 Hid Hroom j m Hj. destruct (decide (l = j)) as [->|Hne].
  - exists m1. rewrite list_lookup_insert_eq by (eapply lookup_lt_Some, H0).
    split; [done|]. split; congruence.
  - exists m. by rewrite list_lookup_insert_ne.
Qed.

Lemma wf_edit s i t u e r s' : wf s → editMessage s i t u e = Some (r, s') → wf s'.
Proof.
  intros W. unfold editMessage.
  destruct (negb (JS.truthy i)); [unchanged|].
  destruct (negb (JS.truthy t)); [unchanged|].
  destruct W as [Hl W]. rewrite Hl.
  assert (Hfree : wf (releaseLock s)) by (rewrite releaseLock_free by done; by split).
  destruct (lookupMsg s i) as [[l m]|] eqn:E; [|intros [= <- <-]; done].
  destruct (deleted m); [unchanged|].
  destruct (negb _); [unchanged|].
  intros H. apply finish_inv in H as [-> _]. unfold releaseLock. simpl.
  apply lookupMsg_Some in E as [_ Hm].
  apply (wf_heap_update s); [by split| |auto].
  apply (insert_keeps _ _ m); done.
Qed.

Lemma wf_delete s i u r s' : wf s → deleteMessage s i u = Some (r, s') → wf s'.
Proof.
  intros W. unfold deleteMessage.
  destruct (negb (JS.truthy i)); [unchanged|].
  destruct W as [Hl W]. rewrite Hl.
  assert (Hfree : wf (releaseLock s)) by (rewrite releaseLock_free by done; by split).
  destruct (lookupMsg s i) as [[l m]|] eqn:E; [|intros [= <- <-]; done].
  destruct (negb _); [unchanged|].
  intros H. apply finish_inv in H as [-> _]. unfold releaseLock. simpl.
  apply lookupMsg_Some in E as [_ Hm].
  apply (wf_heap_update s); [by split| |auto].
  apply (insert_keeps _ _ m); done.
Qed.

Lemma wf_thread s i r s' : wf s → getMessageThread s i = Some (r, s') → wf s'.
Proof.
  intros W. unfold getMessageThread.
  destruct (lookupMsg s i) as [[l m]|]; [|intros [= <- <-]; done].
  destruct (populateReplies _ _ _) as [h2|] eqn:E; [|discriminate].
  intros [= <- <-]. pose proof W as [Hl _]. rewrite Hl.
  apply populateReplies_frame in E as [Hlen F].
  apply (wf_heap_update s); [done| |auto].
  intros j mj Hj.
  assert (Hlt : (j < length h2)%nat).
  { rewrite Hlen, length_app. apply lookup_lt_Some in Hj. lia. }
  apply lookup_lt_is_Some in Hlt as [m' Hm']. exists m'. split; [done|].
  destruct (F _ _ Hm') as (m0 & H0 & ->).
  rewrite lookup_app_l in H0 by (eapply lookup_lt_Some, Hj).
  assert (m0 = mj) by congruence. subst. done.
Qed.

Lemma alter_keeps (h : list Message) l rs :
  ∀ j m, h !! j = Some m →
    ∃ m', alter (setReplies rs) l h !! j = Some m' ∧ id m' = id m ∧ room m' = room m.
Proof.
  intros j m Hj. destruct (decide (l = j)) as [->|Hne].
  - rewrite list_lookup_alter_eq, Hj. simpl. eauto.
  - rewrite list_lookup_alter_ne by done. eauto.
Qed.

Lemma alter_pushReply_keeps (h : list Message) l lp :
  ∀ j m, h !! j = Some m →
    ∃ m', alter (pushReply l) lp h !! j = Some m' ∧ id m' = id m ∧ room m' = room m.
Proof.
  intros j m Hj. destruct (decide (lp = j)) as [->|Hne].
  - rewrite list_lookup_alter_eq, Hj. simpl. eauto.
  - rewrite list_lookup_alter_ne by done. eauto.
Qed.

Lemma addMessage_inv s u t rm p e r s' :
  addMessage s u t rm p e = Some (r, s') →
  (s' = s ∧ ∃ msg, r = Throw msg) ∨
  (lock s = false ∧ u ≠ EmptyString ∧ t ≠ EmptyString ∧ rm ≠ EmptyString ∧
   (JS.truthyOpt p = true → has s (default EmptyString p) = true) ∧
   finish (added s u t rm p e) (length (heap s)) = Some (r, s')).
Proof.
  unfold addMessage.
  destruct (JS.truthy u) eqn:Eu; simpl; [|intros [= <- <-]; eauto].
  destruct (JS.truthy t) eqn:Et; simpl; [|intros [= <- <-]; eauto].
  destruct (JS.truthy rm) eqn:Er; simpl; [|intros [= <- <-]; eauto].
  destruct (JS.truthyOpt p && negb (has s (default "" p))) eqn:Ep; [intros [= <- <-]; eauto|].
  destruct (lock s) eqn:El; [discriminate|].
  intros H. right. rewrite <- !truthy_nonempty. repeat split; auto.
  intros Hp. rewrite Hp in Ep. simpl in Ep. by apply negb_false_iff in Ep.
Qed.

Lemma wf_added s u t rm p e : wf s → wf (releaseLock (added s u t rm p e)).
Proof.
  intros [_ W]. split; [reflexivity|]. unfold releaseLock, added. simpl.
  set (newId := generateId (add_idNow e) (add_idRandom e)).
  set (message := mkMessage newId u t (add_time e) (add_now e) rm false [] false p []).
  set (heap1 := heap s ++ [message]).
  set (heap2 := if JS.truthyOpt p then _ else _).
  assert (Hkeep : ∀ j m, heap1 !! j = Some m →
            ∃ m', heap2 !! j = Some m' ∧ id m' = id m ∧ room m' = room m).
  { subst heap2. destruct (JS.truthyOpt p); [|eauto].
    destruct (_ !! default "" p); [apply alter_pushReply_keeps|eauto]. }
  intros i l. rewrite lookup_insert. case_decide as Hi.
  - intros [= <-]. subst i.
    destruct (Hkeep (length (heap s)) message) as (m' & Hm' & Hid & Hroom).
    { subst heap1. apply lookup_snoc_Some. auto. }
    exists m'. rewrite Hroom. simpl. rewrite lookup_insert_eq. simpl.
    split; [done|]. split; [done|]. split; [apply generateId_nonempty|].
    apply setAdd_elem. auto.
  - intros Hl. destruct (W _ _ Hl) as (m & Hm & Hid & Hne & Hin).
    destruct (Hkeep l m) as (m' & Hm' & Hid' & Hroom').
    { subst heap1. rewrite lookup_app_l by (eapply lookup_lt_Some, Hm). done. }
    exists m'. rewrite Hroom'. split; [done|]. split; [congruence|]. split; [done|].
    rewrite lookup_insert. case_decide as Hr; [|done].
    subst rm. simpl. apply setAdd_elem. auto.
Qed.

Lemma wf_add s u t rm p e r s' : wf s → addMessage s u t rm p e = Some (r, s') → wf s'.
Proof.
  intros W H. apply addMessage_inv in H as [[-> _]|(_ & _ & _ & _ & _ & H)]; [done|].
  apply finish_inv in H as [-> _]. by apply wf_added.
Qed.

Lemma wf_clear s : wf s → wf (clear s).
Proof.
  intros [Hl _]. split; [done|]. intros i l H. simpl in H. by rewrite lookup_empty in H.
Qed.

Lemma wf_step s o s' : wf s → step s o = Some s' → wf s'.
Proof.
  intros W. destruct o; simpl.
  - destruct (addMessage _ _ _ _ _ _) as [[r s1]|] eqn:E; [|discriminate].
    intros [= <-]. eapply wf_add; eauto.
  - destruct (editMessage _ _ _ _ _) as [[r s1]|] eqn:E; [|discriminate].
    intros [= <-]. eapply wf_edit; eauto.
  - destruct (deleteMessage _ _ _) as [[r s1]|] eqn:E; [|discriminate].
    intros [= <-]. eapply wf_delete; eauto.
  - destruct (getMessageThread _ _) as [[r s1]|] eqn:E; [|discriminate].
    intros [= <-]. eapply wf_thread; eauto.
  - intros [= <-]. by apply wf_clear.
Qed.

Lemma reachable_wf s : reachable s → wf s.
Proof. induction 1; eauto using wf_new, wf_step. Qed.

Lemma run_reachable ops : ∀ s s', reachable s → run s ops = Some s' → reachable s'.
Proof.
  unfold run. induction ops as [|o ops IH]; simpl; intros s s' R.
  - intros [= <-]. done.
  - destruct (step s o) as [s1|] eqn:E; [|discriminate].
    apply IH. eapply reachable_step; eauto.
Qed.

(** *** The room listing *)

Lemma elem_of_insertBy key x y l : y ∈ insertBy key x l ↔ y = x ∨ y ∈ l.
Proof.
  induction l as [|z l IH]; simpl.
  - rewrite list_elem_of_singleton, elem_of_nil. tauto.
  - destruct (key x <=? key z); rewrite !elem_of_cons; [tauto|].
    rewrite IH. tauto.
Qed.

Lemma elem_of_sortBy key y l : y ∈ sortBy key l ↔ y ∈ l.
Proof.
  unfold sortBy. induction l as [|x l IH]; simpl; [done|].
  rewrite elem_of_insertBy, IH, elem_of_cons. done.
Qed.

Lemma getMessagesForRoom_elem s rm l :
  l ∈ getMessagesForRoom s rm ↔
  ∃ ids i m, messagesByRoom s !! rm = Some ids ∧ i ∈ ids ∧
             lookupMsg s i = Some (l, m) ∧ deleted m = false.
Proof.
  unfold getMessagesForRoom. destruct (messagesByRoom s !! rm) as [ids|].
  - rewrite elem_of_sortBy, list_elem_of_omap. split.
    + intros (i & Hi & H). destruct (lookupMsg s i) as [[l' m]|] eqn:E; [|discriminate].
      destruct (deleted m) eqn:D; [discriminate|]. injection H as H; subst l'. eauto 10.
    + intros (ids' & i & m & [= <-] & Hi & E & D). exists i. by rewrite E, D.
  - split; [by rewrite elem_of_nil|]. intros (? & ? & ? & ? & _). discriminate.
Qed.

Lemma listed_when_wf s i l m :
  wf s → lookupMsg s i = Some (l, m) → deleted m = false →
  l ∈ getMessagesForRoom s (room m).
Proof.
  intros [_ W] E D. apply getMessagesForRoom_elem.
  pose proof E as [Hi Hm]%lookupMsg_Some.
  destruct (W _ _ Hi) as (m0 & Hm0 & _ & _ & Hin).
  assert (m0 = m) by congruence. subst m0.
  destruct (messagesByRoom s !! room m) as [ids|] eqn:R; simpl in Hin.
  - eauto 10.
  - by apply elem_of_nil in Hin.
Qed.

(** What a successful reply leaves in the repository. *)
Lemma added_reply s u t rm pid e :
  wf s → pid ≠ EmptyString → has s pid = true →
  let s' := releaseLock (added s u t rm (Some pid) e) in
  let l := length (heap s) in
  (∃ reply, lookupMsg s' (generateId (add_idNow e) (add_idRandom e)) = Some (l, reply) ∧
            deleted reply = false ∧ room reply = rm ∧ parentId reply = Some pid) ∧
  (∃ lp parent, lookupMsg s' pid = Some (lp, parent) ∧ l ∈ replies parent).
Proof.
  intros [_ W] Hpid Hhas. simpl.
  set (newId := generateId (add_idNow e) (add_idRandom e)).
  set (message := mkMessage newId u t (add_time e) (add_now e) rm false [] false (Some pid) []).
  set (l := length (heap s)).
  apply truthy_nonempty in Hpid. unfold lookupMsg, added, releaseLock. simpl. rewrite Hpid.
  fold newId message l.
  apply bool_decide_eq_true in Hhas as [lp0 Hlp0].
  destruct (W _ _ Hlp0) as (mp & Hmp & _).
  assert (Hnew : (heap s ++ [message]) !! l = Some message).
  { apply lookup_snoc_Some. auto. }
  assert (Hold : (heap s ++ [message]) !! lp0 = Some mp).
  { rewrite lookup_app_l by (eapply lookup_lt_Some, Hmp). done. }
  assert (Hne : lp0 ≠ l).
  { apply lookup_lt_Some in Hmp. unfold l. lia. }
  rewrite !lookup_insert_eq. rewrite (lookup_insert _ newId pid).
  case_decide as Hc.
  - (* the generated id is the parent's id: the reply is its own parent *)
    rewrite list_lookup_alter_eq, Hnew. simpl. split.
    + eexists. split; [reflexivity|]. done.
    + exists l. eexists. split; [reflexivity|]. simpl. set_solver.
  - rewrite Hlp0. rewrite list_lookup_alter_ne by done. rewrite Hnew.
    rewrite list_lookup_alter_eq, Hold. simpl. split.
    + eexists. split; [reflexivity|]. done.
    + exists lp0. eexists. split; [reflexivity|]. simpl. set_solver.
Qed.

(** C10: in every repository that calls can produce, the listing of a
    room holds every message of the index that is not deleted, replies
    included, and only messages that are not deleted; a reply added with
    [addMessage(author, text, room, parentId)] is afterwards both in the
    reply list of its parent and an element of the listing of the room. *)
Theorem getMessagesForRoom_lists_replies s :
  reachable s →
  (∀ i l m, lookupMsg s i = Some (l, m) → deleted m = false →
            l ∈ getMessagesForRoom s (room m)) ∧
  (∀ rm l, l ∈ getMessagesForRoom s rm →
           ∃ i m, lookupMsg s i = Some (l, m) ∧ deleted m = false) ∧
  (∀ author text rm pid e l s',
     pid ≠ EmptyString →
     addMessage s author text rm (Some pid) e = Some (Ok l, s') →
     l ∈ getMessagesForRoom s' rm ∧
     (∃ reply, heap s' !! l = Some reply ∧ parentId reply = Some pid ∧ room reply = rm) ∧
     (∃ lp parent, lookupMsg s' pid = Some (lp, parent) ∧ l ∈ replies parent)).
Proof.
  intros R. pose proof (reachable_wf s R) as W. split; [|split].
  - intros i l m. by apply listed_when_wf.
  - intros rm l (ids & i & m & _ & _ & E & D)%getMessagesForRoom_elem. eauto.
  - intros author text rm pid e l s' Hpid H.
    apply addMessage_inv in H as [[_ [msg [=]]]|(_ & _ & _ & _ & Hhas & H)].
    apply finish_inv in H as [-> [[[= ->] _]|[msg [=]]]].
    specialize (Hhas (proj2 (truthy_nonempty pid) Hpid)). simpl in Hhas.
    destruct (added_reply s author text rm pid e W Hpid Hhas)
      as [(reply & E & D & Hrm & Hp) Hparent].
    split; [|split; [|exact Hparent]].
    + pose proof (listed_when_wf _ _ _ _ (wf_added s author text rm (Some pid) e W) E D) as HL.
      by rewrite Hrm in HL.
    + apply lookupMsg_Some in E as [_ E]. eauto.
Qed.

(** *** Refused and accepted mutations *)

Lemma eqb_username_neq (a b : string) : b ≠ a → negb (String.eqb a b) = true.
Proof. intros H. apply negb_true_iff, String.eqb_neq. congruence. Qed.

(** C4, as amended: in every repository that calls can produce, for a
    stored message and a requester who is not its author, [deleteMessage]
    returns false; [editMessage] returns null when the message is not
    deleted and the new text is not empty, and throws a precondition error
    when the message is deleted or the new text is empty; in each case the
    repository, and with it the text, flags and history of the message, is
    what it was before the call. *)
Theorem non_author_refused s i l m u :
  reachable s → lookupMsg s i = Some (l, m) → u ≠ username m →
  deleteMessage s i u = Some (Ok false, s) ∧
  (∀ newText e, newText ≠ EmptyString → deleted m = false →
     editMessage s i newText u e = Some (Ok None, s)) ∧
  (∀ newText e, newText ≠ EmptyString → deleted m = true →
     editMessage s i newText u e
     = Some (Throw "Precondition violated: cannot edit deleted message", s)) ∧
  (∀ e, editMessage s i EmptyString u e
        = Some (Throw "Precondition violated: newText must be non-empty", s)).
Proof.
  intros R E Hu. destruct (reachable_wf s R) as [Hl W].
  pose proof E as [Hi _]%lookupMsg_Some.
  destruct (W _ _ Hi) as (_ & _ & _ & Hne & _).
  apply truthy_nonempty in Hne.
  pose proof (eqb_username_neq _ _ Hu) as Hneq.
  unfold deleteMessage, editMessage. rewrite Hne, Hl, E, Hneq. simpl.
  rewrite (releaseLock_free s Hl). split; [reflexivity|]. split; [|split].
  - intros newText e Ht ->. apply truthy_nonempty in Ht. by rewrite Ht.
  - intros newText e Ht ->. apply truthy_nonempty in Ht. by rewrite Ht.
  - reflexivity.
Qed.

Lemma deleteMessage_success s i u s' :
  deleteMessage s i u = Some (Ok true, s') →
  ∃ l m, lookupMsg s i = Some (l, m) ∧ username m = u ∧ i ≠ EmptyString ∧
         s' = mkRepo (<[l := applyDelete m]> (heap s)) (messages s) (messagesByRoom s) false.
Proof.
  unfold deleteMessage. destruct (JS.truthy i) eqn:Ei; simpl; [|discriminate].
  destruct (lock s); [discriminate|].
  destruct (lookupMsg s i) as [[l m]|]; [|discriminate].
  destruct (String.eqb (username m) u) eqn:Eu; simpl; [|discriminate].
  intros [-> _]%finish_inv. apply String.eqb_eq in Eu. apply truthy_nonempty in Ei.
  exists l, m. done.
Qed.

(** C5: after a [deleteMessage] that returned true, [getMessage] still
    finds the record, whose [deleted] flag is set and whose text is the
    placeholder; no record that was in the index has left it; and a
    following [deleteMessage] by anyone but the author returns false and
    leaves the repository, hence the flag, as it is. *)
Theorem deleteMessage_soft_delete s i u s' :
  deleteMessage s i u = Some (Ok true, s') →
  (∃ m', getMessage s' i = Some m' ∧ username m' = u ∧
         deleted m' = true ∧ text m' = "[Message deleted]") ∧
  (∀ j, is_Some (getMessage s j) → is_Some (getMessage s' j)) ∧
  (∀ u', u' ≠ u → deleteMessage s' i u' = Some (Ok false, s')).
Proof.
  intros (l & m & E & Hu & Hi & ->)%deleteMessage_success.
  pose proof E as [Hl Hm]%lookupMsg_Some.
  assert (Hlt : (l < length (heap s))%nat) by (eapply lookup_lt_Some, Hm).
  set (s' := mkRepo _ _ _ _).
  assert (E' : lookupMsg s' i = Some (l, applyDelete m)).
  { apply lookupMsg_Some. split; [done|]. by apply list_lookup_insert_eq. }
  split; [|split].
  - exists (applyDelete m). unfold getMessage. rewrite E'. done.
  - intros j [mj Hj]. unfold getMessage in *.
    destruct (lookupMsg s j) as [[lj mj']|] eqn:Ej; [|discriminate].
    apply lookupMsg_Some in Ej as [Hlj Hmj]. unfold lookupMsg. simpl. rewrite Hlj.
    destruct (decide (l = lj)) as [<-|Hne].
    + rewrite list_lookup_insert_eq by done. eauto.
    + rewrite list_lookup_insert_ne by done. rewrite Hmj. eauto.
  - intros u' Hu'. unfold deleteMessage.
    apply truthy_nonempty in Hi. rewrite Hi, E'. simpl.
    rewrite eqb_username_neq by (simpl; congruence). done.
Qed.

(** *** Edit history *)

Lemma ordered_snoc l a b : ordered (l ++ [a]) → a ≤ b → ordered (l ++ [a; b]).
Proof.
  induction l as [|x l IH]; simpl; [tauto|].
  destruct l as [|y l]; simpl in *; intros [H1 H2] H; [tauto|].
  split; [done|]. by apply IH.
Qed.

Lemma ordered_prefix l k : ordered (l ++ k) → ordered l.
Proof.
  induction l as [|x l IH]; simpl; [done|].
  destruct l as [|y l]; simpl in *; [done|]. intros [H1 H2].
  split; [done|]. by apply IH.
Qed.

Lemma ordered_tail x l : ordered (x :: l) → ordered l.
Proof. destruct l; simpl; tauto. Qed.

Lemma nondecreasing_ordered l : nondecreasing l ↔ ordered l.
Proof.
  unfold nondecreasing. induction l as [|x l IH]; [by split|].
  destruct l as [|y l].
  - split; [done|]. intros _ [|i] a b; discriminate.
  - split.
    + intros H. split; [by apply (H 0%nat)|].
      apply IH. intros i. apply (H (S i)).
    + intros [Hxy Ho] [|i] a b.
      * by intros [= <-] [= <-].
      * apply (proj2 IH Ho i).
Qed.

Lemma historyOrdered_ordered h :
  historyOrdered h = true ↔ ordered (edit_timestamp <$> h).
Proof.
  induction h as [|a h IH]; [by split|].
  destruct h as [|b h]; [by split|].
  change (negb (edit_timestamp b <? edit_timestamp a) && historyOrdered (b :: h) = true
          ↔ edit_timestamp a ≤ edit_timestamp b ∧ ordered (edit_timestamp <$> b :: h)).
  rewrite andb_true_iff, negb_true_iff, Z.ltb_ge, IH. done.
Qed.

Lemma editMessage_success s i t u e l' s' :
  editMessage s i t u e = Some (Ok (Some l'), s') →
  ∃ m, lookupMsg s i = Some (l', m) ∧ username m = u ∧ deleted m = false ∧
       lookupMsg s' i = Some (l', applyEdit t (edit_newTime e) (edit_now e) m).
Proof.
  unfold editMessage. destruct (negb (JS.truthy i)); [discriminate|].
  destruct (negb (JS.truthy t)); [discriminate|].
  destruct (lock s); [discriminate|].
  destruct (lookupMsg s i) as [[l m]|] eqn:E; [|discriminate].
  destruct (deleted m) eqn:D; [discriminate|].
  destruct (String.eqb (username m) u) eqn:Eu; simpl; [|discriminate].
  intros [-> [[[= <-] _]|[msg [=]]]]%finish_inv.
  apply String.eqb_eq in Eu. exists m. repeat split; auto.
  apply lookupMsg_Some in E as [Hl Hm]. apply lookupMsg_Some. simpl. split; [done|].
  apply list_lookup_insert_eq. eapply lookup_lt_Some, Hm.
Qed.

(** C6: for a message whose timestamps so far are non-decreasing, and a
    sequence of edits that all return the message while the clock they
    read does not run backwards, the edit history afterwards is the one
    before followed by the state (text, timestamp, time) that each edit
    replaced; the message is marked edited and carries the last new text;
    and the timestamps of the history are non-decreasing, which is what
    [checkRep] tests. *)
Theorem editMessage_history_chronological edits :
  ∀ s i l m u s',
  lookupMsg s i = Some (l, m) →
  nondecreasing (stamps m) →
  nondecreasing (timestamp m :: ((fun edit => edit_now edit.2) <$> edits)) →
  editAll s i u edits = Some s' →
  ∃ m', lookupMsg s' i = Some (l, m') ∧
        editHistory m' = editHistory m ++ pushed (current m) edits ∧
        (edits ≠ [] → edited m' = true ∧ last (fst <$> edits) = Some (text m')) ∧
        nondecreasing (edit_timestamp <$> editHistory m') ∧
        historyOrdered (editHistory m') = true.
Proof.
  induction edits as [|[t e] rest IH]; intros s i l m u s' E Hs Hc; simpl.
  - intros [= <-]. exists m. rewrite app_nil_r. repeat split; [done..| |].
    + apply nondecreasing_ordered. apply nondecreasing_ordered in Hs.
      by apply ordered_prefix in Hs.
    + apply historyOrdered_ordered. apply nondecreasing_ordered in Hs.
      by apply ordered_prefix in Hs.
  - destruct (editMessage s i t u e) as [[[[l1|]|] s1]|] eqn:E1; try discriminate.
    intros Hrest.
    apply editMessage_success in E1 as (m0 & E0 & Hu & D & E1).
    assert (l1 = l ∧ m0 = m) as [-> ->] by (split; congruence).
    set (m1 := applyEdit t (edit_newTime e) (edit_now e) m) in *.
    apply nondecreasing_ordered in Hs, Hc. simpl in Hc. destruct Hc as [Hle Hc].
    destruct (IH s1 i l m1 u s' E1) as (m' & E' & Hh & Hlast & Hn & Ho); [| |done|].
    { apply nondecreasing_ordered. unfold stamps, m1. simpl.
      rewrite fmap_app, <- app_assoc. simpl. by apply ordered_snoc. }
    { apply nondecreasing_ordered. exact Hc. }
    exists m'. split; [done|]. split; [|split; [|done]].
    + rewrite Hh. unfold m1. simpl. by rewrite <- app_assoc.
    + intros _. destruct rest as [|edit rest'].
      * simpl in Hrest. injection Hrest as <-.
        assert (m' = m1) by congruence. subst m'. done.
      * destruct Hlast as [He Ht]; [done|]. split; [done|]. exact Ht.
Qed.

(** *** Chronological order is an invariant under a clock that does not
    run backwards *)

Lemma chronological_mono t t' h : t ≤ t' → chronological t h → chronological t' h.
Proof. intros Ht C l m H. destruct (C l m H). split; [done|lia]. Qed.

Lemma chronological_insert t h l m' :
  chronological t h → ordered (stamps m') → timestamp m' ≤ t →
  chronological t (<[l := m']> h).
Proof.
  intros C Ho Ht j m. rewrite list_lookup_insert. case_decide as Hj.
  - by intros [= <-].
  - apply C.
Qed.

Lemma chronological_frame t h h' : frame h h' → chronological t h → chronological t h'.
Proof.
  intros [_ F] C l m' H. destruct (F _ _ H) as (m & Hm & E).
  rewrite E. exact (C l m Hm).
Qed.

Lemma chronological_snoc t h m :
  chronological t h → ordered (stamps m) → timestamp m ≤ t → chronological t (h ++ [m]).
Proof.
  intros C Ho Ht l m' [[_ H]|[_ <-]]%lookup_snoc_Some; [by apply (C l)|done].
Qed.

Lemma chronological_pushReply t h l lp :
  chronological t h → chronological t (alter (pushReply l) lp h).
Proof.
  intros C j m. rewrite list_lookup_alter. case_decide as Hj.
  - destruct (h !! lp) as [m0|] eqn:E; [|discriminate].
    simpl. intros [= <-]. exact (C lp m0 E).
  - apply C.
Qed.

Lemma chronological_step t s o s' :
  chronological t (heap s) → step s o = Some s' →
  match clockOf o with
  | Some t' => t ≤ t' → chronological t' (heap s')
  | None => chronological t (heap s')
  end.
Proof.
  intros C. destruct o as [u x rm p e|i x u e|i u|i|]; simpl.
  - destruct (addMessage s u x rm p e) as [[r s1]|] eqn:E; [|discriminate].
    intros [= <-] Ht. apply chronological_mono with (t' := add_now e) in C; [|done].
    apply addMessage_inv in E as [[-> _]|(_ & _ & _ & _ & _ & [-> _]%finish_inv)]; [done|].
    simpl.
    assert (C1 : chronological (add_now e)
                   (heap s ++ [mkMessage (generateId (add_idNow e) (add_idRandom e)) u x
                                         (add_time e) (add_now e) rm false [] false p []])).
    { apply chronological_snoc; [done|exact I|simpl; lia]. }
    destruct (JS.truthyOpt p); [|done].
    destruct (_ !! default "" p); [by apply chronological_pushReply|done].
  - destruct (editMessage s i x u e) as [[r s1]|] eqn:E; [|discriminate].
    intros [= <-] Ht. apply chronological_mono with (t' := edit_now e) in C; [|done].
    revert E. unfold editMessage.
    destruct (negb (JS.truthy i)); [by intros [= _ <-]|].
    destruct (negb (JS.truthy x)); [by intros [= _ <-]|].
    destruct (lock s); [discriminate|].
    destruct (lookupMsg s i) as [[l m]|] eqn:El; [|by intros [= _ <-]].
    destruct (deleted m); [by intros [= _ <-]|].
    destruct (negb _); [by intros [= _ <-]|].
    intros [-> _]%finish_inv. simpl.
    apply lookupMsg_Some in El as [_ Hm]. destruct (C _ _ Hm) as [Ho Hle].
    apply chronological_insert; [done| |simpl; lia].
    unfold stamps. simpl. rewrite fmap_app, <- app_assoc. simpl.
    apply ordered_snoc; [exact Ho|exact Hle].
  - destruct (deleteMessage s i u) as [[r s1]|] eqn:E; [|discriminate].
    intros [= <-]. revert E. unfold deleteMessage.
    destruct (negb (JS.truthy i)); [by intros [= _ <-]|].
    destruct (lock s); [discriminate|].
    destruct (lookupMsg s i) as [[l m]|] eqn:El; [|by intros [= _ <-]].
    destruct (negb _); [by intros [= _ <-]|].
    intros [-> _]%finish_inv. simpl.
    apply lookupMsg_Some in El as [_ Hm]. destruct (C _ _ Hm) as [Ho Hle].
    by apply chronological_insert.
  - destruct (getMessageThread s i) as [[r s1]|] eqn:E; [|discriminate].
    intros [= <-]. revert E. unfold getMessageThread.
    destruct (lookupMsg s i) as [[l m]|] eqn:El; [|by intros [= _ <-]].
    destruct (populateReplies _ _ _) as [h2|] eqn:Ep; [|discriminate].
    intros [= _ <-]. simpl. apply populateReplies_frame in Ep.
    eapply chronological_frame; [exact Ep|].
    apply lookupMsg_Some in El as [_ Hm]. destruct (C _ _ Hm).
    by apply chronological_snoc.
  - intros [= <-]. done.
Qed.

Lemma chronological_run ops :
  ∀ t s s', chronological t (heap s) → clockMonotone t ops → run s ops = Some s' →
            ∃ t', chronological t' (heap s').
Proof.
  unfold run. induction ops as [|o ops IH]; simpl; intros t s s' C M.
  - intros [= <-]. eauto.
  - destruct (step s o) as [s1|] eqn:E; [|discriminate].
    pose proof (chronological_step t s o s1 C E) as C1.
    destruct (clockOf o) as [t1|]; [destruct M as [Ht M]|]; eapply IH; eauto.
Qed.

(** X1: in every repository that a sequence of calls builds from a new
    one while the clock they read never runs backwards, the timestamps of
    the edit history of every stored message are non-decreasing, and the
    test of [checkRep] on the history passes. *)
Theorem history_chronological_invariant t ops s i m :
  clockMonotone t ops → run newRepo ops = Some s → getMessage s i = Some m →
  nondecreasing (edit_timestamp <$> editHistory m) ∧ historyOrdered (editHistory m) = true.
Proof.
  intros M R G.
  destruct (chronological_run ops t newRepo s) as [t' C]; [|done|done|].
  { intros l m0 H. simpl in H. by rewrite lookup_nil in H. }
  unfold getMessage in G. destruct (lookupMsg s i) as [[l m0]|] eqn:E; [|discriminate].
  injection G as ->. apply lookupMsg_Some in E as [_ Hm].
  destruct (C _ _ Hm) as [Ho _]. apply ordered_prefix in Ho.
  split; [by apply nondecreasing_ordered|by apply historyOrdered_ordered].
Qed.

(** *** The code on the threads of its own tests *)

Lemma after_reachable ops : reachable (Scenarios.after ops).
Proof.
  unfold Scenarios.after. destruct (run newRepo ops) as [s|] eqn:E; simpl.
  - eapply run_reachable; [apply reachable_new|exact E].
  - apply reachable_new.
Qed.

(** C1, where the code departs from it: on the thread of the test "should
    efficiently search without revisiting nodes" (a root, five replies whose
    text holds the keyword, three nested replies under each) every call
    returns, and [searchMessages] yields ten results, not five: the room
    listing it starts from holds the replies too, so each matching reply is
    collected once below the root and once more as a start of its own. *)
Theorem searchMessages_revisits_replies :
  run newRepo Scenarios.searchThread = Some (Scenarios.after Scenarios.searchThread) ∧
  length (heap (Scenarios.after Scenarios.searchThread)) = 21%nat ∧
  length (getMessagesForRoom (Scenarios.after Scenarios.searchThread) "room1") = 21%nat ∧
  ∃ results,
    searchMessages (Scenarios.after Scenarios.searchThread) "Reply" "room1" = Some results ∧
    length results = 10%nat ∧
    Scenarios.texts (Scenarios.after Scenarios.searchThread) results
    = ["Reply 0"; "Reply 1"; "Reply 2"; "Reply 3"; "Reply 4";
       "Reply 0"; "Reply 1"; "Reply 2"; "Reply 3"; "Reply 4"].
Proof.
  split; [vm_compute; reflexivity|]. split; [vm_compute; reflexivity|].
  split; [vm_compute; reflexivity|].
  eexists. split; [vm_compute; reflexivity|].
  split; vm_compute; reflexivity.
Qed.

(** C2, where the code departs from it: with a root, a reply and a nested
    reply that its author deleted, [getMessageThread] of the root returns a
    copy of the root whose reply list holds the stored reply object itself,
    and the call rewrites the reply list of that stored object: before the
    call it holds the deleted nested message, after the call it is empty,
    while the deleted message is still in the index. *)
Theorem getMessageThread_rewrites_stored_replies :
  let s := Scenarios.after Scenarios.nestedDeleted in
  run newRepo Scenarios.nestedDeleted = Some s ∧
  replies <$> getMessage s (Scenarios.idOf 2) = Some [2%nat] ∧
  ∃ copy s',
    getMessageThread s (Scenarios.idOf 1) = Some (Some copy, s') ∧
    replies <$> heap s' !! copy = Some [1%nat] ∧
    messages s' !! Scenarios.idOf 2 = Some 1%nat ∧
    replies <$> getMessage s' (Scenarios.idOf 2) = Some [] ∧
    deleted <$> getMessage s' (Scenarios.idOf 3) = Some true ∧
    messages s' !! Scenarios.idOf 3 = Some 2%nat.
Proof.
  split; [vm_compute; reflexivity|]. split; [vm_compute; reflexivity|].
  do 2 eexists. split; [vm_compute; reflexivity|].
  repeat split; vm_compute; reflexivity.
Qed.

Lemma depth_loop_all_deleted (f : nat → option Z) h rs :
  (∀ r, r ∈ rs → isDeleted h r = true) →
  ∀ maxDepth,
    foldlM (fun maxDepth reply =>
              if negb (isDeleted h reply) then
                match f reply with
                | Some depth => Some (Z.max maxDepth depth)
                | None => None
                end
              else Some maxDepth)
           maxDepth rs
    = Some maxDepth.
Proof.
  induction rs as [|r rs IH]; intros Hall maxDepth; simpl; [done|].
  rewrite (Hall r) by set_solver. simpl. apply IH. intros r' Hr'. apply Hall. set_solver.
Qed.

(** C3, where the code departs from it: for every stored message whose
    reply list is not empty and holds deleted replies only, so that it has
    no reply that is not deleted, [getThreadDepth] returns 1, not 0; such is
    a root whose only reply has been deleted by its author. *)
Theorem getThreadDepth_of_deleted_replies :
  (∀ s i l m,
     lookupMsg s i = Some (l, m) → replies m ≠ [] →
     (∀ r, r ∈ replies m → isDeleted (heap s) r = true) →
     getThreadDepth s i = Some 1) ∧
  (let s := Scenarios.after Scenarios.onlyReplyDeleted in
   run newRepo Scenarios.onlyReplyDeleted = Some s ∧
   replies <$> getMessage s (Scenarios.idOf 1) = Some [1%nat] ∧
   isDeleted (heap s) 1%nat = true ∧
   getThreadDepth s (Scenarios.idOf 1) = Some 1).
Proof.
  split.
  - intros s i l m E Hne Hall. unfold getThreadDepth. rewrite E.
    apply lookupMsg_Some in E as [_ Hm]. simpl. rewrite Hm.
    destruct (replies m) as [|r rs] eqn:Hr; [done|].
    by rewrite (depth_loop_all_deleted _ _ _ Hall).
  - repeat split; vm_compute; reflexivity.
Qed.

(** C4 as first stated fails: for a message that its author has deleted,
    [editMessage] by another user throws instead of returning null. *)
Lemma editMessage_non_author_on_deleted_throws :
  let s := Scenarios.after Scenarios.deletedMessage in
  run newRepo Scenarios.deletedMessage = Some s ∧
  (username <$> getMessage s (Scenarios.idOf 1)) = Some "alice" ∧
  editMessage s (Scenarios.idOf 1) "Hacked" "mallory" (mkEditEnv "1:05 pm" 5)
  = Some (Throw "Precondition violated: cannot edit deleted message", s).
Proof. repeat split; vm_compute; reflexivity. Qed.

(** *** Instances *)

(** C4, amended, at a stored message of alice and the requester mallory. *)
Lemma non_author_refused_witness :
  let s := Scenarios.after Scenarios.oneMessage in
  deleteMessage s (Scenarios.idOf 1) "mallory" = Some (Ok false, s) ∧
  editMessage s (Scenarios.idOf 1) "Hacked" "mallory" (mkEditEnv "1:05 pm" 5)
  = Some (Ok None, s).
Proof.
  pose proof (non_author_refused (Scenarios.after Scenarios.oneMessage) (Scenarios.idOf 1) 0%nat
                (mkMessage "1-x" "alice" "Version 1" "1:00 pm" 1 "room1" false [] false None [])
                "mallory" (after_reachable _)) as H.
  destruct H as (Hd & He & _); [vm_compute; reflexivity|discriminate|].
  split; [exact Hd|]. apply He; [discriminate|reflexivity].
Defined.

(** C5 at a message that alice adds and deletes; mallory then tries. *)
Lemma deleteMessage_soft_delete_witness :
  let s' := Scenarios.after Scenarios.deletedMessage in
  (∃ m', getMessage s' (Scenarios.idOf 1) = Some m' ∧ username m' = "alice" ∧
         deleted m' = true ∧ text m' = "[Message deleted]") ∧
  deleteMessage s' (Scenarios.idOf 1) "mallory" = Some (Ok false, s').
Proof.
  pose proof (deleteMessage_soft_delete (Scenarios.after [Scenarios.add 1 "alice" "Hello" None])
                (Scenarios.idOf 1) "alice" (Scenarios.after Scenarios.deletedMessage)) as H.
  destruct H as (Hm & _ & Hd); [vm_compute; reflexivity|].
  split; [exact Hm|]. apply Hd. discriminate.
Defined.

(** C6 at a message created at time 1 and edited at times 11 and 21. *)
Lemma editMessage_history_chronological_witness :
  ∃ s' m',
    editAll (Scenarios.after Scenarios.oneMessage) (Scenarios.idOf 1) "alice" Scenarios.twoEdits
    = Some s' ∧
    lookupMsg s' (Scenarios.idOf 1) = Some (0%nat, m') ∧
    editHistory m' = [mkEdit "Version 1" 1 "1:00 pm"; mkEdit "Version 2" 11 "1:01 pm"] ∧
    edited m' = true ∧ text m' = "Version 3" ∧
    nondecreasing (edit_timestamp <$> editHistory m').
Proof.
  destruct (editAll (Scenarios.after Scenarios.oneMessage) (Scenarios.idOf 1) "alice"
                    Scenarios.twoEdits) as [s'|] eqn:E; [|vm_compute in E; discriminate].
  destruct (editMessage_history_chronological Scenarios.twoEdits
              (Scenarios.after Scenarios.oneMessage) (Scenarios.idOf 1) 0%nat
              (mkMessage "1-x" "alice" "Version 1" "1:00 pm" 1 "room1" false [] false None [])
              "alice" s')
    as (m' & E' & Hh & Hl & Hn & _).
  - vm_compute; reflexivity.
  - apply nondecreasing_ordered. exact I.
  - apply nondecreasing_ordered. simpl. lia.
  - exact E.
  - exists s', m'. destruct Hl as [He Ht]; [discriminate|].
    injection Ht as Ht. repeat split; auto.
Defined.

(** X1 at a message created at time 1 and edited at times 11 and 21. *)
Lemma history_chronological_invariant_witness :
  ∃ m, getMessage (Scenarios.after Scenarios.editedTwice) (Scenarios.idOf 1) = Some m ∧
       (edit_timestamp <$> editHistory m) = [1; 11] ∧
       nondecreasing (edit_timestamp <$> editHistory m).
Proof.
  destruct (getMessage (Scenarios.after Scenarios.editedTwice) (Scenarios.idOf 1))
    as [m|] eqn:G; [|vm_compute in G; discriminate].
  exists m. split; [reflexivity|]. split.
  - vm_compute in G. injection G as <-. reflexivity.
  - refine (proj1 (history_chronological_invariant 0 Scenarios.editedTwice
                     (Scenarios.after Scenarios.editedTwice) (Scenarios.idOf 1) m _ _ G)).
    + simpl. lia.
    + vm_compute. reflexivity.
Defined.

(** C10 at a root and a reply to it. *)
Lemma getMessagesForRoom_lists_replies_witness :
  let s' := Scenarios.after Scenarios.rootAndReply in
  1%nat ∈ getMessagesForRoom s' "room1" ∧
  (∃ reply, heap s' !! 1%nat = Some reply ∧
            parentId reply = Some (Scenarios.idOf 1) ∧ room reply = "room1") ∧
  (∃ lp parent, lookupMsg s' (Scenarios.idOf 1) = Some (lp, parent) ∧ 1%nat ∈ replies parent).
Proof.
  refine (proj2 (proj2 (getMessagesForRoom_lists_replies
            (Scenarios.after Scenarios.rootOnly) (after_reachable _)))
          "bob" "Reply" "room1" (Scenarios.idOf 1) (mkAddEnv 2 2 "x" "1:00 pm") 1%nat
          (Scenarios.after Scenarios.rootAndReply) _ _).
  - vm_compute. discriminate.
  - vm_compute. reflexivity.
Defined.

End MessageRepositoryFacts.

(** ** User registry *)
Section UserRepositoryFacts.
Import UserRepository.

Lemma finish_state {A} r (a : A) : (finish r a).2 = r.
Proof. unfold finish. by destruct (checkRep r). Qed.

Lemma consistent_new : consistent newRegistry.
Proof. split; [done|]. intros i u H. simpl in H. by rewrite lookup_empty in H. Qed.

Lemma consistent_join r i n rm rl : consistent r → consistent (userJoin r i n rm rl).2.
Proof.
  intros [Hs Hi]. unfold userJoin.
  destruct (negb (JS.truthy i)); [by split|].
  destruct (negb (JS.truthy n)); [by split|].
  destruct (negb (JS.truthy rm)); [by split|].
  case_bool_decide as Hu; [by split|].
  case_bool_decide as Hn; [by split|].
  rewrite finish_state.
  apply eq_None_not_Some in Hu, Hn. split; simpl.
  - rewrite !map_size_insert_None by done. by rewrite Hs.
  - intros j u. rewrite lookup_insert. case_decide as Hj.
    + intros [= <-]. simpl. by rewrite lookup_insert_eq, Hj.
    + intros H. specialize (Hi _ _ H). rewrite lookup_insert_ne; [done|].
      intros Heq. rewrite <- Heq in Hi. congruence.
Qed.

Lemma consistent_leave r i : consistent r → consistent (userLeave r i).2.
Proof.
  intros [Hs Hi]. unfold userLeave.
  destruct (users r !! i) as [user|] eqn:Hu; [|by split].
  rewrite finish_state. pose proof (Hi _ _ Hu) as Hn. split; simpl.
  - rewrite !map_size_delete, Hu, Hn. by rewrite Hs.
  - intros j u. rewrite lookup_delete. case_decide as Hj; [done|].
    intros H. specialize (Hi _ _ H). rewrite lookup_delete_ne; [done|].
    intros Heq. rewrite Heq in Hn. congruence.
Qed.

Lemma consistent_update f r n :
  (∀ u, username (f u) = username u) → consistent r → consistent (update f r n).2.
Proof.
  intros Hf [Hs Hi]. unfold update.
  destruct (usernameIndex r !! JS.toLowerCase n) as [socketId|] eqn:Hn; [|by split].
  unfold getUserByUsername. rewrite Hn.
  destruct (JS.truthy socketId); [|by split].
  destruct (users r !! socketId) as [user|] eqn:Hu; [|by split].
  split; simpl.
  - rewrite map_size_insert, Hu. done.
  - intros j u. rewrite lookup_insert. case_decide as Hj.
    + intros [= <-]. rewrite Hf. subst j. by apply Hi.
    + apply Hi.
Qed.

Lemma consistent_step r o : consistent r → consistent (step r o).
Proof.
  intros C. destruct o; simpl.
  - by apply consistent_join.
  - by apply consistent_leave.
  - by apply consistent_update.
  - by apply consistent_update.
  - by apply consistent_update.
  - apply consistent_new.
Qed.

Lemma reachable_consistent r : reachable r → consistent r.
Proof. induction 1; auto using consistent_new, consistent_step. Qed.

Lemma checkRep_one i u k :
  room u ≠ EmptyString → checkRep (mkRegistry {[i := u]} {[k := i]}) = None.
Proof.
  intros Hr. unfold checkRep, lowerNames. cbn [users usernameIndex].
  rewrite map_to_list_singleton.
  rewrite bool_decide_eq_true_2 by (apply NoDup_singleton). simpl.
  apply truthy_nonempty in Hr. rewrite Hr. simpl.
  by rewrite !map_size_singleton.
Qed.

Lemma userJoin_first i n rm :
  i ≠ EmptyString → n ≠ EmptyString → rm ≠ EmptyString →
  userJoin newRegistry i n rm None
  = (Ok (mkJoinResult None (Some (mkUser i n rm role_user false false))),
     mkRegistry {[i := mkUser i n rm role_user false false]} {[JS.toLowerCase n := i]}).
Proof.
  intros Hi Hn Hr. unfold userJoin.
  apply truthy_nonempty in Hi, Hn. rewrite Hi, Hn. simpl.
  pose proof Hr as Hr'. apply truthy_nonempty in Hr'. rewrite Hr'. simpl.
  rewrite !lookup_empty.
  rewrite !bool_decide_eq_false_2 by (intros [? [=]]).
  rewrite !insert_empty. unfold finish. by rewrite checkRep_one.
Qed.

(** C9: for two different, non-empty connection ids, on a new registry:
    the join of Bob succeeds; the join of bob on the other connection
    returns the error value "Username is already taken" and leaves the
    registry as it is; after the first connection has left, the join of bob
    succeeds; and in every registry that calls can produce, the index by
    connection and the index by username have the same number of entries. *)
Theorem userJoin_username_unique (s1 s2 : string) :
  s1 ≠ EmptyString → s2 ≠ EmptyString → s1 ≠ s2 →
  let bob1 := mkUser s1 "Bob" "r1" role_user false false in
  let bob2 := mkUser s2 "bob" "r1" role_user false false in
  (∃ r1 r2 r3,
     userJoin newRegistry s1 "Bob" "r1" None = (Ok (mkJoinResult None (Some bob1)), r1) ∧
     userJoin r1 s2 "bob" "r1" None
     = (Ok (mkJoinResult (Some "Username is already taken") None), r1) ∧
     userLeave r1 s1 = (Ok (Some bob1), r2) ∧
     userJoin r2 s2 "bob" "r1" None = (Ok (mkJoinResult None (Some bob2)), r3) ∧
     getCurrentUser r3 s2 = Some bob2) ∧
  (∀ r, reachable r → size (users r) = size (usernameIndex r)).
Proof.
  intros H1 H2 Hne bob1 bob2. split.
  - eexists _, newRegistry, _. split; [by apply userJoin_first|]. simpl.
    split; [|split; [|split]].
    + unfold userJoin. apply truthy_nonempty in H2. rewrite H2. simpl.
      rewrite lookup_singleton_ne by done.
      rewrite bool_decide_eq_false_2 by (intros [? [=]]).
      rewrite lookup_singleton_eq.
      by rewrite bool_decide_eq_true_2 by eauto.
    + unfold userLeave. simpl. rewrite lookup_singleton_eq. simpl.
      rewrite !delete_singleton_eq. reflexivity.
    + by apply userJoin_first.
    + unfold getCurrentUser. simpl. by rewrite lookup_singleton_eq.
  - intros r R. by destruct (reachable_consistent r R) as [-> _].
Qed.

(** C9 at the connections s1 and s2. *)
Lemma userJoin_username_unique_witness :
  ∃ r1 r2 r3,
    userJoin newRegistry "s1" "Bob" "r1" None
    = (Ok (mkJoinResult None (Some (mkUser "s1" "Bob" "r1" role_user false false))), r1) ∧
    userJoin r1 "s2" "bob" "r1" None
    = (Ok (mkJoinResult (Some "Username is already taken") None), r1) ∧
    userLeave r1 "s1" = (Ok (Some (mkUser "s1" "Bob" "r1" role_user false false)), r2) ∧
    userJoin r2 "s2" "bob" "r1" None
    = (Ok (mkJoinResult None (Some (mkUser "s2" "bob" "r1" role_user false false))), r3) ∧
    getCurrentUser r3 "s2" = Some (mkUser "s2" "bob" "r1" role_user false false).
Proof.
  exact (proj1 (userJoin_username_unique "s1" "s2"
                  ltac:(discriminate) ltac:(discriminate) ltac:(discriminate))).
Defined.

End UserRepositoryFacts.

(** ** Moderation rules *)
Section ModerationFacts.
Import ModerationDSL.

Variable regExpTest : string → string → option bool.
Variable toNumber : string → option number.
Variable numberToString : number → string.

Local Abbreviation holds := (evaluateCondition regExpTest toNumber numberToString).

Lemma numeric_operator_needs_number c message username :
  operator c ∈ [">"; "<"; ">="; "<="] → holds c message username = true →
  ∃ n, resolveField (field c) message username = Some (Num n).
Proof.
  unfold evaluateCondition.
  destruct (resolveField (field c) message username) as [[f|n]|]; [|eauto|discriminate].
  rewrite !elem_of_cons, elem_of_nil.
  intros [->|[->|[->|[->|[]]]]]; simpl; discriminate.
Qed.

Lemma string_operator_needs_string c message username :
  operator c ∈ ["contains"; "matches"] → holds c message username = true →
  ∃ s, resolveField (field c) message username = Some (Str s).
Proof.
  unfold evaluateCondition.
  destruct (resolveField (field c) message username) as [[f|n]|]; [eauto| |discriminate].
  rewrite !elem_of_cons, elem_of_nil.
  intros [->|[->|[]]]; simpl; discriminate.
Qed.

Lemma strictEquals_same_type a b : strictEquals a b = true → isString a = isString b.
Proof. destruct a, b; simpl; auto; discriminate. Qed.

Lemma equals_is_strict c message username :
  operator c = "equals" → holds c message username = true →
  ∃ f, resolveField (field c) message username = Some f ∧ isString f = isString (value c).
Proof.
  unfold evaluateCondition. intros ->.
  destruct (resolveField (field c) message username) as [f|]; [|discriminate].
  simpl. intros H%strictEquals_same_type. exists f. split; [done|].
  rewrite H. by destruct (value c).
Qed.

(** C8, as amended: a numeric operator matches only when the field
    resolves to a number, [contains] and [matches] only when it resolves to
    a string, and [equals] compares strictly, so it matches only when field
    and rule value are of the same type; the value token of the condition
    [message equals "123"] is coerced to the number 123, and so that
    condition is false of every message, the message [123] included. *)
Theorem evaluateCondition_operator_types :
  (∀ c message username,
     operator c ∈ [">"; "<"; ">="; "<="] → holds c message username = true →
     ∃ n, resolveField (field c) message username = Some (Num n)) ∧
  (∀ c message username,
     operator c ∈ ["contains"; "matches"] → holds c message username = true →
     ∃ s, resolveField (field c) message username = Some (Str s)) ∧
  (∀ c message username,
     operator c = "equals" → holds c message username = true →
     ∃ f, resolveField (field c) message username = Some f ∧
          isString f = isString (value c)) ∧
  parseCondition ("message equals " +:+ JS.quoted "123")
  = Some (mkCondition "message" "equals" (Num (Finite (inject_Z 123)))) ∧
  (∀ message username,
     holds (mkCondition "message" "equals" (Num (Finite (inject_Z 123)))) message username
     = false).
Proof.
  split; [exact numeric_operator_needs_number|].
  split; [exact string_operator_needs_string|].
  split; [exact equals_is_strict|].
  split; [vm_compute; reflexivity|].
  intros message username. reflexivity.
Qed.

End ModerationFacts.

Section ModerationInstances.
Import ModerationDSL.

(** C8 as first stated fails: the condition [message equals "123"] holds the
    number 123, and evaluates to false on the message [123]. *)
Lemma equals_numeral_message_false :
  parseCondition ("message equals " +:+ JS.quoted "123")
  = Some (mkCondition "message" "equals" (Num (Finite (inject_Z 123)))) ∧
  evaluateCondition Scenarios.noRegExp Scenarios.noNumber Scenarios.noString
    (mkCondition "message" "equals" (Num (Finite (inject_Z 123)))) "123" "alice"
  = false.
Proof. split; vm_compute; reflexivity. Qed.

(** C8, amended, at the condition [word_count > 5] and a message of six
    words. *)
Lemma evaluateCondition_operator_types_witness :
  ∃ n, resolveField "word_count" "one two three four five six" "alice" = Some (Num n).
Proof.
  refine (proj1 (evaluateCondition_operator_types
                   Scenarios.noRegExp Scenarios.noNumber Scenarios.noString)
                (mkCondition "word_count" ">" (Num (Finite (inject_Z 5))))
                "one two three four five six" "alice" _ _).
  - apply list_elem_of_here.
  - vm_compute. reflexivity.
Defined.

End ModerationInstances.

(** * Further properties of the message repository *)

Section MessageRepositoryAdding.
Import MessageRepository.

(** *** Adding *)

Lemma added_new_message s u t rm p e :
  let s' := releaseLock (added s u t rm p e) in
  let l := length (heap s) in
  ∃ m, heap s' !! l = Some m ∧ messages s' !! generateId (add_idNow e) (add_idRandom e) = Some l ∧
       m = setReplies (replies m)
             (mkMessage (generateId (add_idNow e) (add_idRandom e)) u t (add_time e) (add_now e)
                        rm false [] false p []).
Proof.
  simpl. set (message := mkMessage _ u t _ _ rm false [] false p []).
  assert (Hnew : (heap s ++ [message]) !! length (heap s) = Some message).
  { apply lookup_snoc_Some. auto. }
  rewrite lookup_insert_eq.
  destruct (JS.truthyOpt p).
  - destruct (_ !! default "" p) as [lp|].
    + rewrite list_lookup_alter. case_decide as Hc.
      * subst lp. rewrite Hnew. simpl. eauto.
      * rewrite Hnew. eauto.
    + rewrite Hnew. eauto.
  - rewrite Hnew. eauto.
Qed.

(** X3: a successful [addMessage] stores the message as it was given:
    [getMessage] of the generated id returns the object that the call
    returned, with the username, text, room and parent id of the call, the
    clock reading as timestamp, no edit history, not edited, not deleted;
    and the call succeeds only with non-empty username, text and room. *)
Theorem addMessage_then_getMessage s u t rm p e l s' :
  addMessage s u t rm p e = Some (Ok l, s') →
  ∃ m, getMessage s' (generateId (add_idNow e) (add_idRandom e)) = Some m ∧
       heap s' !! l = Some m ∧
       id m = generateId (add_idNow e) (add_idRandom e) ∧
       username m = u ∧ text m = t ∧ room m = rm ∧ parentId m = p ∧
       timestamp m = add_now e ∧ time m = add_time e ∧
       edited m = false ∧ deleted m = false ∧ editHistory m = [] ∧
       u ≠ EmptyString ∧ t ≠ EmptyString ∧ rm ≠ EmptyString.
Proof.
  intros H.
  apply addMessage_inv in H as [[_ [msg [=]]]|(_ & Hu & Ht & Hr & _ & H)].
  apply finish_inv in H as [-> [[[= ->] _]|[msg [=]]]].
  destruct (added_new_message s u t rm p e) as (m & Hm & Hi & E).
  exists m. unfold getMessage, lookupMsg. rewrite Hi, Hm. rewrite E. simpl.
  repeat split; auto.
Qed.

End MessageRepositoryAdding.

Section MessageRepositoryDeleting.
Import MessageRepository.

Lemma deleteMessage_true s i u s' :
  deleteMessage s i u = Some (Ok true, s') →
  ∃ l m, lookupMsg s i = Some (l, m) ∧ username m = u ∧ i ≠ EmptyString ∧
         checkRep (mkRepo (<[l := applyDelete m]> (heap s)) (messages s) (messagesByRoom s) true)
         = None ∧
         s' = mkRepo (<[l := applyDelete m]> (heap s)) (messages s) (messagesByRoom s) false.
Proof.
  unfold deleteMessage. destruct (JS.truthy i) eqn:Ei; simpl; [|discriminate].
  destruct (lock s); [discriminate|].
  destruct (lookupMsg s i) as [[l m]|]; [|discriminate].
  destruct (String.eqb (username m) u) eqn:Eu; simpl; [|discriminate].
  intros [-> [[_ Hc]|[msg [=]]]]%finish_inv.
  apply String.eqb_eq in Eu. apply truthy_nonempty in Ei. exists l, m. done.
Qed.

Lemma deleted_lookup s i l m :
  lookupMsg s i = Some (l, m) →
  lookupMsg (mkRepo (<[l := applyDelete m]> (heap s)) (messages s) (messagesByRoom s) false) i
  = Some (l, applyDelete m).
Proof.
  intros [Hl Hm]%lookupMsg_Some. apply lookupMsg_Some. split; [done|].
  apply list_lookup_insert_eq. eapply lookup_lt_Some, Hm.
Qed.

(** X4: once [deleteMessage] has succeeded, every [editMessage] of that
    message with a non-empty text, by the author or anyone else, throws
    "cannot edit deleted message" and leaves the repository as it is. *)
Theorem editMessage_after_delete s i u s' :
  deleteMessage s i u = Some (Ok true, s') →
  ∀ newText requester e, newText ≠ EmptyString →
    editMessage s' i newText requester e
    = Some (Throw "Precondition violated: cannot edit deleted message", s').
Proof.
  intros (l & m & E & _ & Hi & _ & ->)%deleteMessage_true newText requester e Ht.
  apply truthy_nonempty in Hi, Ht. unfold editMessage.
  rewrite Hi, Ht, (deleted_lookup _ _ _ _ E). reflexivity.
Qed.

(** X5: deleting is idempotent: after a successful [deleteMessage], the
    same call succeeds again and leaves the repository as it is. *)
Theorem deleteMessage_twice s i u s' :
  deleteMessage s i u = Some (Ok true, s') →
  deleteMessage s' i u = Some (Ok true, s').
Proof.
  intros (l & m & E & Hu & Hi & Hc & ->)%deleteMessage_true.
  apply truthy_nonempty in Hi. unfold deleteMessage.
  rewrite Hi, (deleted_lookup _ _ _ _ E). simpl.
  rewrite Hu, String.eqb_refl. simpl.
  change (applyDelete (applyDelete m)) with (applyDelete m).
  rewrite list_insert_insert_eq. unfold finish. rewrite Hc. reflexivity.
Qed.

(** *** The listing is in timestamp order *)

Lemma ordered_insertBy key x l :
  ordered (key <$> l) → ordered (key <$> insertBy key x l).
Proof.
  induction l as [|y l IH]; simpl; [done|].
  destruct (key x <=? key y) eqn:Exy; simpl.
  - intros H. split; [lia|done].
  - intros H. apply Z.leb_gt in Exy.
    destruct l as [|z l]; simpl in *.
    + split; [lia|done].
    + destruct H as [Hyz H]. specialize (IH H).
      destruct (key x <=? key z) eqn:Exz; simpl in *.
      * split; [lia|]. done.
      * split; [lia|]. done.
Qed.

Lemma ordered_sortBy key l : ordered (key <$> sortBy key l).
Proof.
  unfold sortBy. induction l as [|x l IH]; simpl; [done|]. by apply ordered_insertBy.
Qed.

(** X6: [getMessagesForRoom] returns the messages in non-decreasing
    order of their timestamps, for every repository and room. *)
Theorem getMessagesForRoom_sorted s rm :
  nondecreasing (stamp (heap s) <$> getMessagesForRoom s rm).
Proof.
  apply nondecreasing_ordered. unfold getMessagesForRoom.
  destruct (messagesByRoom s !! rm); [apply ordered_sortBy|done].
Qed.

End MessageRepositoryDeleting.

Section MessageRepositoryDepth.
Import MessageRepository.

(** The loop of [calculateDepth] over the replies, [g] giving the depth of
    a reply. *)
Local Abbreviation depthLoop g h :=
  (foldlM (fun maxDepth reply =>
             if negb (isDeleted h reply) then
               match g reply with
               | Some depth => Some (Z.max maxDepth depth)
               | None => None
               end
             else Some maxDepth)).

Lemma depthLoop_ge (g : nat → option Z) h rs :
  ∀ a b, depthLoop g h a rs = Some b → a ≤ b.
Proof.
  induction rs as [|r rs IH]; simpl; intros a b.
  - intros [= <-]. lia.
  - destruct (negb (isDeleted h r)); [|apply IH].
    destruct (g r) as [d|]; [|discriminate].
    intros H%IH. lia.
Qed.

Lemma depthLoop_member (g : nat → option Z) h rs :
  ∀ a b, depthLoop g h a rs = Some b →
  ∀ r, r ∈ rs → isDeleted h r = false → ∃ dr, g r = Some dr ∧ dr ≤ b.
Proof.
  induction rs as [|x rs IH]; simpl; intros a b H r Hr Hd.
  - by apply elem_of_nil in Hr.
  - apply elem_of_cons in Hr as [->|Hr].
    + rewrite Hd in H. simpl in H.
      destruct (g x) as [d|]; [|discriminate].
      apply depthLoop_ge in H. exists d. split; [done|lia].
    + destruct (negb (isDeleted h x)); [|by eapply IH].
      destruct (g x) as [d|]; [|discriminate]. by eapply IH.
Qed.

Lemma depthLoop_more (g1 g2 : nat → option Z) h rs :
  (∀ r d, g1 r = Some d → g2 r = Some d) →
  ∀ a b, depthLoop g1 h a rs = Some b → depthLoop g2 h a rs = Some b.
Proof.
  intros Hg. induction rs as [|x rs IH]; simpl; intros a b; [done|].
  destruct (negb (isDeleted h x)); [|apply IH].
  destruct (g1 x) as [d|] eqn:E; [|discriminate].
  rewrite (Hg _ _ E). apply IH.
Qed.

Lemma calculateDepth_nonneg fuel : ∀ h l d, calculateDepth fuel h l = Some d → 0 ≤ d.
Proof.
  destruct fuel as [|fuel]; simpl; intros h l d; [discriminate|].
  destruct (h !! l) as [msg|]; [|discriminate].
  destruct (replies msg) as [|r rs]; [intros [= <-]; lia|].
  destruct (depthLoop _ h 0 (r :: rs)) as [b|] eqn:E; [|discriminate].
  intros [= <-]. apply depthLoop_ge in E. lia.
Qed.

Lemma calculateDepth_more fuel :
  ∀ h l d, calculateDepth fuel h l = Some d → calculateDepth (S fuel) h l = Some d.
Proof.
  induction fuel as [|fuel IH]; intros h l d; [discriminate|].
  change (calculateDepth (S fuel) h l) with
    (match h !! l with
     | None => None
     | Some msg =>
       match replies msg with
       | [] => Some 0
       | _ => match depthLoop (calculateDepth fuel h) h 0 (replies msg) with
              | Some maxDepth => Some (1 + maxDepth)
              | None => None
              end
       end
     end).
  change (calculateDepth (S (S fuel)) h l) with
    (match h !! l with
     | None => None
     | Some msg =>
       match replies msg with
       | [] => Some 0
       | _ => match depthLoop (calculateDepth (S fuel) h) h 0 (replies msg) with
              | Some maxDepth => Some (1 + maxDepth)
              | None => None
              end
       end
     end).
  destruct (h !! l) as [msg|]; [|done].
  destruct (replies msg) as [|r rs]; [done|].
  destruct (depthLoop (calculateDepth fuel h) h 0 (r :: rs)) as [b|] eqn:E; [|discriminate].
  intros [= <-].
  rewrite (depthLoop_more (calculateDepth fuel h) (calculateDepth (S fuel) h) h (r :: rs)
             (IH h) 0 b E).
  reflexivity.
Qed.

(** X9: the depth of a message is greater than the depth of each of its
    replies that is not deleted. *)
Theorem getThreadDepth_above_reply s i j l m r mr d :
  lookupMsg s i = Some (l, m) → lookupMsg s j = Some (r, mr) →
  r ∈ replies m → deleted mr = false →
  getThreadDepth s i = Some d →
  ∃ dr, getThreadDepth s j = Some dr ∧ dr + 1 ≤ d.
Proof.
  intros Ei Ej Hr Hd. unfold getThreadDepth. rewrite Ei, Ej.
  apply lookupMsg_Some in Ei as [_ Hm]. apply lookupMsg_Some in Ej as [_ Hmr].
  simpl. rewrite Hm.
  destruct (replies m) as [|r0 rs] eqn:Hrs; [by apply elem_of_nil in Hr|].
  destruct (depthLoop _ (heap s) 0 (r0 :: rs)) as [b|] eqn:E; [|discriminate].
  intros [= <-].
  destruct (depthLoop_member _ _ _ _ _ E r Hr) as (dr & Hdr & Hle).
  { unfold isDeleted. by rewrite Hmr. }
  exists dr. split; [|lia].
  by apply calculateDepth_more in Hdr.
Qed.

End MessageRepositoryDepth.

Section MessageRepositorySearch.
Import MessageRepository.

(** The loop of [searchRecursive] over the replies of a message. *)
Local Abbreviation searchLoop fuel h kw :=
  (foldlM (fun res reply =>
             if negb (isDeleted h reply)
             then searchRecursive fuel h kw res reply
             else Some res)).

Local Abbreviation hit kw mx := (JS.includes (JS.toLowerCase (text mx)) kw = true).

Lemma searchLoop_appends fuel h kw rs :
  appendsHits fuel h kw →
  ∀ res res', searchLoop fuel h kw res rs = Some res' →
    ∃ new, res' = res ++ new ∧
           ∀ x, x ∈ new → ∃ mx, h !! x = Some mx ∧ hit kw mx ∧ deleted mx = false.
Proof.
  intros IH. induction rs as [|r rs IHrs]; simpl; intros res res'.
  - intros [= <-]. exists []. rewrite app_nil_r. split; [done|].
    intros x Hx. by apply elem_of_nil in Hx.
  - destruct (negb (isDeleted h r)) eqn:Hd; [|apply IHrs].
    destruct (searchRecursive fuel h kw res r) as [r1|] eqn:E; [|discriminate].
    intros H. apply IH in E as (n1 & -> & S1). apply IHrs in H as (n2 & -> & S2).
    exists (n1 ++ n2). split; [by rewrite app_assoc|].
    intros x [Hx|Hx]%elem_of_app; [|by apply S2].
    destruct (S1 x Hx) as (mx & Hmx & Hk & [->|Hdel]); exists mx; [|done].
    split; [done|]. split; [done|].
    unfold isDeleted in Hd. rewrite Hmx in Hd. by apply negb_true_iff in Hd.
Qed.

Lemma searchRecursive_appends fuel h kw : appendsHits fuel h kw.
Proof.
  induction fuel as [|fuel IH]; intros results l results'; simpl; [discriminate|].
  destruct (h !! l) as [msg|] eqn:Hl; [|discriminate].
  intros H. apply (searchLoop_appends fuel h kw _ IH) in H as (new & -> & S).
  destruct (JS.includes (JS.toLowerCase (text msg)) kw) eqn:Hhit.
  - exists ([l] ++ new). split; [by rewrite app_assoc|].
    intros x [->%list_elem_of_singleton|Hx]%elem_of_app.
    + exists msg. auto.
    + destruct (S x Hx) as (mx & ? & ? & ?). exists mx. auto.
  - exists new. split; [done|]. intros x Hx.
    destruct (S x Hx) as (mx & ? & ? & ?). exists mx. auto.
Qed.

Lemma searchRecursive_keeps fuel h kw results l results' x :
  searchRecursive fuel h kw results l = Some results' → x ∈ results → x ∈ results'.
Proof.
  intros (new & -> & _)%searchRecursive_appends Hx. apply elem_of_app. auto.
Qed.

Lemma searchRecursive_collects fuel h kw results l results' m :
  searchRecursive fuel h kw results l = Some results' →
  h !! l = Some m → hit kw m → l ∈ results'.
Proof.
  destruct fuel as [|fuel]; simpl; [discriminate|]. intros H Hl Hk.
  rewrite Hl, Hk in H.
  apply (searchLoop_appends fuel h kw _ (searchRecursive_appends fuel h kw))
    in H as (new & -> & _).
  rewrite !elem_of_app, list_elem_of_singleton. auto.
Qed.

Lemma search_all fuel h kw ls :
  ∀ res res', foldlM (searchRecursive fuel h kw) res ls = Some res' →
    (∀ x, x ∈ res' → x ∈ res ∨
       ∃ mx, h !! x = Some mx ∧ hit kw mx ∧ (x ∈ ls ∨ deleted mx = false)) ∧
    (∀ x, x ∈ res → x ∈ res') ∧
    (∀ l m, l ∈ ls → h !! l = Some m → hit kw m → l ∈ res').
Proof.
  induction ls as [|l ls IH]; simpl; intros res res'.
  - intros [= <-]. split; [auto|]. split; [auto|].
    intros l m Hl. by apply elem_of_nil in Hl.
  - destruct (searchRecursive fuel h kw res l) as [r1|] eqn:E; [|discriminate].
    intros H. destruct (IH _ _ H) as (S & K & C).
    pose proof (searchRecursive_appends fuel h kw _ _ _ E) as (n1 & -> & S1).
    split; [|split].
    + intros x Hx. destruct (S x Hx) as [[Hres|Hn1]%elem_of_app|(mx & ? & ? & [?|?])].
      * auto.
      * right. destruct (S1 x Hn1) as (mx & ? & ? & [->|?]); exists mx.
        -- split; [done|]. split; [done|]. left. apply elem_of_cons. auto.
        -- auto.
      * right. exists mx. split; [done|]. split; [done|]. left. apply elem_of_cons. auto.
      * right. exists mx. auto.
    + intros x Hx. apply K, elem_of_app. auto.
    + intros l' m [->|Hl]%elem_of_cons Hm Hk.
      * apply K. eapply searchRecursive_collects; eauto.
      * eapply C; eauto.
Qed.

(** X10: every result of [searchMessages] is a message that is not
    deleted and whose text contains the keyword, letter case ignored. *)
Theorem searchMessages_sound s kw rm results :
  searchMessages s kw rm = Some results →
  ∀ x, x ∈ results →
    ∃ m, heap s !! x = Some m ∧ matchesKeyword kw m = true ∧ deleted m = false.
Proof.
  unfold searchMessages. intros (S & _ & _)%search_all x Hx.
  destruct (S x Hx) as [Hnil|(mx & Hmx & Hk & [Hin|Hd])].
  - by apply elem_of_nil in Hnil.
  - apply getMessagesForRoom_elem in Hin as (ids & i & m & _ & _ & [_ Hm]%lookupMsg_Some & Hd).
    exists mx. split; [done|]. split; [exact Hk|]. congruence.
  - exists mx. auto.
Qed.


End MessageRepositorySearch.


Section MessageRepositoryStates.
Import MessageRepository.

Lemma setReplies_eta m : m = setReplies (replies m) m.
Proof. by destruct m. Qed.

Lemma narrows_refl h : narrows h h.
Proof.
  split; [done|]. intros l m' H. exists m'. split; [done|]. split; [apply setReplies_eta|done].
Qed.

Lemma narrows_trans h1 h2 h3 : narrows h1 h2 → narrows h2 h3 → narrows h1 h3.
Proof.
  intros [L1 F1] [L2 F2]. split; [congruence|].
  intros l m3 H3. destruct (F2 _ _ H3) as (m2 & H2 & E3 & S3).
  destruct (F1 _ _ H2) as (m1 & H1 & E2 & S2). exists m1. split; [done|]. split.
  - rewrite E3, E2. reflexivity.
  - set_solver.
Qed.

Lemma narrows_alter h h' l msg kept :
  narrows h h' → h !! l = Some msg → kept ⊆ replies msg →
  narrows h (alter (setReplies kept) l h').
Proof.
  intros [L F] Hl Hk. split; [by rewrite length_alter|].
  intros j m'. rewrite list_lookup_alter. case_decide as Hj.
  - subst j. destruct (h' !! l) as [m1|] eqn:E1; [|discriminate].
    simpl. intros [= <-]. destruct (F _ _ E1) as (m & Hm & E & _).
    assert (m = msg) by congruence. subst m. exists msg. split; [done|].
    rewrite E. simpl. done.
  - apply F.
Qed.

Lemma foldlM_narrows {B} (f : list Message → B → option (list Message)) ls :
  (∀ h b h', f h b = Some h' → narrows h h') →
  ∀ h h', foldlM f h ls = Some h' → narrows h h'.
Proof.
  intros Hf. induction ls as [|b ls IH]; simpl; intros h h'.
  - intros [= <-]. apply narrows_refl.
  - destruct (f h b) as [h1|] eqn:E; [|discriminate]. intros H.
    eapply narrows_trans; [eapply Hf, E | eapply IH, H].
Qed.

Lemma filter_subseteq (f : nat → bool) (l : list nat) : List.filter f l ⊆ l.
Proof. intros x Hx. apply list_elem_of_In in Hx. apply filter_In in Hx as [Hx _]. by apply list_elem_of_In. Qed.

Lemma populateReplies_narrows fuel :
  ∀ h l h', populateReplies fuel h l = Some h' → narrows h h'.
Proof.
  induction fuel as [|fuel IH]; simpl; intros h l h'; [discriminate|].
  destruct (h !! l) as [msg|] eqn:Hl; [|discriminate].
  destruct (replies msg) as [|r rs] eqn:Hr; [intros [= <-]; apply narrows_refl|].
  set (kept := List.filter _ _).
  destruct (foldlM (populateReplies fuel) h kept) as [h1|] eqn:E; [|discriminate].
  intros [= <-]. eapply narrows_alter; [|exact Hl|].
  - eapply foldlM_narrows; [|exact E]. intros; eapply IH; eauto.
  - rewrite Hr. apply filter_subseteq.
Qed.

(** The objects that were there before an [addMessage] keep their fields;
    the reply list of one of them may have gained the new reference. *)
Lemma added_old s u t rm p e l' m' :
  (l' < length (heap s))%nat → heap (added s u t rm p e) !! l' = Some m' →
  ∃ m, heap s !! l' = Some m ∧ m' = setReplies (replies m') m ∧
       (replies m' = replies m ∨ replies m' = replies m ++ [length (heap s)]).
Proof.
  intros Hlt. unfold added. simpl.
  set (message := mkMessage _ u t _ _ rm false [] false p []).
  assert (Hold : (heap s ++ [message]) !! l' = heap s !! l') by (by apply lookup_app_l).
  assert (Hsame : ∀ m', (heap s ++ [message]) !! l' = Some m' →
            ∃ m, heap s !! l' = Some m ∧ m' = setReplies (replies m') m ∧
                 (replies m' = replies m ∨ replies m' = replies m ++ [length (heap s)])).
  { intros m1. rewrite Hold. intros H. exists m1. split; [done|].
    split; [apply setReplies_eta|auto]. }
  destruct (JS.truthyOpt p); [|apply Hsame].
  destruct (_ !! default "" p) as [lp|]; [|apply Hsame].
  rewrite list_lookup_alter. case_decide as Hc; [|apply Hsame].
  subst lp. rewrite Hold. destruct (heap s !! l') as [m|]; [|discriminate].
  simpl. intros [= <-]. exists m. simpl. auto.
Qed.

Lemma addMessage_cases s u t rm p e r s' :
  addMessage s u t rm p e = Some (r, s') →
  s' = s ∨ (s' = releaseLock (added s u t rm p e) ∧
            (JS.truthyOpt p = true → has s (default EmptyString p) = true)).
Proof.
  intros [[-> _]|(_ & _ & _ & _ & Hp & [-> _]%finish_inv)]%addMessage_inv; auto.
Qed.

Lemma editMessage_cases s i t u e r s' :
  lock s = false → editMessage s i t u e = Some (r, s') →
  s' = s ∨
  ∃ l m, lookupMsg s i = Some (l, m) ∧
         s' = mkRepo (<[l := applyEdit t (edit_newTime e) (edit_now e) m]> (heap s))
                     (messages s) (messagesByRoom s) false.
Proof.
  intros Hl. unfold editMessage. rewrite Hl, (releaseLock_free s Hl).
  destruct (negb (JS.truthy i)); [intros [= _ <-]; auto|].
  destruct (negb (JS.truthy t)); [intros [= _ <-]; auto|].
  destruct (lookupMsg s i) as [[l m]|]; [|intros [= _ <-]; auto].
  destruct (deleted m); [intros [= _ <-]; auto|].
  destruct (negb (String.eqb _ _)); [intros [= _ <-]; auto|].
  intros [-> _]%finish_inv. right. exists l, m. done.
Qed.

Lemma deleteMessage_cases s i u r s' :
  lock s = false → deleteMessage s i u = Some (r, s') →
  s' = s ∨
  ∃ l m, lookupMsg s i = Some (l, m) ∧
         s' = mkRepo (<[l := applyDelete m]> (heap s)) (messages s) (messagesByRoom s) false.
Proof.
  intros Hl. unfold deleteMessage. rewrite Hl, (releaseLock_free s Hl).
  destruct (negb (JS.truthy i)); [intros [= _ <-]; auto|].
  destruct (lookupMsg s i) as [[l m]|]; [|intros [= _ <-]; auto].
  destruct (negb (String.eqb _ _)); [intros [= _ <-]; auto|].
  intros [-> _]%finish_inv. right. exists l, m. done.
Qed.

Lemma getMessageThread_cases s i r s' :
  getMessageThread s i = Some (r, s') →
  (lookupMsg s i = None ∧ r = None ∧ s' = s) ∨
  ∃ l m h2, lookupMsg s i = Some (l, m) ∧ r = Some (length (heap s)) ∧
            populateReplies (S (length (heap s ++ [m]))) (heap s ++ [m]) (length (heap s))
            = Some h2 ∧
            s' = mkRepo h2 (messages s) (messagesByRoom s) (lock s).
Proof.
  unfold getMessageThread. destruct (lookupMsg s i) as [[l m]|]; [|intros [= <- <-]; auto].
  destruct (populateReplies _ _ _) as [h2|] eqn:E; [|discriminate].
  intros [= <- <-]. right. exists l, m, h2. done.
Qed.

End MessageRepositoryStates.


Section MessageRepositoryInvariants.
Import MessageRepository.

Lemma added_length s u t rm p e :
  length (heap (added s u t rm p e)) = S (length (heap s)).
Proof.
  unfold added. simpl. destruct (JS.truthyOpt p).
  - destruct (_ !! default "" p); rewrite ?length_alter, length_app; simpl; lia.
  - rewrite length_app. simpl. lia.
Qed.

Lemma added_new s u t rm p e m' :
  heap (added s u t rm p e) !! length (heap s) = Some m' →
  m' = setReplies (replies m')
         (mkMessage (generateId (add_idNow e) (add_idRandom e)) u t (add_time e) (add_now e)
                    rm false [] false p []) ∧
  (replies m' = [] ∨ replies m' = [length (heap s)]).
Proof.
  unfold added. simpl. set (message := mkMessage _ u t _ _ rm false [] false p []).
  assert (Hnew : (heap s ++ [message]) !! length (heap s) = Some message).
  { apply lookup_snoc_Some. auto. }
  assert (Hplain : (heap s ++ [message]) !! length (heap s) = Some m' →
            m' = setReplies (replies m') message ∧
            (replies m' = [] ∨ replies m' = [length (heap s)])).
  { rewrite Hnew. intros [= <-]. auto. }
  destruct (JS.truthyOpt p); [|exact Hplain].
  destruct (_ !! default "" p) as [lp|]; [|exact Hplain].
  rewrite list_lookup_alter. case_decide as Hc; [|exact Hplain].
  subst lp. rewrite Hnew. simpl. intros [= <-]. auto.
Qed.

Lemma has_insert (ms : gmap string nat) k v j :
  is_Some (ms !! j) → is_Some (<[k := v]> ms !! j).
Proof. intros H. rewrite lookup_insert. by case_decide. Qed.

Lemma NoDup_setAdd x set : NoDup set → NoDup (setAdd x set).
Proof.
  intros H. unfold setAdd. case_bool_decide as Hin; [done|].
  apply NoDup_app. split; [done|]. split; [|apply NoDup_singleton].
  intros y Hy Hy'%list_elem_of_singleton. by subst y.
Qed.

Lemma closed_new : closed (heap newRepo).
Proof. intros l m H. simpl in H. by rewrite lookup_nil in H. Qed.

Lemma linked_new : linked newRepo.
Proof.
  split.
  - intros r ids H. simpl in H. by rewrite lookup_empty in H.
  - intros i l m [H _]%lookupMsg_Some. simpl in H. by rewrite lookup_empty in H.
Qed.

Lemma closed_insert h l m m' :
  closed h → h !! l = Some m → replies m' = replies m → closed (<[l := m']> h).
Proof.
  intros C Hm Hr j mj. rewrite length_insert, list_lookup_insert. case_decide as Hj.
  - intros [= <-]. rewrite Hr. by apply (C l).
  - apply C.
Qed.

Lemma closed_step s o s' : wf s → closed (heap s) → step s o = Some s' → closed (heap s').
Proof.
  intros [Hl W] C. destruct o as [u x rm p e|i x u e|i u|i|]; simpl.
  - destruct (addMessage s u x rm p e) as [[r s1]|] eqn:E; [|discriminate].
    intros [= <-]. apply addMessage_cases in E as [->|[-> _]]; [done|].
    unfold releaseLock. cbn [heap]. intros l m Hm y Hy. rewrite added_length.
    destruct (decide (l < length (heap s))%nat) as [Hlt|Hge].
    + destruct (added_old _ _ _ _ _ _ _ _ Hlt Hm) as (m0 & H0 & _ & [Hr|Hr]);
        rewrite Hr in Hy.
      * specialize (C _ _ H0 _ Hy). lia.
      * apply elem_of_app in Hy as [Hy|Hy%list_elem_of_singleton]; [|lia].
        specialize (C _ _ H0 _ Hy). lia.
    + assert (l = length (heap s)) as ->.
      { apply lookup_lt_Some in Hm. rewrite added_length in Hm. lia. }
      destruct (added_new _ _ _ _ _ _ _ Hm) as (_ & [Hr|Hr]); rewrite Hr in Hy.
      * by apply elem_of_nil in Hy.
      * apply list_elem_of_singleton in Hy as ->. lia.
  - destruct (editMessage s i x u e) as [[r s1]|] eqn:E; [|discriminate].
    intros [= <-]. destruct (editMessage_cases _ _ _ _ _ _ _ Hl E)
      as [->|(l & m & [_ Hm]%lookupMsg_Some & ->)]; [done|].
    simpl. by eapply closed_insert.
  - destruct (deleteMessage s i u) as [[r s1]|] eqn:E; [|discriminate].
    intros [= <-]. destruct (deleteMessage_cases _ _ _ _ _ Hl E)
      as [->|(l & m & [_ Hm]%lookupMsg_Some & ->)]; [done|].
    simpl. by eapply closed_insert.
  - destruct (getMessageThread s i) as [[r s1]|] eqn:E; [|discriminate].
    intros [= <-].
    apply getMessageThread_cases in E
      as [(_ & _ & ->)|(l & m & h2 & [_ Hm]%lookupMsg_Some & _ & Hp & ->)]; [done|].
    simpl. apply populateReplies_narrows in Hp as [Hlen N].
    intros j mj Hj y Hy. rewrite Hlen, length_app. simpl.
    destruct (N _ _ Hj) as (m0 & H0 & _ & Hsub).
    apply Hsub in Hy.
    apply lookup_snoc_Some in H0 as [[_ H0]|[_ <-]].
    + specialize (C _ _ H0 _ Hy). lia.
    + specialize (C _ _ Hm _ Hy). lia.
  - intros [= <-]. done.
Qed.

Lemma linked_step s o s' : wf s → linked s → step s o = Some s' → linked s'.
Proof.
  intros [Hl W] [N P]. destruct o as [u x rm p e|i x u e|i u|i|]; simpl.
  - destruct (addMessage s u x rm p e) as [[r s1]|] eqn:E; [|discriminate].
    intros [= <-]. apply addMessage_cases in E as [->|[-> Hp]]; [done|].
    split.
    + unfold releaseLock, added. cbn [messagesByRoom]. intros r' ids.
      rewrite lookup_insert. case_decide as Hr.
      * intros [= <-]. apply NoDup_setAdd.
        destruct (messagesByRoom s !! rm) as [ids0|] eqn:E0; simpl; [by eapply N|].
        apply NoDup_nil_2.
      * apply N.
    + intros i l m [Hi Hm]%lookupMsg_Some Ht.
      unfold releaseLock in Hi, Hm. cbn [heap messages] in Hi, Hm.
      assert (Hms : messages (added s u x rm p e)
                    = <[generateId (add_idNow e) (add_idRandom e) := length (heap s)]> (messages s))
        by reflexivity.
      rewrite Hms in Hi.
      unfold has, releaseLock. cbn [messages]. rewrite Hms.
      apply bool_decide_eq_true. apply has_insert.
      rewrite lookup_insert in Hi. case_decide as Hc.
      * injection Hi as <-. apply added_new in Hm as [Em _].
        rewrite Em in Ht. simpl in Ht. rewrite Em. simpl.
        specialize (Hp Ht). by apply bool_decide_eq_true in Hp.
      * destruct (W _ _ Hi) as (m0 & H0 & _).
        destruct (added_old s u x rm p e l m (lookup_lt_Some _ _ _ H0) Hm)
          as (m1 & H1 & Em & _).
        assert (m1 = m0) by congruence. subst m1.
        rewrite Em in Ht. simpl in Ht. rewrite Em. simpl.
        assert (E0 : lookupMsg s i = Some (l, m0)) by (by apply lookupMsg_Some).
        specialize (P _ _ _ E0 Ht). by apply bool_decide_eq_true in P.
  - destruct (editMessage s i x u e) as [[r s1]|] eqn:E; [|discriminate].
    intros [= <-]. destruct (editMessage_cases _ _ _ _ _ _ _ Hl E) as [->|(l & m & E0 & ->)]; [done|].
    split; [exact N|]. intros j lj mj [Hj Hmj]%lookupMsg_Some Ht. simpl in Hj, Hmj.
    pose proof E0 as [Hi Hm]%lookupMsg_Some.
    rewrite list_lookup_insert in Hmj. case_decide as Hc.
    + destruct Hc as [<- _]. injection Hmj as <-. simpl in *.
      apply (P j l m); [by apply lookupMsg_Some|done].
    + apply (P j lj mj); [by apply lookupMsg_Some|done].
  - destruct (deleteMessage s i u) as [[r s1]|] eqn:E; [|discriminate].
    intros [= <-]. destruct (deleteMessage_cases _ _ _ _ _ Hl E) as [->|(l & m & E0 & ->)]; [done|].
    split; [exact N|]. intros j lj mj [Hj Hmj]%lookupMsg_Some Ht. simpl in Hj, Hmj.
    pose proof E0 as [Hi Hm]%lookupMsg_Some.
    rewrite list_lookup_insert in Hmj. case_decide as Hc.
    + destruct Hc as [<- _]. injection Hmj as <-. simpl in *.
      apply (P j l m); [by apply lookupMsg_Some|done].
    + apply (P j lj mj); [by apply lookupMsg_Some|done].
  - destruct (getMessageThread s i) as [[r s1]|] eqn:E; [|discriminate].
    intros [= <-].
    apply getMessageThread_cases in E
      as [(_ & _ & ->)|(l & m & h2 & _ & _ & Hp & ->)]; [done|].
    split; [exact N|]. intros j lj mj [Hj Hmj]%lookupMsg_Some Ht. simpl in Hj, Hmj.
    apply populateReplies_narrows in Hp as [_ F].
    destruct (F _ _ Hmj) as (m0 & H0 & Em & _).
    destruct (W _ _ Hj) as (m1 & H1 & _).
    rewrite lookup_app_l in H0 by (eapply lookup_lt_Some, H1).
    rewrite Em in Ht. simpl in Ht. rewrite Em. simpl.
    apply (P j lj m0); [by apply lookupMsg_Some|done].
  - intros [= <-]. split.
    + intros r ids H. simpl in H. by rewrite lookup_empty in H.
    + intros i l m [H _]%lookupMsg_Some. simpl in H. by rewrite lookup_empty in H.
Qed.

Lemma reachable_linked s : reachable s → linked s ∧ closed (heap s).
Proof.
  induction 1 as [|s o s' R [L C] E].
  - split; [apply linked_new|apply closed_new].
  - pose proof (reachable_wf s R) as W. split.
    + eapply linked_step; eauto.
    + eapply closed_step; eauto.
Qed.

End MessageRepositoryInvariants.

Section MessageRepositoryClock.
Import MessageRepository.

Lemma positive_step s o s' :
  lock s = false → positive (heap s) → step s o = Some s' →
  (∀ t', clockOf o = Some t' → 0 < t') → positive (heap s').
Proof.
  intros Hl P. destruct o as [u x rm p e|i x u e|i u|i|]; simpl.
  - destruct (addMessage s u x rm p e) as [[r s1]|] eqn:E; [|discriminate].
    intros [= <-] Hc. apply addMessage_cases in E as [->|[-> _]]; [done|].
    unfold releaseLock. cbn [heap]. intros l m Hm.
    destruct (decide (l < length (heap s))%nat) as [Hlt|Hge].
    + destruct (added_old _ _ _ _ _ _ _ _ Hlt Hm) as (m0 & H0 & Em & _).
      rewrite Em. simpl. by apply (P l).
    + assert (l = length (heap s)) as ->.
      { apply lookup_lt_Some in Hm. rewrite added_length in Hm. lia. }
      destruct (added_new _ _ _ _ _ _ _ Hm) as (Em & _).
      rewrite Em. simpl. by apply Hc.
  - destruct (editMessage s i x u e) as [[r s1]|] eqn:E; [|discriminate].
    intros [= <-] Hc.
    destruct (editMessage_cases _ _ _ _ _ _ _ Hl E) as [->|(l & m & _ & ->)]; [done|].
    cbn [heap]. intros j mj. rewrite list_lookup_insert. case_decide as Hj.
    + intros [= <-]. simpl. by apply Hc.
    + apply P.
  - destruct (deleteMessage s i u) as [[r s1]|] eqn:E; [|discriminate].
    intros [= <-] Hc.
    destruct (deleteMessage_cases _ _ _ _ _ Hl E)
      as [->|(l & m & [_ Hm]%lookupMsg_Some & ->)]; [done|].
    cbn [heap]. intros j mj. rewrite list_lookup_insert. case_decide as Hj.
    + intros [= <-]. simpl. by apply (P l).
    + apply P.
  - destruct (getMessageThread s i) as [[r s1]|] eqn:E; [|discriminate].
    intros [= <-] Hc.
    apply getMessageThread_cases in E
      as [(_ & _ & ->)|(l & m & h2 & [_ Hm]%lookupMsg_Some & _ & Hp & ->)]; [done|].
    cbn [heap]. apply populateReplies_narrows in Hp as [_ N].
    intros j mj Hj. destruct (N _ _ Hj) as (m0 & H0 & Em & _).
    rewrite Em. simpl.
    apply lookup_snoc_Some in H0 as [[_ H0]|[_ <-]]; [by apply (P j)|by apply (P l)].
  - intros [= <-] _. done.
Qed.

Lemma timed_reachable t s : timed t s → reachable s.
Proof. induction 1; [constructor|econstructor; eauto]. Qed.

Lemma timed_clock t s : timed t s → 0 < t.
Proof.
  induction 1 as [|t s o s' T IH E Hc]; [done|].
  destruct (clockOf o) as [t'|]; simpl; [|done].
  specialize (Hc t' eq_refl). lia.
Qed.

Lemma timed_heap t s : timed t s → chronological t (heap s) ∧ positive (heap s).
Proof.
  induction 1 as [t Ht|t s o s' T [C P] E Hc].
  - split; intros l m H; simpl in H; by rewrite lookup_nil in H.
  - pose proof (timed_clock _ _ T) as Ht.
    pose proof (reachable_wf _ (timed_reachable _ _ T)) as [Hl _].
    split.
    + pose proof (chronological_step t s o s' C E) as C1.
      destruct (clockOf o) as [t'|]; simpl; [|done]. apply C1. by apply Hc.
    + eapply positive_step; eauto. intros t' Ho. specialize (Hc t' Ho). lia.
Qed.

Lemma omap_nil {A B} (f : A → option B) (l : list A) :
  (∀ x, x ∈ l → f x = None) → omap f l = [].
Proof.
  induction l as [|a l IH]; intros H; simpl; [done|].
  rewrite (H a) by apply list_elem_of_here. apply IH.
  intros x Hx. apply H. by apply list_elem_of_further.
Qed.

Lemma checkRep_releaseLock s : checkRep (releaseLock s) = checkRep s.
Proof. reflexivity. Qed.

Lemma checkRep_passes t s :
  wf s → linked s → chronological t (heap s) → positive (heap s) → checkRep s = None.
Proof.
  intros [_ W] [_ L] C P. unfold checkRep, violations. rewrite omap_nil; [done|].
  intros [i l] Hi%elem_of_map_to_list. simpl.
  destruct (W _ _ Hi) as (m & Hm & _). rewrite Hm. unfold checkMessage.
  pose proof (P _ _ Hm) as Hp. destruct (C _ _ Hm) as [Ho _].
  assert ((timestamp m <=? 0) = false) as -> by (apply Z.leb_gt; lia).
  assert (historyOrdered (editHistory m) = true) as ->.
  { apply historyOrdered_ordered. by apply ordered_prefix in Ho. }
  simpl. destruct (JS.truthyOpt (parentId m)) eqn:Et; [|done].
  rewrite (L i l m); [done| |done]. by apply lookupMsg_Some.
Qed.

Lemma timed_passes t s : timed t s → checkRep s = None.
Proof.
  intros T. pose proof (timed_reachable _ _ T) as R.
  destruct (timed_heap _ _ T) as [C P].
  eapply checkRep_passes; eauto using reachable_wf. by apply reachable_linked.
Qed.

Lemma finish_step {A} s (a : A) : ∃ r, finish s a = Some (r, releaseLock s).
Proof. unfold finish. destruct (checkRep s); eauto. Qed.

Lemma finish_passes {A} s (a : A) :
  checkRep (releaseLock s) = None → finish s a = Some (Ok a, releaseLock s).
Proof. unfold finish. rewrite checkRep_releaseLock. by intros ->. Qed.

(** X12: in a repository built under a positive clock that never runs
    backwards, [addMessage] with non-empty username, text and room, and a
    parent id that is absent or in the index, returns the new message: no
    invariant check fails. *)
Theorem addMessage_succeeds t s u x rm p e :
  timed t s → t ≤ add_now e →
  u ≠ EmptyString → x ≠ EmptyString → rm ≠ EmptyString →
  (JS.truthyOpt p = true → has s (default EmptyString p) = true) →
  ∃ s', addMessage s u x rm p e = Some (Ok (length (heap s)), s') ∧ timed (add_now e) s'.
Proof.
  intros T Ht Hu Hx Hrm Hp.
  pose proof (reachable_wf _ (timed_reachable _ _ T)) as [Hl _].
  assert (E : addMessage s u x rm p e = finish (added s u x rm p e) (length (heap s))).
  { unfold addMessage, added.
    rewrite (proj2 (truthy_nonempty u) Hu), (proj2 (truthy_nonempty x) Hx),
      (proj2 (truthy_nonempty rm) Hrm), Hl. simpl.
    destruct (JS.truthyOpt p) eqn:Et; [rewrite (Hp eq_refl)|]; reflexivity. }
  exists (releaseLock (added s u x rm p e)).
  assert (T' : timed (add_now e) (releaseLock (added s u x rm p e))).
  { apply (timed_step t s (OpAdd u x rm p e)); [done| |by intros t' [= <-]].
    simpl. rewrite E. destruct (finish_step (added s u x rm p e) (length (heap s))) as [r ->].
    reflexivity. }
  split; [|done]. rewrite E. apply finish_passes. eapply timed_passes, T'.
Qed.

(** X13: in such a repository, [editMessage] of a stored message that
    is not deleted, by its author and with a non-empty text, returns the
    message; [getMessage] then gives it with the new text, time and
    timestamp, marked edited, the previous version added to its history. *)
Theorem editMessage_succeeds t s i x e l m :
  timed t s → t ≤ edit_now e → lookupMsg s i = Some (l, m) → deleted m = false →
  x ≠ EmptyString →
  ∃ s', editMessage s i x (username m) e = Some (Ok (Some l), s') ∧ timed (edit_now e) s' ∧
        getMessage s' i = Some (applyEdit x (edit_newTime e) (edit_now e) m).
Proof.
  intros T Ht El D Hx.
  pose proof (reachable_wf _ (timed_reachable _ _ T)) as [Hl W].
  pose proof El as [Hi Hm]%lookupMsg_Some.
  destruct (W _ _ Hi) as (_ & _ & _ & Hne & _).
  set (s1 := mkRepo (<[l := applyEdit x (edit_newTime e) (edit_now e) m]> (heap s))
                    (messages s) (messagesByRoom s) true).
  assert (E : editMessage s i x (username m) e = finish s1 (Some l)).
  { unfold editMessage.
    rewrite (proj2 (truthy_nonempty i) Hne), (proj2 (truthy_nonempty x) Hx), Hl, El, D.
    simpl. by rewrite String.eqb_refl. }
  exists (releaseLock s1).
  assert (T' : timed (edit_now e) (releaseLock s1)).
  { apply (timed_step t s (OpEdit i x (username m) e)); [done| |by intros t' [= <-]].
    simpl. rewrite E. destruct (finish_step s1 (Some l)) as [r ->]. reflexivity. }
  split; [|split; [done|]].
  - rewrite E. apply finish_passes. eapply timed_passes, T'.
  - unfold getMessage, lookupMsg. simpl. rewrite Hi.
    rewrite list_lookup_insert_eq by (eapply lookup_lt_Some, Hm). reflexivity.
Qed.

(** X14: in such a repository, [deleteMessage] of a stored message by its
    author returns [true]; [getMessage] then gives the message marked
    deleted, with the placeholder text and everything else as before. *)
Theorem deleteMessage_succeeds t s i l m :
  timed t s → lookupMsg s i = Some (l, m) →
  ∃ s', deleteMessage s i (username m) = Some (Ok true, s') ∧ timed t s' ∧
        getMessage s' i = Some (applyDelete m).
Proof.
  intros T El.
  pose proof (reachable_wf _ (timed_reachable _ _ T)) as [Hl W].
  pose proof El as [Hi Hm]%lookupMsg_Some.
  destruct (W _ _ Hi) as (_ & _ & _ & Hne & _).
  set (s1 := mkRepo (<[l := applyDelete m]> (heap s)) (messages s) (messagesByRoom s) true).
  assert (E : deleteMessage s i (username m) = finish s1 true).
  { unfold deleteMessage. rewrite (proj2 (truthy_nonempty i) Hne), Hl, El.
    simpl. by rewrite String.eqb_refl. }
  exists (releaseLock s1).
  assert (T' : timed t (releaseLock s1)).
  { apply (timed_step t s (OpDelete i (username m))); [done| |by intros t' [=]].
    simpl. rewrite E. destruct (finish_step s1 true) as [r ->]. reflexivity. }
  split; [|split; [done|]].
  - rewrite E. apply finish_passes. eapply timed_passes, T'.
  - unfold getMessage, lookupMsg. simpl. rewrite Hi.
    rewrite list_lookup_insert_eq by (eapply lookup_lt_Some, Hm). reflexivity.
Qed.

End MessageRepositoryClock.

Section MessageRepositoryListing.
Import MessageRepository.

Lemma insertBy_perm key x l : insertBy key x l ≡ₚ x :: l.
Proof.
  induction l as [|y l IH]; simpl; [done|].
  destruct (key x <=? key y); [done|]. rewrite IH. apply Permutation_swap.
Qed.

Lemma sortBy_perm key l : sortBy key l ≡ₚ l.
Proof.
  unfold sortBy. induction l as [|x l IH]; simpl; [done|].
  rewrite insertBy_perm. by rewrite IH.
Qed.

Lemma NoDup_omap {A B} (f : A → option B) (l : list A) :
  NoDup l →
  (∀ x y z, x ∈ l → y ∈ l → f x = Some z → f y = Some z → x = y) →
  NoDup (omap f l).
Proof.
  induction 1 as [|a l Ha N IH]; intros Hinj; simpl; [apply NoDup_nil_2|].
  assert (IH' : NoDup (omap f l)).
  { apply IH. intros x y z Hx Hy. apply Hinj; by apply list_elem_of_further. }
  destruct (f a) as [b|] eqn:E; [|done].
  apply NoDup_cons. split; [|done].
  intros (y & Hy & Ey)%list_elem_of_omap.
  assert (a = y) as ->; [|done].
  eapply Hinj; eauto using list_elem_of_here, list_elem_of_further.
Qed.

(** X7: in every repository that calls can produce, no message occurs
    twice in the listing of a room. *)
Theorem getMessagesForRoom_NoDup s rm : reachable s → NoDup (getMessagesForRoom s rm).
Proof.
  intros R. pose proof (reachable_wf _ R) as [_ W].
  destruct (reachable_linked _ R) as [[N _] _].
  unfold getMessagesForRoom. destruct (messagesByRoom s !! rm) as [ids|] eqn:E;
    [|apply NoDup_nil_2].
  rewrite sortBy_perm. apply NoDup_omap; [by eapply N|].
  intros x y z _ _ Hx Hy.
  destruct (lookupMsg s x) as [[lx mx]|] eqn:Ex; [|discriminate].
  destruct (lookupMsg s y) as [[ly my]|] eqn:Ey; [|discriminate].
  destruct (deleted mx); [discriminate|]. destruct (deleted my); [discriminate|].
  injection Hx as ->. injection Hy as ->.
  apply lookupMsg_Some in Ex as [Hx Hmx]. apply lookupMsg_Some in Ey as [Hy Hmy].
  destruct (W _ _ Hx) as (m1 & H1 & I1 & _). destruct (W _ _ Hy) as (m2 & H2 & I2 & _).
  congruence.
Qed.

(** X8: a successful [deleteMessage] removes that message from the
    listing of every room, and nothing else. *)
Theorem deleteMessage_unlists s i u s' l m rm x :
  deleteMessage s i u = Some (Ok true, s') → lookupMsg s i = Some (l, m) →
  x ∈ getMessagesForRoom s' rm ↔ x ∈ getMessagesForRoom s rm ∧ x ≠ l.
Proof.
  intros (l0 & m0 & E0 & _ & _ & ->)%deleteMessage_success El.
  assert (l0 = l ∧ m0 = m) as [-> ->] by (split; congruence).
  apply lookupMsg_Some in El as [Hi Hm].
  rewrite !getMessagesForRoom_elem. simpl. split.
  - intros (ids & j & mj & Hr & Hj & [Hjl Hjm]%lookupMsg_Some & D). simpl in Hjl, Hjm.
    rewrite list_lookup_insert in Hjm. case_decide as Hc.
    + injection Hjm as <-. discriminate.
    + split; [|intros ->; apply Hc; split; [done|eapply lookup_lt_Some, Hm]].
      exists ids, j, mj. split; [done|]. split; [done|]. split; [|done].
      by apply lookupMsg_Some.
  - intros [(ids & j & mj & Hr & Hj & [Hjl Hjm]%lookupMsg_Some & D) Hx].
    exists ids, j, mj. split; [done|]. split; [done|]. split; [|done].
    apply lookupMsg_Some. simpl. split; [done|].
    rewrite list_lookup_insert_ne; done.
Qed.

End MessageRepositoryListing.


Section MessageRepositoryTermination.
Import MessageRepository.

Lemma up_sub h h' x :
  length h' = length h →
  (∀ l m', h' !! l = Some m' → ∃ m, h !! l = Some m ∧ replies m' ⊆ replies m) →
  up h x → up h' x.
Proof.
  intros Hlen Hsub (mx & Hx & Hup).
  destruct (lookup_lt_is_Some_2 h' x) as [mx' Hx'].
  { rewrite Hlen. by eapply lookup_lt_Some. }
  exists mx'. split; [done|]. intros y Hy.
  destruct (Hsub _ _ Hx') as (m0 & H0 & S0).
  assert (m0 = mx) by congruence. subst m0. apply Hup. by apply S0.
Qed.

Lemma forest_sub h h' :
  length h' = length h →
  (∀ l m', h' !! l = Some m' → ∃ m, h !! l = Some m ∧ replies m' ⊆ replies m) →
  forest h → forest h'.
Proof.
  intros Hlen Hsub F l m' Hm' x Hx.
  destruct (Hsub _ _ Hm') as (m & Hm & S0).
  eapply up_sub; eauto.
Qed.

Lemma narrows_sub h h' :
  narrows h h' →
  ∀ l m', h' !! l = Some m' → ∃ m, h !! l = Some m ∧ replies m' ⊆ replies m.
Proof. intros [_ N] l m' H. destruct (N _ _ H) as (m & Hm & _ & S0). eauto. Qed.

Lemma insert_sub (h : list Message) l m m' :
  h !! l = Some m → replies m' = replies m →
  ∀ j mj', <[l := m']> h !! j = Some mj' → ∃ mj, h !! j = Some mj ∧ replies mj' ⊆ replies mj.
Proof.
  intros Hm Hr j mj'. rewrite list_lookup_insert. case_decide as Hc.
  - destruct Hc as [<- _]. intros [= <-]. exists m. by rewrite Hr.
  - intros H. by exists mj'.
Qed.

Lemma forest_new : forest (heap newRepo).
Proof. intros l m H. simpl in H. by rewrite lookup_nil in H. Qed.

(** With a fresh id the new object is stored as it was built. *)
Lemma added_new_fresh s u t rm p e :
  wf s →
  has s (generateId (add_idNow e) (add_idRandom e)) = false →
  (JS.truthyOpt p = true → has s (default EmptyString p) = true) →
  heap (added s u t rm p e) !! length (heap s)
  = Some (mkMessage (generateId (add_idNow e) (add_idRandom e)) u t (add_time e) (add_now e)
                    rm false [] false p []).
Proof.
  intros [_ W] Hf Hp. unfold added. simpl.
  set (message := mkMessage _ u t _ _ rm false [] false p []).
  assert (Hnew : (heap s ++ [message]) !! length (heap s) = Some message).
  { apply lookup_snoc_Some. auto. }
  destruct (JS.truthyOpt p); [|exact Hnew].
  specialize (Hp eq_refl).
  rewrite lookup_insert. case_decide as Hc.
  - unfold has in Hf, Hp. rewrite Hc in Hf. congruence.
  - destruct (messages s !! default "" p) as [lp|] eqn:E; [|exact Hnew].
    rewrite list_lookup_alter. case_decide as Hd; [|exact Hnew].
    subst lp. destruct (W _ _ E) as (m & Hm & _).
    apply lookup_lt_Some in Hm. lia.
Qed.

Lemma forest_step s o s' :
  wf s → forest (heap s) → freshId s o → step s o = Some s' → forest (heap s').
Proof.
  intros W F. pose proof W as [Hl _].
  destruct o as [u x rm p e|i x u e|i u|i|]; simpl; intros Hf.
  - destruct (addMessage s u x rm p e) as [[r s1]|] eqn:E; [|discriminate].
    intros [= <-]. apply addMessage_cases in E as [->|[-> Hp]]; [done|].
    unfold releaseLock. cbn [heap].
    pose proof (added_new_fresh s u x rm p e W Hf Hp) as Hnew.
    assert (Hup : ∀ y, up (heap s) y → up (heap (added s u x rm p e)) y).
    { intros y (my & Hy & Hup).
      destruct (lookup_lt_is_Some_2 (heap (added s u x rm p e)) y) as [my' Hy'].
      { rewrite added_length. apply lookup_lt_Some in Hy. lia. }
      exists my'. split; [done|].
      destruct (added_old _ _ _ _ _ _ _ _ (lookup_lt_Some _ _ _ Hy) Hy')
        as (m0 & H0 & _ & [Hr|Hr]); rewrite Hr;
        assert (m0 = my) by congruence; subst m0; [done|].
      intros z [Hz|Hz%list_elem_of_singleton]%elem_of_app; [by apply Hup|].
      apply lookup_lt_Some in Hy. lia. }
    intros l m Hm y Hy.
    destruct (decide (l < length (heap s))%nat) as [Hlt|Hge].
    + destruct (added_old _ _ _ _ _ _ _ _ Hlt Hm) as (m0 & H0 & _ & [Hr|Hr]);
        rewrite Hr in Hy.
      * apply Hup. by apply (F l m0).
      * apply elem_of_app in Hy as [Hy|Hy%list_elem_of_singleton];
          [apply Hup; by apply (F l m0)|].
        subst y. eexists. split; [exact Hnew|]. simpl. intros z Hz.
        by apply elem_of_nil in Hz.
    + assert (l = length (heap s)) as ->.
      { apply lookup_lt_Some in Hm. rewrite added_length in Hm. lia. }
      rewrite Hnew in Hm. injection Hm as <-. by apply elem_of_nil in Hy.
  - destruct (editMessage s i x u e) as [[r s1]|] eqn:E; [|discriminate].
    intros [= <-].
    destruct (editMessage_cases _ _ _ _ _ _ _ Hl E)
      as [->|(l & m & [_ Hm]%lookupMsg_Some & ->)]; [done|].
    cbn [heap]. eapply forest_sub; [apply length_insert| |exact F].
    by eapply insert_sub.
  - destruct (deleteMessage s i u) as [[r s1]|] eqn:E; [|discriminate].
    intros [= <-].
    destruct (deleteMessage_cases _ _ _ _ _ Hl E)
      as [->|(l & m & [_ Hm]%lookupMsg_Some & ->)]; [done|].
    cbn [heap]. eapply forest_sub; [apply length_insert| |exact F].
    by eapply insert_sub.
  - destruct (getMessageThread s i) as [[r s1]|] eqn:E; [|discriminate].
    intros [= <-].
    apply getMessageThread_cases in E
      as [(_ & _ & ->)|(l & m & h2 & [_ Hm]%lookupMsg_Some & _ & Hp & ->)]; [done|].
    cbn [heap]. apply populateReplies_narrows in Hp.
    eapply forest_sub; [apply Hp|by apply narrows_sub|].
    assert (Hup : ∀ y, up (heap s) y → up (heap s ++ [m]) y).
    { intros y (my & Hy & Hup). exists my. split; [|done].
      rewrite lookup_app_l by (eapply lookup_lt_Some, Hy). done. }
    intros j mj [[_ Hj]|[_ <-]]%lookup_snoc_Some y Hy; apply Hup.
    + by apply (F j mj).
    + by apply (F l m).
  - intros [= <-]. done.
Qed.

Lemma built_reachable s : built s → reachable s.
Proof. induction 1; [constructor|econstructor; eauto]. Qed.

Lemma built_forest s : built s → forest (heap s).
Proof.
  induction 1 as [|s o s' B F Hf E]; [apply forest_new|].
  eapply forest_step; eauto. apply reachable_wf. by apply built_reachable.
Qed.

Lemma foldlM_returns {A B} (P : A → Prop) (f : A → B → option A) (l : list B) :
  ∀ a, P a → (∀ a b, P a → b ∈ l → ∃ a', f a b = Some a' ∧ P a') →
       ∃ a', foldlM f a l = Some a' ∧ P a'.
Proof.
  induction l as [|b l IH]; simpl; intros a Ha Hf; [eauto|].
  destruct (Hf a b Ha) as (a1 & -> & Ha1); [apply list_elem_of_here|].
  apply IH; [done|]. intros a2 b2 Ha2 Hb2. apply Hf; [done|by apply list_elem_of_further].
Qed.

(** The fuel [k] is enough at an object whose replies lie less than [k]
    below the end of the heap. *)
Lemma calculateDepth_returns h :
  forest h →
  ∀ k l m, h !! l = Some m → (0 < k)%nat →
           (∀ y, y ∈ replies m → (length h < y + k)%nat) →
           is_Some (calculateDepth k h l).
Proof.
  intros F. induction k as [|k IH]; intros l m Hm Hk Hy; [lia|].
  simpl. rewrite Hm.
  destruct (foldlM_returns (fun _ => True)
              (fun maxDepth reply =>
                 if negb (isDeleted h reply)
                 then match calculateDepth k h reply with
                      | Some depth => Some (Z.max maxDepth depth)
                      | None => None
                      end
                 else Some maxDepth) (replies m) 0 I) as (d & Hd & _);
    [|revert Hd; destruct (replies m) as [|r rs]; [eauto|]; intros ->; simpl; eauto].
  intros a y _ Hin. destruct (negb (isDeleted h y)); [|eauto].
  destruct (F _ _ Hm _ Hin) as (my & Hmy & Hup).
  specialize (Hy _ Hin). pose proof (lookup_lt_Some _ _ _ Hmy) as Hlt.
  destruct (IH y my Hmy) as [d ->]; [lia| |eauto].
  intros z Hz. specialize (Hup _ Hz). lia.
Qed.

Lemma searchRecursive_returns h kw :
  forest h →
  ∀ k results l m, h !! l = Some m → (0 < k)%nat →
           (∀ y, y ∈ replies m → (length h < y + k)%nat) →
           is_Some (searchRecursive k h kw results l).
Proof.
  intros F. induction k as [|k IH]; intros results l m Hm Hk Hy; [lia|].
  simpl. rewrite Hm.
  set (results1 := if JS.includes _ _ then _ else _).
  destruct (foldlM_returns (fun _ => True)
              (fun res reply =>
                 if negb (isDeleted h reply)
                 then searchRecursive k h kw res reply
                 else Some res) (replies m) results1 I) as (d & -> & _); [|eauto].
  intros a y _ Hin. destruct (negb (isDeleted h y)); [|eauto].
  destruct (F _ _ Hm _ Hin) as (my & Hmy & Hup).
  specialize (Hy _ Hin). pose proof (lookup_lt_Some _ _ _ Hmy) as Hlt.
  destruct (IH a y my Hmy) as [d ->]; [lia| |eauto].
  intros z Hz. specialize (Hup _ Hz). lia.
Qed.

Lemma populateReplies_returns :
  ∀ k h l m, forest h → h !! l = Some m → (0 < k)%nat →
             (∀ y, y ∈ replies m → (length h < y + k)%nat) →
             is_Some (populateReplies k h l).
Proof.
  induction k as [|k IH]; intros h l m F Hm Hk Hy; [lia|].
  simpl. rewrite Hm.
  set (kept := List.filter (fun reply => negb (isDeleted h reply)) (replies m)).
  destruct (foldlM_returns (narrows h) (populateReplies k) kept h (narrows_refl h))
    as (h' & Hd & _);
    [|revert Hd; subst kept; destruct (replies m) as [|r rs]; [eauto|];
      intros ->; simpl; eauto].
  intros h1 y N Hin.
  assert (Hin' : y ∈ replies m) by (eapply filter_subseteq, Hin).
  pose proof (F _ _ Hm _ Hin') as U.
  pose proof N as [Hlen _].
  apply (up_sub h h1) in U as (my & Hmy & Hup); [|done|by apply narrows_sub].
  specialize (Hy _ Hin'). pose proof (lookup_lt_Some _ _ _ Hmy) as Hlt.
  destruct (IH h1 y my) as [h2 E]; [|done|lia| |].
  - eapply forest_sub; [exact Hlen|by apply narrows_sub|exact F].
  - intros z Hz. specialize (Hup _ Hz). lia.
  - exists h2. split; [done|]. eapply narrows_trans; [exact N|].
    eapply populateReplies_narrows, E.
Qed.

(** X15: in a repository built by calls whose generated ids are new,
    [getThreadDepth] returns on every id: the replies form a forest, so the
    recursion ends; the result is -1 exactly for an id that is not in the
    index, and not negative otherwise. *)
Theorem getThreadDepth_returns s i :
  built s →
  ∃ d, getThreadDepth s i = Some d ∧
       ((lookupMsg s i = None ∧ d = -1) ∨ (is_Some (lookupMsg s i) ∧ 0 ≤ d)).
Proof.
  intros B. pose proof (built_forest _ B) as F. unfold getThreadDepth.
  destruct (lookupMsg s i) as [[l m]|] eqn:E; [|eauto].
  apply lookupMsg_Some in E as [_ Hm].
  destruct (calculateDepth_returns (heap s) F (S (length (heap s))) l m Hm) as [d Hd];
    [lia|intros y _; lia|].
  exists d. split; [done|]. right. split; [eauto|]. by eapply calculateDepth_nonneg.
Qed.

(** X16: in such a repository [getMessageThread] returns on every id. *)
Theorem getMessageThread_returns s i : built s → is_Some (getMessageThread s i).
Proof.
  intros B. pose proof (built_forest _ B) as F. unfold getMessageThread.
  destruct (lookupMsg s i) as [[l m]|] eqn:E; [|eauto].
  apply lookupMsg_Some in E as [_ Hm].
  destruct (populateReplies_returns (S (length (heap s ++ [m]))) (heap s ++ [m])
              (length (heap s)) m) as [h2 ->]; [| |lia| |eauto].
  - assert (Hup : ∀ y, up (heap s) y → up (heap s ++ [m]) y).
    { intros y (my & Hy & Hup). exists my. split; [|done].
      rewrite lookup_app_l by (eapply lookup_lt_Some, Hy). done. }
    intros j mj [[_ Hj]|[_ <-]]%lookup_snoc_Some y Hy; apply Hup.
    + by apply (F j mj).
    + by apply (F l m).
  - apply lookup_snoc_Some. auto.
  - intros y _. lia.
Qed.

(** X17: in such a repository [searchMessages] returns on every keyword
    and room. *)
Theorem searchMessages_returns s keyword rm : built s → is_Some (searchMessages s keyword rm).
Proof.
  intros B. pose proof (built_forest _ B) as F. unfold searchMessages.
  destruct (foldlM_returns (fun _ => True)
              (searchRecursive (S (length (heap s))) (heap s) (JS.toLowerCase keyword))
              (getMessagesForRoom s rm) [] I) as (res & -> & _); [|eauto].
  intros results l _ Hin.
  apply getMessagesForRoom_elem in Hin as (ids & j & m & _ & _ & [_ Hm]%lookupMsg_Some & _).
  destruct (searchRecursive_returns (heap s) (JS.toLowerCase keyword) F
              (S (length (heap s))) results l m Hm) as [res ->]; [lia| |eauto].
  intros y _. lia.
Qed.

End MessageRepositoryTermination.

Section MessageRepositoryThread.
Import MessageRepository.



End MessageRepositoryThread.

Section MessageRepositoryReceipts.
Import MessageRepository.

Lemma incrementReadReceipt_count s counts i n s' counts' x :
  incrementReadReceipt s counts i = Some (n, (s', counts')) →
  n = getReadReceiptCount counts i + 1 ∧ lock s' = false ∧
  getReadReceiptCount counts' x
  = getReadReceiptCount counts x + (if String.eqb x i then 1 else 0).
Proof.
  unfold incrementReadReceipt, getReadReceiptCount. destruct (lock s); [discriminate|].
  intros [= <- <- <-]. split; [done|]. split; [done|].
  rewrite lookup_insert. destruct (String.eqb_spec x i) as [->|Hne].
  - rewrite decide_True by done. done.
  - rewrite decide_False by done. lia.
Qed.

(** X19: a sequence of [incrementReadReceipt] calls raises the count of
    every message id by the number of calls made for it, and leaves the
    other counts as they are. *)
Theorem incrementAll_counts ids :
  ∀ s counts, lock s = false →
    ∃ s' counts', incrementAll s counts ids = Some (s', counts') ∧ lock s' = false ∧
      ∀ x, getReadReceiptCount counts' x = getReadReceiptCount counts x + occurrences x ids.
Proof.
  induction ids as [|i ids IH]; intros s counts Hl; simpl.
  - exists s, counts. split; [done|]. split; [done|]. intros x. unfold occurrences. simpl. lia.
  - destruct (incrementReadReceipt s counts i) as [[n [s1 counts1]]|] eqn:E.
    + destruct (IH s1 counts1) as (s' & counts' & -> & Hl' & Hc).
      { by destruct (incrementReadReceipt_count _ _ _ _ _ _ i E) as (_ & ? & _). }
      exists s', counts'. split; [done|]. split; [done|]. intros x. rewrite Hc.
      destruct (incrementReadReceipt_count _ _ _ _ _ _ x E) as (_ & _ & ->).
      unfold occurrences. simpl. destruct (String.eqb x i); simpl; lia.
    + unfold incrementReadReceipt in E. rewrite Hl in E. discriminate.
Qed.

End MessageRepositoryReceipts.

Section MessageRepositoryInstances.
Import MessageRepository.

Lemma run_built ops : ∀ s s', built s → freshRun s ops → run s ops = Some s' → built s'.
Proof.
  unfold run. induction ops as [|o ops IH]; simpl; intros s s' B.
  - intros _ [= <-]. done.
  - intros [Hf Hr]. destruct (step s o) as [s1|] eqn:E; [|done].
    apply IH; [|done]. eapply built_step; eauto.
Qed.

Lemma rootAndReply_reachable : reachable (Scenarios.after Scenarios.rootAndReply).
Proof. apply (run_reachable Scenarios.rootAndReply newRepo); [constructor|reflexivity]. Qed.

Lemma rootAndReply_built : built (Scenarios.after Scenarios.rootAndReply).
Proof.
  apply (run_built Scenarios.rootAndReply newRepo); [constructor| |reflexivity].
  vm_compute. repeat split.
Qed.

Lemma oneMessage_timed : timed 1 (Scenarios.after Scenarios.oneMessage).
Proof.
  apply (timed_step 1 newRepo (Scenarios.add 1 "alice" "Version 1" None));
    [by constructor|reflexivity|].
  intros t' [= <-]. lia.
Qed.

Lemma addMessage_then_getMessage_witness :
  ∃ m, getMessage (Scenarios.after Scenarios.oneMessage) (Scenarios.idOf 1) = Some m ∧
       username m = "alice" ∧ text m = "Version 1" ∧ deleted m = false.
Proof.
  destruct (addMessage_then_getMessage newRepo "alice" "Version 1" "room1" None
              (mkAddEnv 1 1 "x" "1:00 pm") 0%nat (Scenarios.after Scenarios.oneMessage))
    as (m & G & _ & _ & Hu & Ht & _ & _ & _ & _ & _ & Hd & _); [vm_compute; reflexivity|].
  exists m. auto.
Defined.

Lemma editMessage_after_delete_witness :
  editMessage (Scenarios.after Scenarios.deletedMessage) (Scenarios.idOf 1) "Hello again"
              "alice" (mkEditEnv "1:05 pm" 5)
  = Some (Throw "Precondition violated: cannot edit deleted message",
          Scenarios.after Scenarios.deletedMessage).
Proof.
  apply (editMessage_after_delete (Scenarios.after [Scenarios.add 1 "alice" "Hello" None])
           (Scenarios.idOf 1) "alice"); [vm_compute; reflexivity|discriminate].
Defined.

Lemma deleteMessage_twice_witness :
  deleteMessage (Scenarios.after Scenarios.deletedMessage) (Scenarios.idOf 1) "alice"
  = Some (Ok true, Scenarios.after Scenarios.deletedMessage).
Proof.
  apply (deleteMessage_twice (Scenarios.after [Scenarios.add 1 "alice" "Hello" None])
           (Scenarios.idOf 1) "alice"). vm_compute; reflexivity.
Defined.

Lemma getThreadDepth_above_reply_witness :
  ∃ dr, getThreadDepth (Scenarios.after Scenarios.rootAndReply) (Scenarios.idOf 2) = Some dr ∧
        dr + 1 ≤ 1.
Proof.
  eapply (getThreadDepth_above_reply (Scenarios.after Scenarios.rootAndReply)
            (Scenarios.idOf 1) (Scenarios.idOf 2) 0%nat _ 1%nat _ 1).
  - vm_compute; reflexivity.
  - vm_compute; reflexivity.
  - simpl. apply list_elem_of_here.
  - reflexivity.
  - vm_compute; reflexivity.
Defined.

Lemma searchMessages_sound_witness :
  ∃ m, heap (Scenarios.after Scenarios.rootAndReply) !! 1%nat = Some m ∧
       matchesKeyword "REPLY" m = true ∧ deleted m = false.
Proof.
  apply (searchMessages_sound (Scenarios.after Scenarios.rootAndReply) "REPLY" "room1"
           [1%nat; 1%nat]); [vm_compute; reflexivity|apply list_elem_of_here].
Defined.


Lemma addMessage_succeeds_witness :
  ∃ s', addMessage (Scenarios.after Scenarios.oneMessage) "bob" "Reply" "room1"
                   (Some (Scenarios.idOf 1)) (mkAddEnv 2 2 "x" "1:00 pm")
        = Some (Ok 1%nat, s') ∧ timed 2 s'.
Proof.
  apply (addMessage_succeeds 1 (Scenarios.after Scenarios.oneMessage) "bob" "Reply" "room1"
           (Some (Scenarios.idOf 1)) (mkAddEnv 2 2 "x" "1:00 pm") oneMessage_timed);
    [simpl; lia|discriminate..|].
  intros _. vm_compute; reflexivity.
Defined.

Lemma editMessage_succeeds_witness :
  ∃ s', editMessage (Scenarios.after Scenarios.oneMessage) (Scenarios.idOf 1) "Version 2"
                    "alice" (mkEditEnv "1:01 pm" 11)
        = Some (Ok (Some 0%nat), s') ∧ timed 11 s' ∧
        getMessage s' (Scenarios.idOf 1)
        = Some (mkMessage "1-x" "alice" "Version 2" "1:01 pm" 11 "room1" true
                          [mkEdit "Version 1" 1 "1:00 pm"] false None []).
Proof.
  apply (editMessage_succeeds 1 (Scenarios.after Scenarios.oneMessage) (Scenarios.idOf 1)
           "Version 2" (mkEditEnv "1:01 pm" 11) 0%nat
           (mkMessage "1-x" "alice" "Version 1" "1:00 pm" 1 "room1" false [] false None [])
           oneMessage_timed); [simpl; lia|vm_compute; reflexivity|reflexivity|discriminate].
Defined.

Lemma deleteMessage_succeeds_witness :
  ∃ s', deleteMessage (Scenarios.after Scenarios.oneMessage) (Scenarios.idOf 1) "alice"
        = Some (Ok true, s') ∧ timed 1 s' ∧
        getMessage s' (Scenarios.idOf 1)
        = Some (mkMessage "1-x" "alice" "[Message deleted]" "1:00 pm" 1 "room1" false
                          [] true None []).
Proof.
  apply (deleteMessage_succeeds 1 (Scenarios.after Scenarios.oneMessage) (Scenarios.idOf 1)
           0%nat
           (mkMessage "1-x" "alice" "Version 1" "1:00 pm" 1 "room1" false [] false None [])
           oneMessage_timed). vm_compute; reflexivity.
Defined.

Lemma getMessagesForRoom_NoDup_witness :
  NoDup (getMessagesForRoom (Scenarios.after Scenarios.rootAndReply) "room1").
Proof. exact (getMessagesForRoom_NoDup _ "room1" rootAndReply_reachable). Defined.

Lemma deleteMessage_unlists_witness :
  (1%nat : loc) ∈ getMessagesForRoom (Scenarios.after Scenarios.onlyReplyDeleted) "room1" ↔
  (1%nat : loc) ∈ getMessagesForRoom (Scenarios.after Scenarios.rootAndReply) "room1" ∧
  1%nat ≠ 1%nat.
Proof.
  eapply (deleteMessage_unlists (Scenarios.after Scenarios.rootAndReply) (Scenarios.idOf 2)
            "bob" (Scenarios.after Scenarios.onlyReplyDeleted) 1%nat _ "room1" 1%nat);
    vm_compute; reflexivity.
Defined.

Lemma getThreadDepth_returns_witness :
  ∃ d, getThreadDepth (Scenarios.after Scenarios.rootAndReply) (Scenarios.idOf 1) = Some d ∧
       ((lookupMsg (Scenarios.after Scenarios.rootAndReply) (Scenarios.idOf 1) = None ∧ d = -1) ∨
        (is_Some (lookupMsg (Scenarios.after Scenarios.rootAndReply) (Scenarios.idOf 1)) ∧
         0 ≤ d)).
Proof. exact (getThreadDepth_returns _ (Scenarios.idOf 1) rootAndReply_built). Defined.

Lemma getMessageThread_returns_witness :
  is_Some (getMessageThread (Scenarios.after Scenarios.rootAndReply) (Scenarios.idOf 1)).
Proof. exact (getMessageThread_returns _ _ rootAndReply_built). Defined.

Lemma searchMessages_returns_witness :
  is_Some (searchMessages (Scenarios.after Scenarios.rootAndReply) "reply" "room1").
Proof. exact (searchMessages_returns _ _ _ rootAndReply_built). Defined.


Lemma incrementAll_counts_witness :
  ∃ s' counts', incrementAll newRepo ∅ ["1-x"; "2-x"; "1-x"] = Some (s', counts') ∧
    lock s' = false ∧
    ∀ x, getReadReceiptCount counts' x
         = getReadReceiptCount ∅ x + occurrences x ["1-x"; "2-x"; "1-x"].
Proof. exact (incrementAll_counts ["1-x"; "2-x"; "1-x"] newRepo ∅ eq_refl). Defined.

End MessageRepositoryInstances.

Section MessageRepositoryLocal.
Import MessageRepository.

Lemma getMessage_insert_other s l m' i j :
  wf s → messages s !! i = Some l → j ≠ i →
  getMessage (mkRepo (<[l := m']> (heap s)) (messages s) (messagesByRoom s) false) j
  = getMessage s j.
Proof.
  intros [_ W] Hi Hne. unfold getMessage, lookupMsg. simpl.
  destruct (messages s !! j) as [lj|] eqn:Hj; [|done].
  rewrite list_lookup_insert_ne; [done|]. intros <-.
  destruct (W _ _ Hi) as (m1 & H1 & I1 & _). destruct (W _ _ Hj) as (m2 & H2 & I2 & _).
  congruence.
Qed.

(** X20: editing or deleting a message changes no other message: after
    [editMessage] or [deleteMessage] on an id, whatever the outcome,
    [getMessage] of every other id returns what it returned before. *)
Theorem mutations_local s :
  reachable s →
  (∀ i t u e r s', editMessage s i t u e = Some (r, s') →
                   ∀ j, j ≠ i → getMessage s' j = getMessage s j) ∧
  (∀ i u r s', deleteMessage s i u = Some (r, s') →
               ∀ j, j ≠ i → getMessage s' j = getMessage s j).
Proof.
  intros R. pose proof (reachable_wf _ R) as W. pose proof W as [Hl _]. split.
  - intros i t u e r s' E j Hj.
    destruct (editMessage_cases _ _ _ _ _ _ _ Hl E)
      as [->|(l & m & [Hi _]%lookupMsg_Some & ->)]; [done|].
    by eapply getMessage_insert_other.
  - intros i u r s' E j Hj.
    destruct (deleteMessage_cases _ _ _ _ _ Hl E)
      as [->|(l & m & [Hi _]%lookupMsg_Some & ->)]; [done|].
    by eapply getMessage_insert_other.
Qed.

Lemma mutations_local_witness :
  getMessage (Scenarios.after Scenarios.onlyReplyDeleted) (Scenarios.idOf 1)
  = getMessage (Scenarios.after Scenarios.rootAndReply) (Scenarios.idOf 1).
Proof.
  apply (proj2 (mutations_local (Scenarios.after Scenarios.rootAndReply) rootAndReply_reachable)
           (Scenarios.idOf 2) "bob" (Ok true) (Scenarios.after Scenarios.onlyReplyDeleted)).
  - vm_compute; reflexivity.
  - discriminate.
Defined.

End MessageRepositoryLocal.

(** * Further properties of the command parser *)

Section CommandParserExpressions.
Import CommandParser.

Lemma string_app_cons c (a b : string) : String c a +:+ b = String c (a +:+ b).
Proof. reflexivity. Qed.

Lemma string_app_nil (b : string) : EmptyString +:+ b = b.
Proof. reflexivity. Qed.

Lemma string_get_app pre suf :
  String.get (String.length pre) (pre +:+ suf) = String.get 0 suf.
Proof. induction pre as [|a pre IH]; [done|]. rewrite string_app_cons. exact IH. Qed.

Lemma string_length_app (a b : string) :
  String.length (a +:+ b) = (String.length a + String.length b)%nat.
Proof.
  induction a as [|c a IH]; [done|]. rewrite string_app_cons. simpl. by rewrite IH.
Qed.

Lemma string_app_assoc (a b c : string) : (a +:+ b) +:+ c = a +:+ (b +:+ c).
Proof.
  induction a as [|x a IH]; [done|]. rewrite !string_app_cons. by rewrite IH.
Qed.

Lemma string_app_empty (a : string) : a +:+ EmptyString = a.
Proof. induction a as [|x a IH]; [done|]. rewrite string_app_cons. by rewrite IH. Qed.

Lemma string_snoc_app pre c s : pre +:+ String c s = (pre +:+ String c EmptyString) +:+ s.
Proof. by rewrite string_app_assoc. Qed.

Lemma string_get_end pre : String.get (String.length pre) pre = None.
Proof.
  pose proof (string_get_app pre EmptyString) as G. by rewrite string_app_empty in G.
Qed.

(** The digit loop stops after the longest run of digits. *)
Lemma skipDigits_run suf :
  ∀ pre fuel, (String.length suf ≤ fuel)%nat →
    ∃ ds rest, suf = ds +:+ rest ∧ noDigitAhead rest ∧
               (ds = EmptyString ∨ Number ds) ∧
               skipDigits (pre +:+ suf) fuel (String.length pre) = String.length (pre +:+ ds).
Proof.
  induction suf as [|c suf IH]; intros pre fuel Hf.
  - exists EmptyString, EmptyString. split; [done|]. split; [done|]. split; [auto|].
    rewrite string_app_empty. destruct fuel; simpl; [done|]. by rewrite string_get_end.
  - destruct fuel as [|fuel]; [simpl in Hf; lia|]. simpl in Hf.
    simpl. rewrite string_get_app. simpl. destruct (isDigit c) eqn:Ec.
    + destruct (IH (pre +:+ String c EmptyString) fuel) as (ds & rest & -> & Hr & Hds & E);
        [lia|].
      exists (String c ds), rest. split; [done|]. split; [done|]. split.
      * right. destruct Hds as [->|Hds]; [by constructor|by constructor].
      * rewrite string_length_app in E. simpl in E.
        rewrite Nat.add_1_r in E. rewrite string_snoc_app, E.
        by rewrite <- string_snoc_app.
    + exists EmptyString, (String c suf). split; [done|]. split; [done|]. split; [auto|].
      by rewrite string_app_empty.
Qed.

Lemma parseTerm_run pre suf :
  (∃ ds rest, suf = ds +:+ rest ∧ Number ds ∧ noDigitAhead rest ∧
              parseTerm (pre +:+ suf) (String.length pre) = (true, String.length (pre +:+ ds))) ∨
  (noDigitAhead suf ∧ parseTerm (pre +:+ suf) (String.length pre) = (false, String.length pre)).
Proof.
  unfold parseTerm. rewrite string_get_app.
  destruct suf as [|c suf]; simpl; [by right|].
  destruct (isDigit c) eqn:Ec; [|by right]. left.
  destruct (skipDigits_run (String c suf) pre (String.length (pre +:+ String c suf)))
    as (ds & rest & E & Hr & Hds & ->).
  { rewrite string_length_app. lia. }
  exists ds, rest. split; [done|]. split; [|done].
  destruct Hds as [->|Hds]; [|done].
  rewrite string_app_nil in E. subst rest. simpl in Hr. congruence.
Qed.

Lemma Number_digit_ahead t rest : Number t → ¬ noDigitAhead (t +:+ rest).
Proof. intros [c Hc|c s Hc _]; rewrite string_app_cons; simpl; congruence. Qed.

Lemma PlusTerms_noDigitAhead s : PlusTerms s → noDigitAhead s.
Proof. intros [|t rest _ _]; simpl; [done|reflexivity]. Qed.

(** A string splits in one way only into a number and a rest that does
    not begin with a digit. *)
Lemma Number_split_unique t :
  Number t → ∀ t', Number t' → ∀ rest rest', noDigitAhead rest → noDigitAhead rest' →
    t +:+ rest = t' +:+ rest' → t = t' ∧ rest = rest'.
Proof.
  induction 1 as [c Hc|c s Hc Hs IH]; intros t' Ht';
    destruct Ht' as [c' Hc'|c' s' Hc' Hs']; intros rest rest' Hr Hr' E;
    rewrite !string_app_cons in E; injection E as -> E.
  - rewrite !string_app_nil in E. by subst.
  - rewrite string_app_nil in E. exfalso. apply (Number_digit_ahead s' rest'); [done|].
    by rewrite <- E.
  - rewrite string_app_nil in E. exfalso. apply (Number_digit_ahead s rest); [done|].
    by rewrite E.
  - destruct (IH s' Hs' rest rest') as [-> ->]; done.
Qed.

Lemma parseTerms_run fuel :
  ∀ pre suf, (String.length suf ≤ fuel)%nat →
    ∃ ok pos, parseTerms (pre +:+ suf) fuel (String.length pre) = Some (ok, pos) ∧
              (ok = true ∧ pos = String.length (pre +:+ suf) ↔ PlusTerms suf).
Proof.
  induction fuel as [|fuel IH]; intros pre suf Hf.
  - destruct suf as [|c suf]; [|simpl in Hf; lia].
    exists true, (String.length pre). rewrite string_app_empty. split.
    + simpl. by rewrite string_get_end.
    + split; [constructor|done].
  - destruct suf as [|c suf].
    + exists true, (String.length pre). rewrite string_app_empty. split.
      * simpl. by rewrite string_get_end.
      * split; [constructor|done].
    + simpl in Hf. simpl. rewrite string_get_app. simpl.
      destruct (Ascii.eqb c "+") eqn:Ec.
      * apply Ascii.eqb_eq in Ec. subst c.
        assert (EL : S (String.length pre) = String.length (pre +:+ String "+" EmptyString)).
        { rewrite string_length_app. simpl. lia. }
        rewrite string_snoc_app, EL.
        destruct (parseTerm_run (pre +:+ String "+" EmptyString) suf)
          as [(ds & rest & -> & Hds & Hr & ->)|[Hn ->]].
        -- rewrite <- string_app_assoc.
           destruct (IH ((pre +:+ String "+" EmptyString) +:+ ds) rest) as (ok & pos & -> & Hiff).
           { rewrite string_length_app in Hf.
             assert (0 < String.length ds)%nat by (destruct Hds; simpl; lia). lia. }
           exists ok, pos. split; [done|]. rewrite Hiff. split.
           ++ intros Hp. by constructor.
           ++ intros Hp. inversion Hp as [|t rest' Ht Hrest' E]; subst.
              destruct (Number_split_unique t Ht ds Hds rest' rest) as [-> ->];
                auto using PlusTerms_noDigitAhead.
        -- eexists _, _. split; [done|]. split; [by intros [[=] _]|].
           intros Hp. inversion Hp as [|t rest' Ht Hrest' E]; subst.
           exfalso. by apply (Number_digit_ahead t rest').
      * exists true, (String.length pre). split; [done|]. split.
        -- intros [_ E]. rewrite string_length_app in E. simpl in E. lia.
        -- intros Hp. inversion Hp; subst. simpl in Ec. discriminate.
Qed.

(** X27: [validateExpression] returns on every string, and returns [true]
    exactly for the strings of the grammar in its comment: a number, that
    is a non-empty run of digits, followed by any number of groups made of
    a plus sign and a number. *)
Theorem validateExpression_grammar expr :
  ∃ b, validateExpression expr = Some b ∧ (b = true ↔ Expression expr).
Proof.
  unfold validateExpression, parseExpression.
  destruct (parseTerm_run EmptyString expr) as [(ds & rest & -> & Hds & Hr & E)|[Hn E]];
    rewrite ?string_app_nil in E; simpl in E; rewrite E.
  - destruct (parseTerms_run (String.length (ds +:+ rest)) ds rest) as (ok & pos & -> & Hiff).
    { rewrite string_length_app. lia. }
    eexists. split; [done|]. rewrite andb_true_iff, Nat.eqb_eq, Hiff. split.
    + intros Hp. exists ds, rest. done.
    + intros (t & rest' & E' & Ht & Hp).
      destruct (Number_split_unique t Ht ds Hds rest' rest) as [-> ->];
        auto using PlusTerms_noDigitAhead.
  - eexists. split; [done|]. split; [discriminate|].
    intros (t & rest & -> & Ht & _). exfalso. by apply (Number_digit_ahead t rest).
Qed.

(** X26: [parse] never throws on a string: it returns a command that
    keeps the input as [raw]; the command is [unknown] without arguments
    when the trimmed input does not begin with a slash, and [validate]
    accepts no [unknown] command. *)
Theorem parse_string input :
  ∃ c, parse (Some input) = Some (Ok c) ∧ raw c = input ∧
       (JS.startsWith (JS.trim input) "/" = false → type c = unknown ∧ args c = []) ∧
       (validate c = true → type c ≠ unknown).
Proof.
  unfold parse.
  assert (Hc : checkRep (JS.trim input) 0 (String.get 0 (JS.trim input)) = None).
  { unfold checkRep. destruct (JS.trim input) as [|a s]; reflexivity. }
  rewrite Hc. destruct (JS.startsWith (JS.trim input) "/") eqn:Es; simpl.
  - destruct (tokenize_total (JS.trim input)) as [tokens ->].
    destruct (_ || _).
    + eexists. split; [done|]. split; [done|]. split; [done|]. simpl. discriminate.
    + eexists. split; [done|]. split; [done|]. split; [done|].
      unfold validate. simpl. intros Hv Ht. rewrite Ht in Hv. discriminate.
  - eexists. split; [done|]. split; [done|]. split; [done|]. simpl. discriminate.
Qed.

End CommandParserExpressions.

(** * Further properties of the user registry *)

Section UserRepositoryInvariants.
Import UserRepository.

Lemma sound_new : sound newRegistry.
Proof.
  split.
  - intros k i H. simpl in H. by rewrite lookup_empty in H.
  - intros i u H. simpl in H. by rewrite lookup_empty in H.
Qed.


Lemma sound_join r i n rm rl : sound r → sound (userJoin r i n rm rl).2.
Proof.
  intros [Hx Hu]. unfold userJoin.
  destruct (JS.truthy i) eqn:Ei; simpl; [|by split].
  destruct (JS.truthy n) eqn:En; simpl; [|by split].
  destruct (JS.truthy rm) eqn:Erm; simpl; [|by split].
  case_bool_decide as Hi; [by split|].
  case_bool_decide as Hn; [by split|].
  rewrite finish_state. apply eq_None_not_Some in Hi, Hn.
  apply truthy_nonempty in Ei, Erm. split; simpl.
  - intros k sid. rewrite lookup_insert. case_decide as Hk.
    + intros [= <-]. eexists. rewrite lookup_insert_eq. split; [done|]. simpl. done.
    + intros H. destruct (Hx _ _ H) as (u & Hsid & Hname).
      exists u. split; [|done]. rewrite lookup_insert_ne; [done|]. congruence.
  - intros j u. rewrite lookup_insert. case_decide as Hj.
    + intros [= <-]. simpl. subst j. done.
    + apply Hu.
Qed.

Lemma sound_leave r i : consistent r → sound r → sound (userLeave r i).2.
Proof.
  intros [_ Hc] [Hx Hu]. unfold userLeave.
  destruct (users r !! i) as [user|] eqn:Ei; [|by split].
  rewrite finish_state. split; simpl.
  - intros k sid. rewrite lookup_delete. case_decide as Hk; [done|].
    intros H. destruct (Hx _ _ H) as (u & Hsid & Hname).
    exists u. split; [|done]. rewrite lookup_delete_ne; [done|].
    intros <-. apply Hk. rewrite <- Hname. congruence.
  - intros j u. rewrite lookup_delete. case_decide as Hj; [done|]. apply Hu.
Qed.

Lemma sound_update f r n :
  (∀ u, username (f u) = username u ∧ id (f u) = id u ∧ room (f u) = room u) →
  sound r → sound (update f r n).2.
Proof.
  intros Hf [Hx Hu]. unfold update.
  destruct (usernameIndex r !! JS.toLowerCase n) as [socketId|] eqn:Hn; [|by split].
  destruct (getUserByUsername r n) as [user|] eqn:Hg; [|by split].
  unfold getUserByUsername in Hg. rewrite Hn in Hg.
  destruct (JS.truthy socketId); [|discriminate].
  destruct (Hf user) as (Fn & Fi & Fr).
  split; simpl.
  - intros k sid H. destruct (Hx _ _ H) as (u & Hsid & Hname).
    rewrite lookup_insert. case_decide as Hk.
    + subst sid. exists (f user). split; [done|]. rewrite Fn. congruence.
    + eauto.
  - intros j u. rewrite lookup_insert. case_decide as Hj.
    + intros [= <-]. subst j. rewrite Fi, Fr. by apply Hu.
    + apply Hu.
Qed.

Lemma sound_step r o : consistent r → sound r → sound (step r o).
Proof.
  intros C S. destruct o; simpl.
  - by apply sound_join.
  - by apply sound_leave.
  - by apply sound_update.
  - by apply sound_update.
  - by apply sound_update.
  - apply sound_new.
Qed.

Lemma reachable_sound r : reachable r → sound r.
Proof.
  induction 1 as [|r o R IH]; [apply sound_new|].
  apply sound_step; [by apply reachable_consistent|done].
Qed.

Lemma names_unique r i j u v :
  consistent r → users r !! i = Some u → users r !! j = Some v →
  JS.toLowerCase (username u) = JS.toLowerCase (username v) → i = j.
Proof.
  intros [_ Hc] Hi Hj Hn. pose proof (Hc _ _ Hi) as H1. pose proof (Hc _ _ Hj) as H2.
  congruence.
Qed.

Lemma registry_checkRep_passes r : consistent r → sound r → checkRep r = None.
Proof.
  intros C [Hx Hu]. unfold checkRep.
  rewrite bool_decide_eq_true_2; simpl.
  - destruct (existsb _ _) eqn:E.
    + apply existsb_exists in E as ([i u] & Hin & Hr). simpl in Hr.
      apply list_elem_of_In, elem_of_map_to_list in Hin.
      destruct (Hu _ _ Hin) as (_ & _ & Hroom). apply truthy_nonempty in Hroom.
      by rewrite Hroom in Hr.
    + destruct C as [-> _]. by rewrite Nat.eqb_refl.
  - unfold lowerNames. apply NoDup_fmap_2_strong; [|apply NoDup_map_to_list].
    intros [i u] [j v] Hi%elem_of_map_to_list Hj%elem_of_map_to_list Hn. simpl in Hn.
    assert (i = j) by (eapply names_unique; eauto). subst j.
    f_equal. congruence.
Qed.

Lemma registry_reachable_passes r : reachable r → checkRep r = None.
Proof. intros R. apply registry_checkRep_passes; [by apply reachable_consistent|by apply reachable_sound]. Qed.

Lemma getUserByUsername_Some r n u :
  consistent r → sound r →
  getUserByUsername r n = Some u ↔
  ∃ i, users r !! i = Some u ∧ JS.toLowerCase (username u) = JS.toLowerCase n.
Proof.
  intros [_ Hc] [Hx Hu]. unfold getUserByUsername. split.
  - destruct (usernameIndex r !! JS.toLowerCase n) as [sid|] eqn:Hn; [|discriminate].
    destruct (JS.truthy sid); [|discriminate]. intros H.
    destruct (Hx _ _ Hn) as (u' & Hsid & Hname). exists sid. split; [done|]. congruence.
  - intros (i & Hi & Hname). rewrite <- Hname, (Hc _ _ Hi).
    destruct (Hu _ _ Hi) as (_ & Hne & _). apply truthy_nonempty in Hne. by rewrite Hne.
Qed.

Lemma getUserByUsername_None r n :
  sound r → getUserByUsername r n = None → usernameIndex r !! JS.toLowerCase n = None.
Proof.
  intros [Hx Hu]. unfold getUserByUsername.
  destruct (usernameIndex r !! JS.toLowerCase n) as [sid|] eqn:Hn; [|done].
  destruct (Hx _ _ Hn) as (u & Hsid & _). destruct (Hu _ _ Hsid) as (_ & Hne & _).
  apply truthy_nonempty in Hne. rewrite Hne, Hsid. discriminate.
Qed.

(** X21: in every registry that calls can produce, the invariant check
    passes; no two connections hold usernames that are equal up to letter
    case; and every user is stored under its own connection id, with a
    non-empty room. *)
Theorem registry_invariant r :
  reachable r →
  checkRep r = None ∧
  (∀ i j u v, getCurrentUser r i = Some u → getCurrentUser r j = Some v →
              JS.toLowerCase (username u) = JS.toLowerCase (username v) → i = j) ∧
  (∀ i u, getCurrentUser r i = Some u → id u = i ∧ room u ≠ EmptyString).
Proof.
  intros R. pose proof (reachable_consistent _ R) as C.
  pose proof (reachable_sound _ R) as S. split; [by apply registry_checkRep_passes|]. split.
  - intros i j u v. by apply names_unique.
  - intros i u H. destruct S as [_ Hu]. destruct (Hu _ _ H) as (? & _ & ?). done.
Qed.

(** X22: the three outcomes of [userJoin] with non-empty arguments, in a
    registry that calls can produce: it throws when the connection id is in
    use; otherwise it returns the error value and changes nothing when the
    username is taken, letter case ignored; otherwise it returns the new
    user, who can then be found by connection id and by username, and no
    other connection is affected. *)
Theorem userJoin_outcomes r i n rm rl :
  reachable r → i ≠ EmptyString → n ≠ EmptyString → rm ≠ EmptyString →
  match getCurrentUser r i, getUserByUsername r n with
  | Some _, _ =>
    userJoin r i n rm rl = (Throw "Precondition violated: socket ID already in use", r)
  | None, Some _ =>
    userJoin r i n rm rl = (Ok (mkJoinResult (Some "Username is already taken") None), r)
  | None, None =>
    let user := mkUser i n rm (default role_user rl) false false in
    ∃ r', userJoin r i n rm rl = (Ok (mkJoinResult None (Some user)), r') ∧
          getCurrentUser r' i = Some user ∧ getUserByUsername r' n = Some user ∧
          ∀ j, j ≠ i → getCurrentUser r' j = getCurrentUser r j
  end.
Proof.
  intros R Hi Hn Hrm. pose proof (reachable_consistent _ R) as C.
  pose proof (reachable_sound _ R) as S.
  pose proof (registry_reachable_passes _ (reachable_step r (OpJoin i n rm rl) R)) as Hpass.
  simpl in Hpass. revert Hpass.
  unfold userJoin, getCurrentUser.
  rewrite (proj2 (truthy_nonempty i) Hi), (proj2 (truthy_nonempty n) Hn), (proj2 (truthy_nonempty rm) Hrm).
  simpl. destruct (users r !! i) as [u0|] eqn:Eu.
  - intros _. rewrite bool_decide_eq_true_2 by eauto. done.
  - rewrite bool_decide_eq_false_2 by (intros [? [=]]).
    destruct (getUserByUsername r n) as [u1|] eqn:Eg.
    + intros _. apply (getUserByUsername_Some r n u1 C S) in Eg as (j & Hj & Hname).
      destruct C as [_ Hc]. rewrite <- Hname, (Hc _ _ Hj).
      by rewrite bool_decide_eq_true_2 by eauto.
    + apply (getUserByUsername_None r n S) in Eg. rewrite Eg.
      rewrite bool_decide_eq_false_2 by (intros [? [=]]).
      rewrite finish_state. intros Hpass. unfold finish. rewrite Hpass.
      eexists. split; [reflexivity|]. simpl.
      split; [by rewrite lookup_insert_eq|]. split.
      * unfold getUserByUsername. simpl. rewrite lookup_insert_eq.
        rewrite (proj2 (truthy_nonempty i) Hi). by rewrite lookup_insert_eq.
      * intros j Hj. by rewrite lookup_insert_ne.
Qed.

(** X23: in every registry that calls can produce, [getUserByUsername]
    finds exactly the stored user whose username equals the argument up to
    letter case. *)
Theorem getUserByUsername_spec r n u :
  reachable r →
  getUserByUsername r n = Some u ↔
  ∃ i, getCurrentUser r i = Some u ∧ JS.toLowerCase (username u) = JS.toLowerCase n.
Proof.
  intros R. apply getUserByUsername_Some; [by apply reachable_consistent|by apply reachable_sound].
Qed.

Lemma update_found f r n u :
  sound r → getUserByUsername r n = Some u →
  usernameIndex r !! JS.toLowerCase n = Some (id u) ∧ users r !! id u = Some u ∧
  update f r n = (true, mkRegistry (<[id u := f u]> (users r)) (usernameIndex r)).
Proof.
  intros [Hx Hu] Hg. unfold update. rewrite Hg.
  unfold getUserByUsername in Hg.
  destruct (usernameIndex r !! JS.toLowerCase n) as [sid|] eqn:Hn; [|discriminate].
  destruct (JS.truthy sid); [|discriminate].
  destruct (Hu _ _ Hg) as (<- & _). done.
Qed.

(** X24: [muteUser] of a username that [getUserByUsername] finds returns
    [true], sets [muted] on that user and touches no other connection; a
    following [unmuteUser] returns [true] and clears the flag, which gives
    the registry back as it was if the user was not muted before. *)
Theorem muteUser_unmuteUser r n u :
  reachable r → getUserByUsername r n = Some u →
  ∃ r1 r2,
    muteUser r n = (true, r1) ∧
    getUserByUsername r1 n = Some (setMuted true u) ∧
    (∀ j, j ≠ id u → getCurrentUser r1 j = getCurrentUser r j) ∧
    unmuteUser r1 n = (true, r2) ∧
    getUserByUsername r2 n = Some (setMuted false u) ∧
    (muted u = false → r2 = r).
Proof.
  intros R Hg. pose proof (reachable_sound _ R) as S.
  destruct (update_found (setMuted true) r n u S Hg) as (Hn & Hu & E1).
  pose proof (reachable_sound _ (reachable_step r (OpMute n) R)) as S1.
  simpl in S1. unfold muteUser in *. rewrite E1 in S1. simpl in S1.
  set (r1 := mkRegistry _ _) in *.
  assert (G1 : getUserByUsername r1 n = Some (setMuted true u)).
  { unfold getUserByUsername, r1. simpl. rewrite Hn.
    destruct S as [_ Hs]. destruct (Hs _ _ Hu) as (_ & Hne & _).
    apply truthy_nonempty in Hne. rewrite Hne. by rewrite lookup_insert_eq. }
  destruct (update_found (setMuted false) r1 n _ S1 G1) as (_ & _ & E2).
  simpl in E2. unfold unmuteUser.
  exists r1, (mkRegistry (<[id u := setMuted false (setMuted true u)]> (users r1)) (usernameIndex r1)).
  split; [done|]. split; [done|]. split.
  { intros j Hj. unfold getCurrentUser, r1. simpl. by rewrite lookup_insert_ne. }
  split; [done|]. split.
  - unfold getUserByUsername, r1. simpl. rewrite Hn.
    destruct S as [_ Hs]. destruct (Hs _ _ Hu) as (_ & Hne & _).
    apply truthy_nonempty in Hne. rewrite Hne. by rewrite lookup_insert_eq.
  - intros Hm. unfold r1. simpl. rewrite insert_insert_eq.
    assert (setMuted false (setMuted true u) = u) as -> by (destruct u; simpl in *; by subst).
    rewrite insert_id by done. by destruct r.
Qed.

(** X25: [userLeave] of a connected id returns the user and removes it:
    the id and the username are no longer found, and the other connections
    are as before. *)
Theorem userLeave_effect r i u :
  reachable r → getCurrentUser r i = Some u →
  ∃ r', userLeave r i = (Ok (Some u), r') ∧
        getCurrentUser r' i = None ∧ getUserByUsername r' (username u) = None ∧
        ∀ j, j ≠ i → getCurrentUser r' j = getCurrentUser r j.
Proof.
  intros R Hu.
  pose proof (registry_reachable_passes _ (reachable_step r (OpLeave i) R)) as Hpass.
  simpl in Hpass. revert Hpass. unfold userLeave, getCurrentUser in *. rewrite Hu.
  rewrite finish_state. intros Hpass. unfold finish. rewrite Hpass.
  eexists. split; [reflexivity|]. simpl.
  split; [by rewrite lookup_delete_eq|]. split.
  - unfold getUserByUsername. simpl. by rewrite lookup_delete_eq.
  - intros j Hj. by rewrite lookup_delete_ne.
Qed.

Lemma registry_invariant_witness :
  checkRep (step newRegistry (OpJoin "s1" "Bob" "r1" None)) = None.
Proof.
  exact (proj1 (registry_invariant _ (reachable_step _ (OpJoin "s1" "Bob" "r1" None)
                                        reachable_new))).
Defined.

Lemma userJoin_outcomes_witness :
  ∃ r', userJoin newRegistry "s1" "Bob" "r1" None
        = (Ok (mkJoinResult None (Some (mkUser "s1" "Bob" "r1" role_user false false))), r') ∧
        getCurrentUser r' "s1" = Some (mkUser "s1" "Bob" "r1" role_user false false) ∧
        getUserByUsername r' "Bob" = Some (mkUser "s1" "Bob" "r1" role_user false false) ∧
        ∀ j, j ≠ "s1" → getCurrentUser r' j = getCurrentUser newRegistry j.
Proof.
  exact (userJoin_outcomes newRegistry "s1" "Bob" "r1" None reachable_new
           ltac:(discriminate) ltac:(discriminate) ltac:(discriminate)).
Defined.

Lemma getUserByUsername_spec_witness :
  getUserByUsername (step newRegistry (OpJoin "s1" "Bob" "r1" None)) "BOB"
  = Some (mkUser "s1" "Bob" "r1" role_user false false) ↔
  ∃ i, getCurrentUser (step newRegistry (OpJoin "s1" "Bob" "r1" None)) i
       = Some (mkUser "s1" "Bob" "r1" role_user false false) ∧
       JS.toLowerCase (username (mkUser "s1" "Bob" "r1" role_user false false))
       = JS.toLowerCase "BOB".
Proof.
  exact (getUserByUsername_spec _ "BOB" _
           (reachable_step _ (OpJoin "s1" "Bob" "r1" None) reachable_new)).
Defined.

Lemma muteUser_unmuteUser_witness :
  ∃ r1 r2,
    muteUser (step newRegistry (OpJoin "s1" "Bob" "r1" None)) "bob" = (true, r1) ∧
    getUserByUsername r1 "bob" = Some (mkUser "s1" "Bob" "r1" role_user true false) ∧
    unmuteUser r1 "bob" = (true, r2) ∧
    r2 = step newRegistry (OpJoin "s1" "Bob" "r1" None).
Proof.
  destruct (muteUser_unmuteUser (step newRegistry (OpJoin "s1" "Bob" "r1" None)) "bob"
              (mkUser "s1" "Bob" "r1" role_user false false)
              (reachable_step _ (OpJoin "s1" "Bob" "r1" None) reachable_new))
    as (r1 & r2 & H1 & H2 & _ & H3 & _ & H4); [vm_compute; reflexivity|].
  exists r1, r2. split; [exact H1|]. split; [exact H2|]. split; [exact H3|].
  apply H4. reflexivity.
Defined.

Lemma userLeave_effect_witness :
  ∃ r', userLeave (step newRegistry (OpJoin "s1" "Bob" "r1" None)) "s1"
        = (Ok (Some (mkUser "s1" "Bob" "r1" role_user false false)), r') ∧
        getCurrentUser r' "s1" = None ∧ getUserByUsername r' "Bob" = None.
Proof.
  destruct (userLeave_effect (step newRegistry (OpJoin "s1" "Bob" "r1" None)) "s1"
              (mkUser "s1" "Bob" "r1" role_user false false)
              (reachable_step _ (OpJoin "s1" "Bob" "r1" None) reachable_new))
    as (r' & H1 & H2 & H3 & _); [vm_compute; reflexivity|].
  exists r'. auto.
Defined.

End UserRepositoryInvariants.

(** * Properties of the performance monitor *)

Section PerformanceMonitorFacts.
Import PerformanceMonitor.

Lemma tail_drop {A} (k : nat) (l : list A) : tail (drop k l) = drop (S k) l.
Proof.
  revert k. induction l as [|a l IH]; intros [|k]; simpl; done.
Qed.

Lemma lastN_snoc (h : list Z) d :
  lastN 100 (h ++ [d])
  = if Nat.ltb 100 (length (lastN 100 h ++ [d])) then tail (lastN 100 h ++ [d])
    else lastN 100 h ++ [d].
Proof.
  unfold lastN. rewrite !length_app, length_drop. simpl.
  destruct (Nat.ltb_spec 100 (length h - (length h - 100) + 1)) as [Hgt|Hle].
  - assert (Hh : (100 ≤ length h)%nat) by lia.
    replace (length h + 1 - 100)%nat with (S (length h - 100)) by lia.
    rewrite drop_app_le by lia.
    destruct (drop (length h - 100) h) as [|x xs] eqn:E.
    { apply (f_equal length) in E. rewrite length_drop in E. simpl in E. lia. }
    simpl. f_equal. by rewrite <- tail_drop, E.
  - replace (length h + 1 - 100)%nat with 0%nat by lia.
    replace (length h - 100)%nat with 0%nat by lia. by rewrite !drop_0.
Qed.

Lemma measurements_snoc name calls c :
  measurements name (calls ++ [c])
  = measurements name calls ++ (if String.eqb c.1 name then [c.2] else []).
Proof.
  unfold measurements. rewrite omap_app. simpl. by destruct (String.eqb c.1 name).
Qed.

Lemma recordAll_snoc ops calls c :
  recordAll ops (calls ++ [c]) = record (recordAll ops calls) c.1 c.2.
Proof. unfold recordAll. by rewrite foldl_snoc. Qed.

Lemma lastN_nil {A} n (l : list A) : lastN n l = [] → (0 < n)%nat → l = [].
Proof.
  unfold lastN. intros H Hn. apply (f_equal length) in H. rewrite length_drop in H.
  simpl in H. destruct l; [done|]. simpl in H. lia.
Qed.

(** X28: after any sequence of [record] calls on a new monitor, the
    array kept for an operation holds the last 100 of the durations
    recorded for it, in the order of the calls, and all of them when there
    are fewer; an operation that was never recorded has no entry. *)
Theorem record_window calls name :
  recordAll ∅ calls !! name
  = match measurements name calls with
    | [] => None
    | ms => Some (lastN 100 ms)
    end.
Proof.
  induction calls as [|c calls IH] using rev_ind;
    [unfold recordAll; simpl; by rewrite lookup_empty|].
  rewrite recordAll_snoc, measurements_snoc. unfold record.
  destruct (String.eqb_spec c.1 name) as [->|Hne].
  - rewrite lookup_insert_eq, IH.
    destruct (measurements name calls) as [|m ms] eqn:E.
    + reflexivity.
    + rewrite <- E. simpl.
      assert (∃ x xs, measurements name calls ++ [c.2] = x :: xs) as (x & xs & Ex).
      { rewrite E. simpl. eauto. }
      rewrite Ex, <- Ex. by rewrite lastN_snoc.
  - rewrite lookup_insert_ne by done. rewrite IH. by rewrite app_nil_r.
Qed.

Lemma foldl_min_spec ds : ∀ d,
  foldl Z.min d ds ∈ d :: ds ∧ ∀ x, x ∈ d :: ds → foldl Z.min d ds ≤ x.
Proof.
  induction ds as [|y ds IH]; intros d; simpl.
  - split; [apply list_elem_of_here|]. intros x ->%list_elem_of_singleton. lia.
  - destruct (IH (Z.min d y)) as [Hin Hle]. split.
    + apply elem_of_cons in Hin as [Hin|Hin].
      * rewrite Hin. destruct (Z.min_spec d y) as [[_ ->]|[_ ->]];
          [apply list_elem_of_here|apply list_elem_of_further, list_elem_of_here].
      * by do 2 apply list_elem_of_further.
    + intros x Hx. assert (Hm : foldl Z.min (Z.min d y) ds ≤ Z.min d y).
      { apply Hle, list_elem_of_here. }
      apply elem_of_cons in Hx as [->|Hx]; [lia|].
      apply elem_of_cons in Hx as [->|Hx]; [lia|].
      apply Hle. by apply list_elem_of_further.
Qed.

Lemma foldl_max_spec ds : ∀ d,
  foldl Z.max d ds ∈ d :: ds ∧ ∀ x, x ∈ d :: ds → x ≤ foldl Z.max d ds.
Proof.
  induction ds as [|y ds IH]; intros d; simpl.
  - split; [apply list_elem_of_here|]. intros x ->%list_elem_of_singleton. lia.
  - destruct (IH (Z.max d y)) as [Hin Hle]. split.
    + apply elem_of_cons in Hin as [Hin|Hin].
      * rewrite Hin. destruct (Z.max_spec d y) as [[_ ->]|[_ ->]];
          [apply list_elem_of_further, list_elem_of_here|apply list_elem_of_here].
      * by do 2 apply list_elem_of_further.
    + intros x Hx. assert (Hm : Z.max d y ≤ foldl Z.max (Z.max d y) ds).
      { apply Hle, list_elem_of_here. }
      apply elem_of_cons in Hx as [->|Hx]; [lia|].
      apply elem_of_cons in Hx as [->|Hx]; [lia|].
      apply Hle. by apply list_elem_of_further.
Qed.

(** X29: after any sequence of [record] calls on a new monitor,
    [getStats] returns [null] exactly for an operation without
    measurement; otherwise [count] is the number of measurements, capped
    at 100, and [min] and [max] are the least and the greatest of the
    measurements kept. *)
Theorem getStats_recorded calls name :
  let ms := measurements name calls in
  match getStats (recordAll ∅ calls) name with
  | None => ms = []
  | Some stats =>
    count stats = Nat.min 100 (length ms) ∧ (0 < count stats)%nat ∧
    min stats ∈ lastN 100 ms ∧ max stats ∈ lastN 100 ms ∧
    ∀ d, d ∈ lastN 100 ms → min stats ≤ d ≤ max stats
  end.
Proof.
  intros ms. unfold getStats. rewrite record_window. fold ms.
  destruct ms as [|m ms'] eqn:E; [done|]. rewrite <- E.
  destruct (lastN 100 ms) as [|d ds] eqn:El.
  { apply lastN_nil in El; [|lia]. congruence. }
  cbn [count min max]. rewrite <- El.
  assert (Hlen : length (lastN 100 ms) = Nat.min 100 (length ms)).
  { unfold lastN. rewrite length_drop. lia. }
  split; [done|]. split; [rewrite El; simpl; lia|].
  rewrite El. destruct (foldl_min_spec ds d) as [Hmin Hle].
  destruct (foldl_max_spec ds d) as [Hmax Hge].
  split; [done|]. split; [done|]. intros x Hx. split; [by apply Hle|by apply Hge].
Qed.

End PerformanceMonitorFacts.

(** * Properties of the command handlers *)

Section ServerFacts.
Import UserRepository.

Lemma plain_join r i n rm :
  (∀ j u, users r !! j = Some u → role u = role_user ∧ muted u = false ∧ banned u = false) →
  ∀ j u, users (Server.userJoin r i n rm).2 !! j = Some u →
         role u = role_user ∧ muted u = false ∧ banned u = false.
Proof.
  intros H. unfold Server.userJoin, userJoin.
  destruct (negb (JS.truthy i)); [done|].
  destruct (negb (JS.truthy n)); [done|].
  destruct (negb (JS.truthy rm)); [done|].
  case_bool_decide; [done|]. case_bool_decide; [done|].
  rewrite finish_state. simpl. intros j u. rewrite lookup_insert. case_decide.
  - by intros [= <-].
  - apply H.
Qed.

Lemma plain_leave r i :
  (∀ j u, users r !! j = Some u → role u = role_user ∧ muted u = false ∧ banned u = false) →
  ∀ j u, users (userLeave r i).2 !! j = Some u →
         role u = role_user ∧ muted u = false ∧ banned u = false.
Proof.
  intros H. unfold userLeave. destruct (users r !! i) as [user|]; [|done].
  rewrite finish_state. simpl. intros j u. rewrite lookup_delete. case_decide; [done|].
  apply H.
Qed.

(** X30: in every registry that the socket handlers can produce, each
    connected user has the role [user] and is neither muted nor banned:
    the wrapper [userJoin] passes no role, so [handleMuteCommand] and
    [handleBanCommand] answer every such user with the permission error
    and leave the registry as it is. *)
Theorem server_never_moderates r :
  Server.served r →
  ∀ id user, getCurrentUser r id = Some user →
    role user = role_user ∧ muted user = false ∧ banned user = false ∧
    ∀ args time,
      Server.handleMuteCommand r args user time
      = (Ok [Server.socketEmit "error" "You don't have permission to mute users"], r) ∧
      Server.handleBanCommand r args user time
      = (Ok [Server.socketEmit "error" "You don't have permission to ban users"], r).
Proof.
  intros S.
  assert (P : ∀ j u, users r !! j = Some u →
                     role u = role_user ∧ muted u = false ∧ banned u = false).
  { induction S as [|r i n rm S IH|r i S IH|r i user args time S IH Hu|r i user args time S IH Hu].
    - intros j u H. simpl in H. by rewrite lookup_empty in H.
    - by apply plain_join.
    - by apply plain_leave.
    - destruct (IH _ _ Hu) as (Hr & _). unfold Server.handleMuteCommand. by rewrite Hr.
    - destruct (IH _ _ Hu) as (Hr & _). unfold Server.handleBanCommand. by rewrite Hr. }
  intros i user Hu. destruct (P _ _ Hu) as (Hr & Hm & Hb).
  split; [done|]. split; [done|]. split; [done|]. intros args time.
  unfold Server.handleMuteCommand, Server.handleBanCommand. by rewrite Hr.
Qed.

Lemma server_never_moderates_witness :
  Server.handleMuteCommand (Server.userJoin newRegistry "s1" "Bob" "r1").2 ["alice"]
    (mkUser "s1" "Bob" "r1" role_user false false) "1:00 pm"
  = (Ok [Server.socketEmit "error" "You don't have permission to mute users"],
     (Server.userJoin newRegistry "s1" "Bob" "r1").2).
Proof.
  refine (proj1 (proj2 (proj2 (proj2
    (server_never_moderates (Server.userJoin newRegistry "s1" "Bob" "r1").2
       (Server.served_joinRoom _ "s1" "Bob" "r1" Server.served_new) "s1"
       (mkUser "s1" "Bob" "r1" role_user false false) _))) ["alice"] "1:00 pm")).
  vm_compute. reflexivity.
Defined.

End ServerFacts.
